(** * Visualiser.py: the group-plot construction, embedded and verified

    The development follows [src/Visualiser.py]: the helper
    [to_float_list], the visual-channel assignments, the row index, the
    layout arithmetic and the drawing loop of
    [TableVisualiserApp.make_group_plot], and the guard sequence of
    [TableVisualiserApp.plot].

    Numbers.  A Python float is an IEEE 754 binary64 value: the
    Standard Library's specification of floating-point numbers
    ([SpecFloat]) at precision 53 and maximal exponent 1024, with its
    correctly rounded operations.  Dictionaries are [gmap]s, Python
    lists are lists.

    Exceptions.  The functions named after the source give what the
    code computes when no conversion raises; the functions ending in
    [_run] follow the same code with its exceptions ([OverflowError],
    [AttributeError]) and are related to the former by theorems. *)

From Stdlib Require Import ZArith Ascii SpecFloat.
From stdpp Require Import base option list gmap strings pretty.

Set Default Proof Using "Type".

(** ** Library functions the program calls

    [str.lower], the string-to-number parser behind [pd.to_numeric] and
    NumPy's generator are library code; the program is parametric in
    them. *)

(** A Python float: a binary64 value. *)
Definition float : Type := spec_float.

Abbreviation NaN := S754_nan.
Abbreviation PInf := (S754_infinity false).
Abbreviation NInf := (S754_infinity true).

Definition prec : Z := 53.
Definition emax : Z := 1024.

(** Arithmetic on doubles, rounding to nearest, ties to even. *)
Definition fadd : float → float → float := SFadd prec emax.
Definition fsub : float → float → float := SFsub prec emax.
Definition fmul : float → float → float := SFmul prec emax.
Definition fdiv : float → float → float := SFdiv prec emax.

(** The double nearest to an integer, as [float(z)] and the conversion
    of an integer array to [float64] give it; an infinity when [z] is
    beyond the range of a double, where Python raises [OverflowError]
    instead (see [float_run]). *)
Definition float_of_Z (z : Z) : float := binary_normalize prec emax z 0 false.

Definition float_of_nat (n : nat) : float := float_of_Z (Z.of_nat n).

(** The double a decimal literal [n/d] denotes, for integers [n] and [d]
    that are doubles themselves: division is correctly rounded. *)
Definition decimal (n d : Z) : float := fdiv (float_of_Z n) (float_of_Z d).

(** [x == 0.0] *)
Definition is_zero (x : float) : bool :=
  match x with S754_zero _ => true | _ => false end.

Class Library := {
  (** [str.lower] *)
  lower : string → string;
  (** what [pd.to_numeric] makes of a string; [None] when it does not
      parse (coerced to NaN under [errors="coerce"]) *)
  parse_numeric : string → option float;
  (** [np.random.Generator] states *)
  Gen : Type;
  (** [np.random.default_rng(seed)] *)
  default_rng : Z → Gen;
  (** [g.integers(low, high)]: the drawn integer and the advanced state *)
  integers : Gen → Z → Z → Z * Gen;
  (** the standard normal variate behind [g.normal] and the advanced
      state *)
  standard_normal : Gen → float * Gen;
}.

(** ** Cell values *)

(** A raw cell of the data frame as [pd.read_csv] produces it. *)
Inductive cell :=
  | CInt (z : Z)
  | CFloat (f : float)
  | CBool (b : bool)
  | CStr (s : string).

(** ** Exceptions *)

(** The exceptions the conversions of the build can raise: [float(v)]
    and [astype(float)] on an integer beyond the range of a double, and
    [rid.lower()] on an identifier that is a float. *)
Inductive exception :=
  | OverflowError
  | AttributeError.

(** What a call gives: the value it returns or the exception it raises. *)
Inductive result (A : Type) :=
  | Ok (x : A)
  | Raised (e : exception).
Arguments Ok {A} x.
Arguments Raised {A} e.

#[global] Instance result_ret : MRet result := λ A x, Ok x.
#[global] Instance result_bind : MBind result := λ A B f r,
  match r with
  | Ok x => f x
  | Raised e => Raised e
  end.

Definition isna (f : float) : bool :=
  match f with NaN => true | _ => false end.

Definition is_finite (f : float) : bool :=
  match f with S754_zero _ | S754_finite _ _ _ => true | _ => false end.

#[global] Instance float_inhabited : Inhabited float := populate (S754_zero false).

Section Program.
Context `{lib : Library}.

(** [pd.to_numeric(v, errors="coerce")] on one value, as a double:
    what [float(v)] and [astype(float)] then make of it.  An integer is
    rounded to the nearest double; for an integer beyond the range of a
    double the value here is an infinity, and the code raises (see
    [float_run]). *)
Definition to_numeric (c : cell) : float :=
  match c with
  | CInt z => float_of_Z z
  | CFloat f => f
  | CBool b => float_of_Z (if b then 1 else 0)
  | CStr s => default NaN (parse_numeric s)
  end.

(** [Series.dropna()] on a series of floats. *)
Definition dropna (s : list float) : list float :=
  filter (λ f, isna f = false) s.

(** [to_float_list(values)]:
    [pd.to_numeric(pd.Series(values), errors="coerce").dropna()] then
    [.astype(float).tolist()]: the list returned when the conversion
    does not raise ([to_float_list_run] has the exception). *)
Definition to_float_list (values : list cell) : list float :=
  let s := dropna (to_numeric <$> values) in
  s.

(** What [pd.to_numeric(v, errors="coerce")] leaves for one value: a
    float, or an integer, which stays the integer it is. *)
Inductive number :=
  | NInt (z : Z)
  | NFloat (f : float).

Definition coerce (c : cell) : number :=
  match c with
  | CInt z => NInt z
  | CFloat f => NFloat f
  | CBool b => NInt (if b then 1 else 0)
  | CStr s => NFloat (default NaN (parse_numeric s))
  end.

(** [pd.isna(v)] on such a value: an integer is never missing. *)
Definition isna_number (v : number) : bool :=
  match v with
  | NInt _ => false
  | NFloat f => isna f
  end.

(** [float(v)], and [astype(float)] on one element: an integer becomes
    the nearest double, and [OverflowError] is raised when it is beyond
    the range of a double. *)
Definition float_run (v : number) : result float :=
  match v with
  | NFloat f => Ok f
  | NInt z =>
    if is_finite (float_of_Z z) then Ok (float_of_Z z) else Raised OverflowError
  end.

(** [to_float_list(values)] with its exception. *)
Definition to_float_list_run (values : list cell) : result (list float) :=
  let s := filter (λ v, isna_number v = false) (coerce <$> values) in
  mapM float_run s.

(** ** The figure: what the build draws

    A figure is the list of drawing calls made on the axes, in call
    order, and the two legends.  The fields [bp_rid], [sc_rid],
    [sc_group] and [sc_sample] record the loop variables of the
    iteration that makes the call. *)

Definition color := (N * N * N)%type.

Definition black : color := (0, 0, 0)%N.

Record Line2D := {
  l2d_marker : string;
  l2d_color : color;
  l2d_label : string;
}.

(** One [ax.boxplot(per_group_values, positions=..., widths=...)]. *)
Record Boxplot := {
  bp_rid : string;
  bp_data : list (list float);
  bp_positions : list float;
  bp_widths : float;
}.

(** One [ax.scatter(xj, float(v), marker=..., color=..., alpha=...)]. *)
Record Scatter := {
  sc_rid : string;
  sc_group : string;
  sc_sample : string;
  sc_x : float;
  sc_y : float;
  sc_marker : string;
  sc_color : color;
  sc_alpha : float;
}.

Record Figure := {
  boxplots : list Boxplot;
  scatters : list Scatter;
  xticks : list float;
  xticklabels : list string;
  leg_shapes : list Line2D;
  leg_samples : list Line2D;
}.

(** ** The application object *)

(** The loaded table: the identifier column as strings
    ([df[id_col].astype(str).tolist()]) and the cell accessor
    ([df.iloc[i][c]]). *)
Record DataFrame := {
  df_ids : list string;
  df_cell : nat → string → cell;
}.

(** The fields of [TableVisualiserApp] the plot code reads or writes.
    The dictionaries [id_vars] and [col_vars] keep insertion order, so
    they are association lists here; [BooleanVar]s are their values. *)
Record TableVisualiserApp := {
  df : option DataFrame;
  id_vars : list (string * bool);
  groups : gmap string (list (string * bool));
  group_listbox : list string;
  id_markers : list string;
  jitter_alpha : float;
  jitter_width : float;
  last_fig : option Figure;
}.

(** [self.id_markers] as [__init__] sets it. *)
Definition init_id_markers : list string :=
  ["o"; "s"; "^"; "D"; "v"; "P"; "X"; "*"; "<"; ">"; "h"; "H"; "8"; "p"].

(** The colours of matplotlib's [tab20] colormap, 8 bits per channel. *)
Definition tab20 : list color :=
  [ (0x1f, 0x77, 0xb4); (0xae, 0xc7, 0xe8); (0xff, 0x7f, 0x0e);
    (0xff, 0xbb, 0x78); (0x2c, 0xa0, 0x2c); (0x98, 0xdf, 0x8a);
    (0xd6, 0x27, 0x28); (0xff, 0x98, 0x96); (0x94, 0x67, 0xbd);
    (0xc5, 0xb0, 0xd5); (0x8c, 0x56, 0x4b); (0xc4, 0x9c, 0x94);
    (0xe3, 0x77, 0xc2); (0xf7, 0xb6, 0xd2); (0x7f, 0x7f, 0x7f);
    (0xc7, 0xc7, 0xc7); (0xbc, 0xbd, 0x22); (0xdb, 0xdb, 0x8d);
    (0x17, 0xbe, 0xcf); (0x9e, 0xda, 0xe5) ]%N.

(** [cmap = plt.get_cmap("tab20")]; [cmap(i)] for an integer index. *)
Definition cmap (i : nat) : color := tab20 !!! i.

(** [enumerate(l)] *)
Definition enumerate {A} (l : list A) : list (nat * A) :=
  zip (seq 0 (length l)) l.

(** ** Selection *)

(** [get_selected_ids]: [[rid for rid, var in self.id_vars.items() if var.get()]] *)
Definition get_selected_ids (self : TableVisualiserApp) : list string :=
  fst <$> filter (λ rv, rv.2 = true) (id_vars self).

(** [get_group_cols]; [None] is the [KeyError] of [self.groups[group_name]]. *)
Definition get_group_cols (self : TableVisualiserApp) (group_name : string)
  : option (list string) :=
  match groups self !! group_name with
  | Some col_vars => Some (fst <$> filter (λ cv, cv.2 = true) col_vars)
  | None => None
  end.

(** ** Layout arithmetic *)

(** [np.arange(n)], its integers as the doubles they become when a
    float is added to the array or multiplied with it. *)
Definition arange (n : nat) : list float :=
  float_of_nat <$> seq 0 n.

(** [np.linspace(start, stop, num)] on doubles, as NumPy computes it:
    [delta = stop - start], [div = num - 1] and, for [div > 0],
    [step = delta / div] and [y = arange(num) * step] (or
    [arange(num) / div * delta] when the step is zero), else
    [y = arange(num) * delta]; then [y += start], and [y[-1] = stop]
    when [num > 1]. *)
Definition linspace (start stop : float) (num : nat) : list float :=
  let div := num - 1 in
  let delta := fsub stop start in
  let y :=
    if decide (0 < div) then
      let step := fdiv delta (float_of_nat div) in
      if is_zero step then
        (λ x, fmul (fdiv x (float_of_nat div)) delta) <$> arange num
      else (λ x, fmul x step) <$> arange num
    else (λ x, fmul x delta) <$> arange num in
  let y := (λ x, fadd x start) <$> y in
  if decide (1 < num) then <[num - 1 := stop]> y else y.

(** [offsets = np.linspace(-0.25, 0.25, num=K) if K > 1 else np.array([0.0])] *)
Definition compute_offsets (K : nat) : list float :=
  if decide (1 < K) then linspace (decimal (-25) 100) (decimal 25 100) K
  else [float_of_Z 0].

(** ** Visual channels and the row index *)

(** The loop that fills [sample_order], with its [seen] set. *)
Definition sample_order_add (st : gset string * list string) (c : string)
  : gset string * list string :=
  if decide (c ∈ st.1) then st else ({[c]} ∪ st.1, st.2 ++ [c]).

Definition compute_sample_order (ordered_groups : list string)
    (group_to_cols : gmap string (list string)) : list string :=
  (foldl (λ st g, foldl sample_order_add st (group_to_cols !!! g))
         (∅, []) ordered_groups).2.

(** [{c: cmap(i % 20) for i, c in enumerate(sample_order)}] *)
Definition compute_sample_color (sample_order : list string) : gmap string color :=
  foldl (λ m ic, <[ic.2 := cmap (ic.1 mod 20)]> m) ∅ (enumerate sample_order).

(** [{rid: self.id_markers[i % len(self.id_markers)] for i, rid in enumerate(selected_ids)}];
    the palette [self.id_markers] is never empty. *)
Definition compute_id_marker (markers : list string) (selected_ids : list string)
  : gmap string string :=
  foldl (λ m ir, <[ir.2 := markers !!! (ir.1 mod length markers)]> m) ∅
        (enumerate selected_ids).

(** The loop that fills [idx_map]. *)
Definition idx_map_add (idx_map : gmap string nat) (ir : nat * string)
  : gmap string nat :=
  let lrid := lower ir.2 in
  match idx_map !! lrid with
  | Some _ => idx_map
  | None => <[lrid := ir.1]> idx_map
  end.

Definition compute_idx_map (ids : list string) : gmap string nat :=
  foldl idx_map_add ∅ (enumerate ids).

(** The list [self.df[self.id_col].astype(str).tolist()] as the code
    meets it: the strings of [df_ids], except that the rows [na] marks
    hold the float nan.  pandas 3 leaves a missing identifier as nan
    under [astype(str)]; pandas 2 makes it the string "nan", and then
    [na] marks no row. *)
Definition id_column (d : DataFrame) (na : nat → bool) : list (option string) :=
  imap (λ i rid, if na i then None else Some rid) (df_ids d).

(** The loop that fills [idx_map], with its exception: [rid.lower()] on
    a float raises [AttributeError]. *)
Definition idx_map_add_run (idx_map : gmap string nat) (ir : nat * option string)
  : result (gmap string nat) :=
  match ir.2 with
  | None => Raised AttributeError
  | Some rid => Ok (idx_map_add idx_map (ir.1, rid))
  end.

Definition compute_idx_map_run (ids : list (option string))
  : result (gmap string nat) :=
  foldl (λ acc ir, acc ≫= λ idx_map, idx_map_add_run idx_map ir) (Ok ∅)
        (enumerate ids).

(** ** Jitter *)

(** [g.normal(loc, scale, size=1)[0]]: NumPy computes
    [loc + scale * z] from one standard normal variate [z], in double
    arithmetic: the product is rounded, then the sum (a build of NumPy
    that fuses the two operations rounds once). *)
Definition normal (g : Gen) (loc scale : float) : float * Gen :=
  let zg := standard_normal g in (fadd loc (fmul scale zg.1), zg.2).

(** ** The drawing loop of [make_group_plot] *)

(** What the loop over [selected_ids] updates: the master generator, the
    calls made on the axes, and [id_handles]. *)
Record Loop := {
  rng_master : Gen;
  ax_boxplots : list Boxplot;
  ax_scatters : list Scatter;
  id_handles : list Line2D;
}.

Section Drawing.
(** the locals of [make_group_plot] the loop reads *)
Variables (d : DataFrame) (K : nat).
Variables (ordered_groups : list string) (group_to_cols : gmap string (list string)).
Variables (sample_color : gmap string color) (id_marker : gmap string string).
Variables (idx_map : gmap string nat) (group_x offsets : list float).
Variables (jitter_alpha' jitter_width' : float).

(** body of [for c in cols] *)
Definition jitter_col (rid g : string) (row : string → cell) (x0 : float)
    (st : Gen * list Scatter) (c : string) : Gen * list Scatter :=
  let v := to_numeric (row c) in
  if isna v then st
  else
    let xg := normal st.1 x0 jitter_width' in
    (xg.2,
     st.2 ++ [ {| sc_rid := rid; sc_group := g; sc_sample := c;
                  sc_x := xg.1; sc_y := v;
                  sc_marker := id_marker !!! rid;
                  sc_color := sample_color !!! c;
                  sc_alpha := jitter_alpha' |} ]).

(** body of [for gi, g in enumerate(ordered_groups)] *)
Definition jitter_group (rid : string) (row : string → cell)
    (per_group_cols : list (list string)) (positions : list float)
    (st : Gen * list Scatter) (gig : nat * string) : Gen * list Scatter :=
  let cols := per_group_cols !!! gig.1 in
  let x0 := positions !!! gig.1 in
  foldl (jitter_col rid gig.2 row x0) st cols.

(** body of [for k, rid in enumerate(selected_ids)] *)
Definition draw_id (st : Loop) (kr : nat * string) : Loop :=
  let rid := kr.2 in
  let lrid := lower rid in
  match idx_map !! lrid with
  | None => st
  | Some i =>
    let row := df_cell d i in
    let positions := (λ x, fadd x (offsets !!! kr.1)) <$> group_x in
    let per_group_values :=
      (λ g, to_float_list (row <$> group_to_cols !!! g)) <$> ordered_groups in
    let per_group_cols := (λ g, group_to_cols !!! g) <$> ordered_groups in
    let bp := {| bp_rid := rid; bp_data := per_group_values;
                 bp_positions := positions;
                 bp_widths := if decide (1 < K) then decimal 16 100
                              else decimal 35 100 |} in
    let sm := integers (rng_master st) 0 10000000 in
    let rng := default_rng sm.1 in
    let drawn :=
      foldl (jitter_group rid row per_group_cols positions)
            (rng, ax_scatters st) (enumerate ordered_groups) in
    {| rng_master := sm.2;
       ax_boxplots := ax_boxplots st ++ [bp];
       ax_scatters := drawn.2;
       id_handles := id_handles st ++
         [ {| l2d_marker := id_marker !!! rid; l2d_color := black;
              l2d_label := rid |} ] |}
  end.
(** The same bodies with their exceptions. *)

(** body of [for c in cols]; [float(v)] is evaluated after
    [rng.normal] *)
Definition jitter_col_run (rid g : string) (row : string → cell) (x0 : float)
    (st : Gen * list Scatter) (c : string) : result (Gen * list Scatter) :=
  let v := coerce (row c) in
  if isna_number v then Ok st
  else
    let xg := normal st.1 x0 jitter_width' in
    y ← float_run v;
    Ok (xg.2,
        st.2 ++ [ {| sc_rid := rid; sc_group := g; sc_sample := c;
                     sc_x := xg.1; sc_y := y;
                     sc_marker := id_marker !!! rid;
                     sc_color := sample_color !!! c;
                     sc_alpha := jitter_alpha' |} ]).

Definition jitter_group_run (rid : string) (row : string → cell)
    (per_group_cols : list (list string)) (positions : list float)
    (st : Gen * list Scatter) (gig : nat * string)
  : result (Gen * list Scatter) :=
  let cols := per_group_cols !!! gig.1 in
  let x0 := positions !!! gig.1 in
  foldl (λ acc c, acc ≫= λ st, jitter_col_run rid gig.2 row x0 st c) (Ok st) cols.

Definition draw_id_run (st : Loop) (kr : nat * string) : result Loop :=
  let rid := kr.2 in
  let lrid := lower rid in
  match idx_map !! lrid with
  | None => Ok st
  | Some i =>
    let row := df_cell d i in
    let positions := (λ x, fadd x (offsets !!! kr.1)) <$> group_x in
    per_group_values ←
      mapM (λ g, to_float_list_run (row <$> group_to_cols !!! g)) ordered_groups;
    let per_group_cols := (λ g, group_to_cols !!! g) <$> ordered_groups in
    let bp := {| bp_rid := rid; bp_data := per_group_values;
                 bp_positions := positions;
                 bp_widths := if decide (1 < K) then decimal 16 100
                              else decimal 35 100 |} in
    let sm := integers (rng_master st) 0 10000000 in
    let rng := default_rng sm.1 in
    drawn ←
      foldl (λ acc gig, acc ≫= λ st, jitter_group_run rid row per_group_cols
                                        positions st gig)
            (Ok (rng, ax_scatters st)) (enumerate ordered_groups);
    Ok {| rng_master := sm.2;
          ax_boxplots := ax_boxplots st ++ [bp];
          ax_scatters := drawn.2;
          id_handles := id_handles st ++
            [ {| l2d_marker := id_marker !!! rid; l2d_color := black;
                 l2d_label := rid |} ] |}
  end.
End Drawing.

(** [make_group_plot(self, selected_ids, ordered_groups, group_to_cols)],
    called with a data frame loaded. *)
Definition make_group_plot (self : TableVisualiserApp) (d : DataFrame)
    (selected_ids ordered_groups : list string)
    (group_to_cols : gmap string (list string)) : Figure :=
  let ordered_groups :=
    filter (λ g, is_Some (group_to_cols !! g)) ordered_groups in
  let G := length ordered_groups in
  let K := length selected_ids in
  let sample_order := compute_sample_order ordered_groups group_to_cols in
  let sample_color := compute_sample_color sample_order in
  let id_marker := compute_id_marker (id_markers self) selected_ids in
  let idx_map := compute_idx_map (df_ids d) in
  let group_x := arange G in
  let offsets := compute_offsets K in
  let rng_master := default_rng 2026 in
  let sample_handles :=
    (λ c, {| l2d_marker := "o"; l2d_color := sample_color !!! c;
             l2d_label := c |}) <$> sample_order in
  let final :=
    foldl (draw_id d K ordered_groups group_to_cols sample_color id_marker
                   idx_map group_x offsets
                   (jitter_alpha self) (jitter_width self))
          {| rng_master := rng_master; ax_boxplots := []; ax_scatters := [];
             id_handles := [] |}
          (enumerate selected_ids) in
  {| boxplots := ax_boxplots final;
     scatters := ax_scatters final;
     xticks := group_x;
     xticklabels := ordered_groups;
     leg_shapes := id_handles final;
     leg_samples := sample_handles |}.

(** [make_group_plot] with its exceptions; [na] marks the rows whose
    identifier the code meets as the float nan (see [id_column]). *)
Definition make_group_plot_run (self : TableVisualiserApp) (d : DataFrame)
    (na : nat → bool) (selected_ids ordered_groups : list string)
    (group_to_cols : gmap string (list string)) : result Figure :=
  let ordered_groups :=
    filter (λ g, is_Some (group_to_cols !! g)) ordered_groups in
  let G := length ordered_groups in
  let K := length selected_ids in
  let sample_order := compute_sample_order ordered_groups group_to_cols in
  let sample_color := compute_sample_color sample_order in
  let id_marker := compute_id_marker (id_markers self) selected_ids in
  idx_map ← compute_idx_map_run (id_column d na);
  let group_x := arange G in
  let offsets := compute_offsets K in
  let rng_master := default_rng 2026 in
  let sample_handles :=
    (λ c, {| l2d_marker := "o"; l2d_color := sample_color !!! c;
             l2d_label := c |}) <$> sample_order in
  final ←
    foldl (λ acc kr, acc ≫= λ st,
             draw_id_run d K ordered_groups group_to_cols sample_color id_marker
                         idx_map group_x offsets
                         (jitter_alpha self) (jitter_width self) st kr)
          (Ok {| rng_master := rng_master; ax_boxplots := []; ax_scatters := [];
                 id_handles := [] |})
          (enumerate selected_ids);
  Ok {| boxplots := ax_boxplots final;
        scatters := ax_scatters final;
        xticks := group_x;
        xticklabels := ordered_groups;
        leg_shapes := id_handles final;
        leg_samples := sample_handles |}.

(** ** [plot] *)

(** The three warnings [plot] can show; the message-box titles are
    "No dataset", "No Row IDs" and "No samples selected". *)
Inductive warning :=
  | NoDataset
  | EmptySelection
  | NoColumnsAssigned.

(** What a call of [plot] ends in: a warning, the figure shown, the
    [KeyError] of a group of the list box that [self.groups] lacks, or
    (for [plot_run]) the exception the build raised. *)
Inductive outcome :=
  | Warned (w : warning)
  | Shown (fig : Figure)
  | KeyError
  | BuildRaised (e : exception).

(** The loop of [plot] that fills [group_to_cols]. *)
Fixpoint collect_group_cols (self : TableVisualiserApp) (gs : list string)
    (group_to_cols : gmap string (list string))
  : option (gmap string (list string)) :=
  match gs with
  | [] => Some group_to_cols
  | g :: gs' =>
    match get_group_cols self g with
    | None => None
    | Some cols =>
      collect_group_cols self gs'
        (match cols with [] => group_to_cols | _ => <[g := cols]> group_to_cols end)
    end
  end.

Definition set_last_fig (self : TableVisualiserApp) (fig : Figure)
  : TableVisualiserApp :=
  {| df := df self; id_vars := id_vars self; groups := groups self;
     group_listbox := group_listbox self; id_markers := id_markers self;
     jitter_alpha := jitter_alpha self; jitter_width := jitter_width self;
     last_fig := Some fig |}.

(** [plot(self)]: the new state of the object and what the user gets,
    when the build raises nothing. *)
Definition plot (self : TableVisualiserApp) : TableVisualiserApp * outcome :=
  match df self with
  | None => (self, Warned NoDataset)
  | Some d =>
    let selected_ids := get_selected_ids self in
    match selected_ids with
    | [] => (self, Warned EmptySelection)
    | _ =>
      let ordered_groups := group_listbox self in
      match collect_group_cols self ordered_groups ∅ with
      | None => (self, KeyError)
      | Some group_to_cols =>
        if decide (group_to_cols = ∅) then (self, Warned NoColumnsAssigned)
        else
          let fig := make_group_plot self d selected_ids ordered_groups group_to_cols in
          (set_last_fig self fig, Shown fig)
      end
    end
  end.

(** [plot(self)] with the exceptions of the build: when
    [make_group_plot] raises, [self.last_fig] is not assigned.  The keys
    of [id_vars] are strings, as the identifiers of a table without
    missing identifiers are. *)
Definition plot_run (self : TableVisualiserApp) (na : nat → bool)
  : TableVisualiserApp * outcome :=
  match df self with
  | None => (self, Warned NoDataset)
  | Some d =>
    let selected_ids := get_selected_ids self in
    match selected_ids with
    | [] => (self, Warned EmptySelection)
    | _ =>
      let ordered_groups := group_listbox self in
      match collect_group_cols self ordered_groups ∅ with
      | None => (self, KeyError)
      | Some group_to_cols =>
        if decide (group_to_cols = ∅) then (self, Warned NoColumnsAssigned)
        else
          match make_group_plot_run self d na selected_ids ordered_groups
                                    group_to_cols with
          | Ok fig => (set_last_fig self fig, Shown fig)
          | Raised e => (self, BuildRaised e)
          end
      end
    end
  end.

End Program.

(** ** An instance of the library, to run the program

    ASCII lower-casing, unsigned decimal integers as the only strings
    that parse, and a linear congruential generator in the place of
    NumPy's PCG64. *)

Definition ascii_lower (c : ascii) : ascii :=
  let n := nat_of_ascii c in
  if decide (65 ≤ n ≤ 90) then ascii_of_nat (n + 32) else c.

Fixpoint string_lower (s : string) : string :=
  match s with
  | EmptyString => EmptyString
  | String c s' => String (ascii_lower c) (string_lower s')
  end.

Fixpoint parse_digits (s : string) (acc : Z) : option Z :=
  match s with
  | EmptyString => Some acc
  | String c s' =>
    let n := nat_of_ascii c in
    if decide (48 ≤ n ≤ 57) then parse_digits s' (10 * acc + Z.of_nat (n - 48))
    else None
  end.

Definition parse_unsigned (s : string) : option float :=
  match s with
  | EmptyString => None
  | _ => float_of_Z <$> parse_digits s 0
  end.

Definition lcg_next (g : Z) : Z := (g * 1103515245 + 12345) mod 2147483648.

#[local] Instance sample_library : Library := {|
  lower := string_lower;
  parse_numeric := parse_unsigned;
  Gen := Z;
  default_rng := λ seed, seed;
  integers := λ g low high, ((low + lcg_next g mod (high - low))%Z, lcg_next g);
  standard_normal := λ g,
    (fdiv (float_of_Z (lcg_next g mod 7 - 3)) (float_of_Z 2), lcg_next g);
|}.

(** ** Sample states of the application *)

(** The object as [__init__] and [build_ui] leave it: nothing loaded. *)
Definition init_app : TableVisualiserApp :=
  {| df := None; id_vars := []; groups := ∅; group_listbox := [];
     id_markers := init_id_markers;
     jitter_alpha := decimal 80 100; jitter_width := decimal 6 100;
     last_fig := None |}.

(** A table of three rows, identifiers "A", "b", "a", and three sample
    columns: [s1] holds 1, NaN, 7; [s2] is empty; [s3] holds the strings
    "12" and "n/a" and an infinite float. *)
Definition sample_cell (i : nat) (c : string) : cell :=
  if decide (c = "s1") then
    match i with 0 => CInt 1 | 1 => CFloat NaN | _ => CInt 7 end
  else if decide (c = "s3") then
    match i with 0 => CStr "12" | 1 => CStr "n/a" | _ => CFloat PInf end
  else CFloat NaN.

Definition sample_df : DataFrame :=
  {| df_ids := ["A"; "b"; "a"]; df_cell := sample_cell |}.

(** [sample_df] loaded, "Group 1" holding [s1] and [s2], "Group 2"
    holding nothing; the identifier "zzz", ticked or not, is a leftover
    of an earlier identifier column and is not in the table. *)
Definition sample_app (zzz : bool) : TableVisualiserApp :=
  {| df := Some sample_df;
     id_vars := [("zzz", zzz); ("A", true); ("b", true)];
     groups :=
       <["Group 1" := [("s1", true); ("s2", true); ("s3", false)]]>
       (<["Group 2" := [("s1", false); ("s2", false); ("s3", false)]]> ∅);
     group_listbox := ["Group 1"; "Group 2"];
     id_markers := init_id_markers;
     jitter_alpha := decimal 80 100; jitter_width := decimal 6 100;
     last_fig := None |}.

Definition sample_group_to_cols : gmap string (list string) :=
  <["Group 1" := ["s1"; "s2"]]> ∅.

(** [sample_app true] with the identifier "a" ticked as well: four
    identifiers are selected. *)
Definition sample_app_four : TableVisualiserApp :=
  {| df := Some sample_df;
     id_vars := [("zzz", true); ("A", true); ("b", true); ("a", true)];
     groups := groups (sample_app true);
     group_listbox := ["Group 1"; "Group 2"];
     id_markers := init_id_markers;
     jitter_alpha := decimal 80 100; jitter_width := decimal 6 100;
     last_fig := None |}.

(** The same table with the integer [10 ** 400] all over column [s1],
    and [sample_app false] on it. *)
Definition huge_cell (i : nat) (c : string) : cell :=
  if decide (c = "s1") then CInt (10 ^ 400) else sample_cell i c.

Definition huge_df : DataFrame :=
  {| df_ids := ["A"; "b"; "a"]; df_cell := huge_cell |}.

Definition huge_app : TableVisualiserApp :=
  {| df := Some huge_df;
     id_vars := id_vars (sample_app false);
     groups := groups (sample_app false);
     group_listbox := ["Group 1"; "Group 2"];
     id_markers := init_id_markers;
     jitter_alpha := decimal 80 100; jitter_width := decimal 6 100;
     last_fig := None |}.

(** The identifier of the second row is missing, none is, for the
    tables of three rows above. *)
Definition second_missing (i : nat) : bool := bool_decide (i = 1).
Definition none_missing (i : nat) : bool := false.

(** ** Closed forms used by the theorems *)

Section Closed.
Context `{lib : Library}.

(** First offset at which [s] occurs in [l] lower-cased, counted from [n]. *)
Fixpoint first_index (s : string) (l : list string) (n : nat) : option nat :=
  match l with
  | [] => None
  | x :: l' => if decide (lower x = s) then Some n else first_index s l' (S n)
  end.

(** First-occurrence deduplication. *)
Fixpoint nub (l : list string) : list string :=
  match l with
  | [] => []
  | x :: l' => x :: filter (λ y, y ≠ x) (nub l')
  end.

(** The step of [np.linspace(-0.25, 0.25, K)]: the rounded quotient of
    [0.25 - (-0.25)] by [K - 1]. *)
Definition offsets_step (K : nat) : float :=
  fdiv (fsub (decimal 25 100) (decimal (-25) 100)) (float_of_nat (K - 1)).

(** Whether that step is a finite double other than zero. *)
Definition ordinary_step (K : nat) : bool :=
  match offsets_step K with S754_finite _ _ _ => true | _ => false end.

(** Whether each element of a list of doubles is less than the next. *)
Fixpoint increasing (l : list float) : bool :=
  match l with
  | x :: (y :: _) as l' => SFltb x y && increasing l'
  | _ => true
  end.

(** The seeds the loop takes from the master generator: [n] successive
    [integers(0, 10_000_000)]. *)
Fixpoint draws (g : Gen) (n : nat) : list Z :=
  match n with
  | 0 => []
  | S n' =>
    let sm := integers g 0 10000000 in
    sm.1 :: draws sm.2 n'
  end.

(** What a scatter call shows apart from its abscissa and its marker. *)
Definition scatter_core (p : Scatter) : string * string * string * float * color :=
  (sc_rid p, sc_group p, sc_sample p, sc_y p, sc_color p).

(** Two scatter calls for the same cell, placed by the same standard
    normal variate [z] around the centres [x0] and [x0']. *)
Definition same_jitter (jw x0 x0' : float) (p p' : Scatter) : Prop :=
  scatter_core p = scatter_core p' ∧ sc_alpha p = sc_alpha p'
  ∧ ∃ z, sc_x p = fadd x0 (fmul jw z) ∧ sc_x p' = fadd x0' (fmul jw z).

(** The successive standard normal variates of a generator, and the
    generator after them. *)
Fixpoint normals (g : Gen) (n : nat) : list float :=
  match n with
  | 0 => []
  | S n' => let zg := standard_normal g in zg.1 :: normals zg.2 n'
  end.

Fixpoint after_normals (g : Gen) (n : nat) : Gen :=
  match n with
  | 0 => g
  | S n' => after_normals (standard_normal g).2 n'
  end.

(** Whether [get_group_cols] finds at least one column for the group. *)
Definition has_cols (self : TableVisualiserApp) (g : string) : bool :=
  match get_group_cols self g with
  | Some (_ :: _) => true
  | _ => false
  end.

Section Rows.
Variables (d : DataFrame) (K : nat).
Variables (ordered_groups : list string) (group_to_cols : gmap string (list string)).
Variables (sample_color : gmap string color) (id_marker : gmap string string).
Variables (idx_map : gmap string nat) (group_x offsets : list float).
Variables (jitter_alpha' jitter_width' : float).

(** The selected identifiers that have a row, each with its position in
    the selection and the offset of its row. *)
Definition resolved_rows (l : list (nat * string)) : list (nat * string * nat) :=
  omap (λ kr, (λ i, (kr, i)) <$> idx_map !! lower kr.2) l.

(** The box plot, the legend handle and the scatter points of one
    resolved identifier. *)
Definition row_boxplot (r : nat * string * nat) : Boxplot :=
  {| bp_rid := r.1.2;
     bp_data := (λ g, to_float_list (df_cell d r.2 <$> group_to_cols !!! g))
                  <$> ordered_groups;
     bp_positions := (λ x, fadd x (offsets !!! r.1.1)) <$> group_x;
     bp_widths := if decide (1 < K) then decimal 16 100 else decimal 35 100 |}.

Definition row_handle (r : nat * string * nat) : Line2D :=
  {| l2d_marker := id_marker !!! r.1.2; l2d_color := black;
     l2d_label := r.1.2 |}.

Definition row_scatters (r : nat * string * nat) (seed : Z) : list Scatter :=
  (foldl (jitter_group sample_color id_marker jitter_alpha' jitter_width'
            r.1.2 (df_cell d r.2)
            ((λ g, group_to_cols !!! g) <$> ordered_groups)
            ((λ x, fadd x (offsets !!! r.1.1)) <$> group_x))
         (default_rng seed, []) (enumerate ordered_groups)).2.

(** The cells of a row that are drawn: per group and column, the ones
    whose coercion is not NaN. *)
Definition row_core (rid : string) (i : nat)
  : list (string * string * string * float * color) :=
  g ← ordered_groups;
  c ← group_to_cols !!! g;
  let v := to_numeric (df_cell d i c) in
  if isna v then [] else [(rid, g, c, v, sample_color !!! c)].

(** The centre of each point of a row, in drawing order: the position
    of the point's group, that is the group's tick plus the offset of
    the row. *)
Definition row_centres (r : nat * string * nat) : list float :=
  ig ← enumerate ordered_groups;
  c ← (group_to_cols !!! ig.2 : list string);
  if isna (to_numeric (df_cell d r.2 c)) then []
  else [fadd (group_x !!! ig.1) (offsets !!! r.1.1)].

(** Two points of a row drawn around the centres that the offsets [o]
    and [o'] give, with the same normal variate. *)
Definition same_row_jitter (o o' : float) (p p' : Scatter) : Prop :=
  scatter_core p = scatter_core p' ∧ sc_alpha p = sc_alpha p'
  ∧ ∃ gi z, ordered_groups !! gi = Some (sc_group p)
      ∧ sc_x p = fadd (fadd (group_x !!! gi) o) (fmul jitter_width' z)
      ∧ sc_x p' = fadd (fadd (group_x !!! gi) o') (fmul jitter_width' z).

(** A point of a resolved row: it carries the row's identifier and
    marker, and comes from a cell of a column of one of the groups
    whose coercion is not NaN. *)
Definition point_of_row (r : nat * string * nat) (p : Scatter) : Prop :=
  sc_rid p = r.1.2
  ∧ sc_marker p = id_marker !!! r.1.2
  ∧ sc_group p ∈ ordered_groups
  ∧ sc_sample p ∈ (group_to_cols !!! sc_group p : list string)
  ∧ sc_color p = sample_color !!! sc_sample p
  ∧ sc_y p = to_numeric (df_cell d r.2 (sc_sample p))
  ∧ isna (sc_y p) = false
  ∧ sc_alpha p = jitter_alpha'.
End Rows.

(** Two states of the application with the same dataset, selection,
    groups, marker palette and jitter options; they may differ in the
    stored figure. *)
Definition same_snapshot (s1 s2 : TableVisualiserApp) : Prop :=
  df s1 = df s2 ∧ id_vars s1 = id_vars s2 ∧ groups s1 = groups s2
  ∧ group_listbox s1 = group_listbox s2 ∧ id_markers s1 = id_markers s2
  ∧ jitter_alpha s1 = jitter_alpha s2 ∧ jitter_width s1 = jitter_width s2.

(** The locals of [make_group_plot] by name. *)
Definition build_groups (og : list string) (gtc : gmap string (list string))
  : list string :=
  filter (λ g, is_Some (gtc !! g)) og.

Definition build_sample_order (og : list string) (gtc : gmap string (list string))
  : list string :=
  compute_sample_order (build_groups og gtc) gtc.

Definition build_rows (d : DataFrame) (selected_ids : list string)
  : list (nat * string * nat) :=
  resolved_rows (compute_idx_map (df_ids d)) (enumerate selected_ids).

(** The identifier and the row offset of a resolved row, without its
    position in the selection. *)
Definition row_key (r : nat * string * nat) : string * nat := (r.1.2, r.2).

(** The scatter points of one resolved row of a build, from the seed of
    its generator. *)
Definition build_row_scatters (self : TableVisualiserApp) (d : DataFrame)
    (selected_ids og : list string) (gtc : gmap string (list string))
  : nat * string * nat → Z → list Scatter :=
  row_scatters d (build_groups og gtc) gtc
    (compute_sample_color (build_sample_order og gtc))
    (compute_id_marker (id_markers self) selected_ids)
    (arange (length (build_groups og gtc)))
    (compute_offsets (length selected_ids))
    (jitter_alpha self) (jitter_width self).

(** Whether [float(v)] raises on the number a cell is coerced to: the
    cell is an integer beyond the range of a double. *)
Definition overflows (c : cell) : bool :=
  match c with
  | CInt z => negb (is_finite (float_of_Z z))
  | _ => false
  end.

(** Whether the build converts a cell that overflows for the
    identifier [rid]: one of its row, in a column of a drawn group. *)
Definition row_overflows (d : DataFrame) (og : list string)
    (gtc : gmap string (list string)) (idx_map : gmap string nat)
    (rid : string) : bool :=
  match idx_map !! lower rid with
  | Some i => existsb (λ g, existsb overflows (df_cell d i <$> gtc !!! g)) og
  | None => false
  end.

(** The exception a build raises, if any: [AttributeError] when an
    identifier of the table is a float, else [OverflowError] when a
    cell it converts overflows. *)
Definition build_error (d : DataFrame) (na : nat → bool)
    (selected_ids og : list string) (gtc : gmap string (list string))
  : option exception :=
  if existsb na (seq 0 (length (df_ids d))) then Some AttributeError
  else if existsb (row_overflows d (build_groups og gtc) gtc
                     (compute_idx_map (df_ids d))) selected_ids
       then Some OverflowError
       else None.

(** The centres of the points of one resolved row of a build, in drawing
    order. *)
Definition build_row_centres (d : DataFrame) (selected_ids og : list string)
    (gtc : gmap string (list string)) : nat * string * nat → list float :=
  row_centres d (build_groups og gtc) gtc
    (arange (length (build_groups og gtc)))
    (compute_offsets (length selected_ids)).

(** The resolved rows of a build, each with the seed of its generator:
    the successive draws of the master generator [default_rng(2026)]. *)
Definition row_seeds (d : DataFrame) (selected_ids : list string)
  : list (string * nat * Z) :=
  zip (row_key <$> build_rows d selected_ids)
      (draws (default_rng 2026) (length (build_rows d selected_ids))).

End Closed.

(** * The rest of the window: loading, selection and groups

    The callbacks of [TableVisualiserApp] around [plot].  [Gui] adds to
    the record read by [plot] the attributes these callbacks use.  A
    callback that can raise ([KeyError], [TclError]) returns an option,
    [None] standing for the exception. *)

(** [str.strip] and [str(x)] (also behind [astype(str)]) are library
    functions, as [str.lower] is. *)
Class Text := {
  strip : string → string;
  to_str : cell → string;
}.

(** [sub in s] on strings. *)
Fixpoint contains (sub s : string) : bool :=
  String.prefix sub s
  || match s with
     | EmptyString => false
     | String _ s' => contains sub s'
     end.

(** What [pd.read_csv] returns: the column labels, the number of rows
    and the cells. *)
Record Frame := {
  columns : list string;
  nrows : nat;
  frame_cell : nat → string → cell;
}.

Record Gui := {
  (** the attributes [plot] reads; its [df] is [self.df] seen through
      [self.id_col] *)
  app : TableVisualiserApp;
  (** [self.df.columns] and [self.df.shape[0]] *)
  df_columns : list string;
  df_nrows : nat;
  id_col : option string;
  value_cols : list string;
  id_list_all : list string;
  max_ids_shown : nat;
  id_search_var : string;
  (** the texts of the check buttons in [ids_scroll.inner] *)
  ids_shown : list string;
  active_group : option string;
}.

(** ** Assignments to attributes *)

Definition set_df (a : TableVisualiserApp) (d : option DataFrame)
  : TableVisualiserApp :=
  {| df := d; id_vars := id_vars a; groups := groups a;
     group_listbox := group_listbox a; id_markers := id_markers a;
     jitter_alpha := jitter_alpha a; jitter_width := jitter_width a;
     last_fig := last_fig a |}.

Definition set_id_vars (a : TableVisualiserApp) (v : list (string * bool))
  : TableVisualiserApp :=
  {| df := df a; id_vars := v; groups := groups a;
     group_listbox := group_listbox a; id_markers := id_markers a;
     jitter_alpha := jitter_alpha a; jitter_width := jitter_width a;
     last_fig := last_fig a |}.

Definition set_groups (a : TableVisualiserApp)
    (g : gmap string (list (string * bool))) (box : list string)
  : TableVisualiserApp :=
  {| df := df a; id_vars := id_vars a; groups := g;
     group_listbox := box; id_markers := id_markers a;
     jitter_alpha := jitter_alpha a; jitter_width := jitter_width a;
     last_fig := last_fig a |}.

Definition with_app (s : Gui) (a : TableVisualiserApp) : Gui :=
  {| app := a; df_columns := df_columns s; df_nrows := df_nrows s;
     id_col := id_col s; value_cols := value_cols s;
     id_list_all := id_list_all s; max_ids_shown := max_ids_shown s;
     id_search_var := id_search_var s; ids_shown := ids_shown s;
     active_group := active_group s |}.

Definition with_search (s : Gui) (q : string) : Gui :=
  {| app := app s; df_columns := df_columns s; df_nrows := df_nrows s;
     id_col := id_col s; value_cols := value_cols s;
     id_list_all := id_list_all s; max_ids_shown := max_ids_shown s;
     id_search_var := q; ids_shown := ids_shown s;
     active_group := active_group s |}.

Definition with_shown (s : Gui) (v : list (string * bool)) (shown : list string)
  : Gui :=
  {| app := set_id_vars (app s) v; df_columns := df_columns s;
     df_nrows := df_nrows s; id_col := id_col s; value_cols := value_cols s;
     id_list_all := id_list_all s; max_ids_shown := max_ids_shown s;
     id_search_var := id_search_var s; ids_shown := shown;
     active_group := active_group s |}.

Definition with_active (s : Gui) (g : option string) : Gui :=
  {| app := app s; df_columns := df_columns s; df_nrows := df_nrows s;
     id_col := id_col s; value_cols := value_cols s;
     id_list_all := id_list_all s; max_ids_shown := max_ids_shown s;
     id_search_var := id_search_var s; ids_shown := ids_shown s;
     active_group := g |}.

Definition with_groups (s : Gui) (g : gmap string (list (string * bool)))
    (box : list string) (active : option string) : Gui :=
  with_active (with_app s (set_groups (app s) g box)) active.

(** The object after [__init__]. *)
Definition init_gui : Gui :=
  {| app := init_app; df_columns := []; df_nrows := 0; id_col := None;
     value_cols := []; id_list_all := []; max_ids_shown := 250;
     id_search_var := ""; ids_shown := []; active_group := None |}.

Section Window.
Context `{lib : Library} `{txt : Text}.

(** ** Loading *)

Definition likely_names : list string :=
  ["id"; "ids"; "name"; "names"; "symbol"; "gene"; "genes"; "gene_symbol";
   "gene symbol"; "ensembl"; "ensembl_id"; "row"; "rowid"; "row_id"].

(** [detect_id_column(columns)]; [None] is the [IndexError] of
    [columns[0]]. *)
Definition detect_id_column (columns : list string) : option string :=
  match list_find (λ c, lower (strip c) ∈ likely_names) columns with
  | Some ic => Some ic.2
  | None => columns !! 0
  end.

(** [df[c].astype(str).tolist()], each value written as a string; for
    the missing values that pandas 3 leaves as floats, see [id_column]
    and [id_list_raw]. *)
Definition column_as_str (n : nat) (cells : nat → string → cell) (c : string)
  : list string :=
  (λ i, to_str (cells i c)) <$> seq 0 n.

(** The assignments of [worker] in [load_dataset], from the frame
    [pd.read_csv] returned; [None] when it raises before them. *)
Definition load_dataset_worker (s : Gui) (t : Frame) : option Gui :=
  if decide (length (columns t) < 2) then None
  else
    match detect_id_column (columns t) with
    | None => None
    | Some id_col' =>
      let ids := column_as_str (nrows t) (frame_cell t) id_col' in
      Some {| app := set_df (app s)
                       (Some {| df_ids := ids; df_cell := frame_cell t |});
              df_columns := columns t; df_nrows := nrows t;
              id_col := Some id_col';
              value_cols := filter (λ c, c ≠ id_col') (columns t);
              id_list_all := ids; max_ids_shown := max_ids_shown s;
              id_search_var := id_search_var s; ids_shown := ids_shown s;
              active_group := active_group s |}
    end.

(** ** Row identifier check boxes *)

(** The search loop of [refresh_id_checkboxes]. *)
Fixpoint search_ids (query : string) (max : nat) (ids shown : list string)
  : list string :=
  match ids with
  | [] => shown
  | rid :: ids' =>
    if contains query (lower rid) then
      let shown' := shown ++ [rid] in
      if decide (max ≤ length shown') then shown' else search_ids query max ids' shown'
    else search_ids query max ids' shown
  end.

(** [if rid not in self.id_vars: self.id_vars[rid] = tk.BooleanVar(value=False)] *)
Definition add_id_var (vars : list (string * bool)) (rid : string)
  : list (string * bool) :=
  if decide (rid ∈ vars.*1) then vars else vars ++ [(rid, false)].

Definition refresh_id_checkboxes (s : Gui) : Gui :=
  match df (app s) with
  | None => s
  | Some _ =>
    let query := lower (strip (id_search_var s)) in
    let shown :=
      if decide (query = "") then take (max_ids_shown s) (id_list_all s)
      else search_ids query (max_ids_shown s) (id_list_all s) [] in
    with_shown s (foldl add_id_var (id_vars (app s)) shown) shown
  end.

(** The identifiers [refresh_id_checkboxes] is to show, in closed form:
    the first [max_ids_shown] identifiers, or the first matches. *)
Definition shown_for (s : Gui) : list string :=
  let query := lower (strip (id_search_var s)) in
  if decide (query = "") then take (max_ids_shown s) (id_list_all s)
  else take (max_ids_shown s `max` 1)
            (filter (λ rid, contains query (lower rid) = true) (id_list_all s)).

(** [self.id_list_all] as the code holds it when [na] marks the rows
    whose identifier is missing: pandas 3 keeps a missing value of a
    string column through [astype(str)], so the list holds the float
    nan there, for which [None] stands; an earlier pandas writes the
    string "nan", and [na] then marks no row. *)
Definition id_list_raw (s : Gui) (na : nat → bool) : list (option string) :=
  imap (λ i rid, if na i then None else Some rid) (id_list_all s).

(** The search loop of [refresh_id_checkboxes] on that list:
    [rid.lower()] raises [AttributeError] on a float. *)
Fixpoint search_ids_run (query : string) (max : nat)
    (ids shown : list (option string)) : result (list (option string)) :=
  match ids with
  | [] => Ok shown
  | None :: _ => Raised AttributeError
  | Some rid :: ids' =>
    if contains query (lower rid) then
      let shown' := shown ++ [Some rid] in
      if decide (max ≤ length shown') then Ok shown'
      else search_ids_run query max ids' shown'
    else search_ids_run query max ids' shown
  end.

(** The list [shown] of [refresh_id_checkboxes], with a dataset loaded:
    a slice of the list when the query is blank, else the search
    loop. *)
Definition shown_run (s : Gui) (na : nat → bool)
  : result (list (option string)) :=
  let query := lower (strip (id_search_var s)) in
  if decide (query = "") then Ok (take (max_ids_shown s) (id_list_raw s na))
  else search_ids_run query (max_ids_shown s) (id_list_raw s na) [].

(** Whether an entry of the list is a string that contains the query. *)
Definition matches (query : string) (rid : option string) : bool :=
  match rid with
  | Some r => contains query (lower r)
  | None => false
  end.

(** [self.id_search_var.set(q)]: the write trace calls
    [refresh_id_checkboxes]. *)
Definition set_id_search_var (s : Gui) (q : string) : Gui :=
  refresh_id_checkboxes (with_search s q).

(** [vars[key].set(b)]; [None] is the [KeyError]. *)
Definition set_var (key : string) (b : bool) (vars : list (string * bool))
  : option (list (string * bool)) :=
  if decide (key ∈ vars.*1) then
    Some ((λ kv, if decide (kv.1 = key) then (kv.1, b) else kv) <$> vars)
  else None.

(** The loop of [select_all_shown_ids] ([b = true]) and of
    [clear_all_shown_ids] ([b = false]). *)
Definition set_shown_ids (b : bool) (s : Gui) : option Gui :=
  match foldl (λ acc rid, acc ≫= set_var rid b)
              (Some (id_vars (app s))) (ids_shown s) with
  | Some vars => Some (with_app s (set_id_vars (app s) vars))
  | None => None
  end.

Definition select_all_shown_ids : Gui → option Gui := set_shown_ids true.
Definition clear_all_shown_ids : Gui → option Gui := set_shown_ids false.

(** A click on the check button of [rid], when there is one. *)
Definition tick_id (s : Gui) (rid : string) (b : bool) : option Gui :=
  if decide (rid ∈ ids_shown s) then
    match set_var rid b (id_vars (app s)) with
    | Some vars => Some (with_app s (set_id_vars (app s) vars))
    | None => None
    end
  else Some s.

(** ** Groups *)

(** [{c: tk.BooleanVar(value=False) for c in self.value_cols}] *)
Definition new_col_vars (value_cols : list string) : list (string * bool) :=
  (λ c, (c, false)) <$> nub value_cols.

Definition group_index (s : Gui) (name : string) : option nat :=
  fst <$> list_find (λ g, g = name) (group_listbox (app s)).

(** [render_active_group_columns()]: it reads [self.groups[active]] and,
    for each value column [c], [col_vars[c]]; the check buttons it makes
    are not kept here. *)
Definition render_active_group_columns (s : Gui) : option Gui :=
  match active_group s, df (app s) with
  | Some g, Some _ =>
    match groups (app s) !! g with
    | None => None
    | Some col_vars =>
      if decide (Forall (λ c, c ∈ col_vars.*1) (value_cols s)) then Some s
      else None
    end
  | _, _ => Some s
  end.

(** [on_group_select] after [selection_set(idx)]. *)
Definition select_group_by_index (s : Gui) (idx : nat) : option Gui :=
  match group_listbox (app s) !! idx with
  | Some g => render_active_group_columns (with_active s (Some g))
  | None => Some s
  end.

Definition select_group_by_name (s : Gui) (name : string) : option Gui :=
  match group_index s name with
  | Some idx => select_group_by_index s idx
  | None => Some s
  end.

Definition create_group (s : Gui) (name : string) : Gui :=
  with_app s (set_groups (app s)
                (<[name := new_col_vars (value_cols s)]> (groups (app s)))
                (group_listbox (app s) ++ [name])).

(** The loop [while f"{base} {i}" in self.groups: i += 1], run for at
    most [fuel] rounds. *)
Fixpoint free_group_name (g : gmap string (list (string * bool)))
    (fuel i : nat) : option string :=
  match fuel with
  | 0 => None
  | S fuel' =>
    let name := "Group " +:+ pretty i in
    if decide (is_Some (g !! name)) then free_group_name g fuel' (S i)
    else Some name
  end.

Definition add_group (s : Gui) : option Gui :=
  match df (app s) with
  | None => Some s
  | Some _ =>
    match free_group_name (groups (app s)) (S (size (groups (app s)))) 1 with
    | None => None
    | Some name => select_group_by_name (create_group s name) name
    end
  end.

(** [listbox.insert(idx, x)] *)
Definition listbox_insert (idx : nat) (x : string) (box : list string)
  : list string :=
  take idx box ++ x :: drop idx box.

(** [rename_group], [answer] being what [ask_text] returns. *)
Definition rename_group (s : Gui) (answer : option string) : option Gui :=
  match active_group s with
  | None => Some s
  | Some old =>
    match answer with
    | None => Some s
    | Some new0 =>
      if decide (new0 = "") then Some s
      else
        let new := strip new0 in
        if decide (new = "") then Some s
        else if decide (is_Some (groups (app s) !! new) ∧ new ≠ old) then Some s
        else
          match groups (app s) !! old with
          | None => None
          | Some col_vars =>
            match group_index s old with
            | None => None
            | Some idx =>
              render_active_group_columns
                (with_groups s
                   (<[new := col_vars]> (delete old (groups (app s))))
                   (listbox_insert idx new (delete idx (group_listbox (app s))))
                   (Some new))
            end
          end
    end
  end.

(** [remove_group], [confirm] being what [askyesno] returns. *)
Definition remove_group (s : Gui) (confirm : bool) : option Gui :=
  match active_group s with
  | None => Some s
  | Some name =>
    if confirm then
      match group_index s name with
      | None => None
      | Some idx =>
        let box := delete idx (group_listbox (app s)) in
        let s' := with_groups s (delete name (groups (app s))) box
                              (active_group s) in
        match box with
        | [] => Some (with_active s' None)
        | _ => select_group_by_index s' (idx `min` (length box - 1))
        end
      end
    else Some s
  end.

(** The loop of [select_all_cols_in_group] ([b = true]) and of
    [clear_all_cols_in_group] ([b = false]). *)
Definition set_cols_in_group (b : bool) (s : Gui) : option Gui :=
  match active_group s with
  | None => Some s
  | Some g =>
    match groups (app s) !! g with
    | None => None
    | Some col_vars =>
      Some (with_app s
              (set_groups (app s)
                 (<[g := (λ cv, (cv.1, b)) <$> col_vars]> (groups (app s)))
                 (group_listbox (app s))))
    end
  end.

Definition select_all_cols_in_group : Gui → option Gui := set_cols_in_group true.
Definition clear_all_cols_in_group : Gui → option Gui := set_cols_in_group false.

(** A click on the check button of column [c] of the active group, when
    there is one ([render_active_group_columns] makes one per value
    column). *)
Definition tick_col (s : Gui) (c : string) (b : bool) : option Gui :=
  match active_group s with
  | None => Some s
  | Some g =>
    if decide (c ∈ value_cols s) then
      match groups (app s) !! g with
      | None => None
      | Some col_vars =>
        match set_var c b col_vars with
        | None => None
        | Some col_vars' =>
          Some (with_app s
                  (set_groups (app s) (<[g := col_vars']> (groups (app s)))
                     (group_listbox (app s))))
        end
      end
    else Some s
  end.

(** ** Loading, continued, and the identifier column *)

Definition after_load_success (s : Gui) : option Gui :=
  let s := set_id_search_var s "" in
  let s := refresh_id_checkboxes s in
  let s := with_groups s ∅ [] None in
  let s := create_group s "Group 1" in
  let s := create_group s "Group 2" in
  select_group_by_index s 0.

(** [load_dataset] from the frame read, worker and completion taken
    together: the worker, then [after_load_success].  When the worker
    raises, the callback it schedules raises [NameError] in its turn
    ([e] is unbound once the [except] block is left), before
    [after_load_error] is called; no attribute changes. *)
Definition load_dataset (s : Gui) (t : Frame) : option Gui :=
  match load_dataset_worker s t with
  | Some s' => after_load_success s'
  | None => Some s
  end.

(** [on_id_column_changed], [new_id_col] being [self.idcol_var.get()];
    [None] is the [KeyError] of a label that is no column, or one of
    [render_active_group_columns]. *)
Definition on_id_column_changed (s : Gui) (new_id_col : string) : option Gui :=
  match df (app s) with
  | None => Some s
  | Some d =>
    if decide (Some new_id_col = id_col s) then Some s
    else if decide (new_id_col ∈ df_columns s) then
      let ids := column_as_str (df_nrows s) (df_cell d) new_id_col in
      let s :=
        {| app := set_df (app s) (Some {| df_ids := ids; df_cell := df_cell d |});
           df_columns := df_columns s; df_nrows := df_nrows s;
           id_col := Some new_id_col;
           value_cols := filter (λ c, c ≠ new_id_col) (df_columns s);
           id_list_all := ids; max_ids_shown := max_ids_shown s;
           id_search_var := id_search_var s; ids_shown := ids_shown s;
           active_group := active_group s |} in
      let s := set_id_search_var s "" in
      let s := refresh_id_checkboxes s in
      let s := with_app s
                 (set_groups (app s)
                    ((λ _, new_col_vars (value_cols s)) <$> groups (app s))
                    (group_listbox (app s))) in
      render_active_group_columns s
    else None
  end.

(** ** Plotting and saving from the window *)

Definition gui_plot (s : Gui) : Gui * outcome :=
  ((with_app s (plot (app s)).1), (plot (app s)).2).

(** [save_plot], [path] being what the file dialog returns: the figure
    written and where, if any. *)
Definition save_plot (s : Gui) (path : string) : option (string * Figure) :=
  match last_fig (app s) with
  | None => None
  | Some fig => if decide (path = "") then None else Some (path, fig)
  end.

(** The columns [render] of [preview_dataset] shows for the spin-box
    value [ncols]; the preview opens with a table loaded, when
    [id_col] is set. *)
Definition preview_cols (s : Gui) (ncols : Z) : list string :=
  match id_col s with
  | None => []
  | Some c =>
    c :: take (Z.to_nat (1 `max` (ncols - 1)))
              (filter (λ c', c' ≠ c) (df_columns s))
  end.

(** ** Events of the window *)

Inductive event :=
  | LoadTable (t : Frame)
  | SearchIds (q : string)
  | SelectAllShown
  | ClearShown
  | TickId (rid : string) (b : bool)
  | IdColumn (c : string)
  | AddGroup
  | Rename (answer : option string)
  | Remove (confirm : bool)
  | SelectGroup (idx : nat)
  | SelectAllCols
  | ClearAllCols
  | TickCol (c : string) (b : bool)
  | Plot.

(** The callback bound to each event; [None] when it raises [KeyError]
    or [TclError].  The exceptions of a build ([plot_run]) leave the
    state as [plot] leaves it on a warning. *)
Definition run (s : Gui) (e : event) : option Gui :=
  match e with
  | LoadTable t => load_dataset s t
  | SearchIds q => Some (set_id_search_var s q)
  | SelectAllShown => select_all_shown_ids s
  | ClearShown => clear_all_shown_ids s
  | TickId rid b => tick_id s rid b
  | IdColumn c => on_id_column_changed s c
  | AddGroup => add_group s
  | Rename answer => rename_group s answer
  | Remove confirm => remove_group s confirm
  | SelectGroup idx => select_group_by_index s idx
  | SelectAllCols => select_all_cols_in_group s
  | ClearAllCols => clear_all_cols_in_group s
  | TickCol c b => tick_col s c b
  | Plot =>
    match (plot (app s)).2 with
    | KeyError => None
    | _ => Some (gui_plot s).1
    end
  end.

(** The events the widgets can send: the identifier-column box offers
    the columns of the loaded table only. *)
Definition possible (s : Gui) (e : event) : Prop :=
  match e with
  | IdColumn c => c ∈ df_columns s
  | _ => True
  end.

(** What the callbacks keep true of the window. *)
Definition gui_wf (s : Gui) : Prop :=
  NoDup (id_vars (app s)).*1
  ∧ (∀ rid, rid ∈ ids_shown s → rid ∈ (id_vars (app s)).*1)
  ∧ NoDup (group_listbox (app s))
  ∧ (∀ g, g ∈ group_listbox (app s) ↔ is_Some (groups (app s) !! g))
  ∧ (∀ g cv, groups (app s) !! g = Some cv → cv.*1 = nub (value_cols s))
  ∧ (∀ g, active_group s = Some g → g ∈ group_listbox (app s))
  ∧ (∀ c, c ∈ value_cols s → c ∈ df_columns s ∧ Some c ≠ id_col s)
  ∧ (∀ d, df (app s) = Some d → df_ids d = id_list_all s)
  ∧ (∀ rid, rid ∈ ids_shown s → rid ∈ id_list_all s).

(** The states the window can be in: the initial one, and those an event
    leads to without raising. *)
Inductive reachable : Gui → Prop :=
  | reachable_init : reachable init_gui
  | reachable_step s e s' :
      reachable s → possible s e → run s e = Some s' → reachable s'.

End Window.

(** ** An instance of the text functions, and sample states of the window

    [strip] removes spaces at both ends; [str] of a finite float is
    written with its mantissa and binary exponent here. *)

Fixpoint lstrip (s : string) : string :=
  match s with
  | EmptyString => EmptyString
  | String c s' => if decide (c = " "%char) then lstrip s' else s
  end.

Definition string_strip (s : string) : string :=
  String.rev (lstrip (String.rev (lstrip s))).

Definition cell_to_str (x : cell) : string :=
  match x with
  | CInt z => pretty z
  | CBool true => "True"
  | CBool false => "False"
  | CStr s => s
  | CFloat NaN => "nan"
  | CFloat PInf => "inf"
  | CFloat NInf => "-inf"
  | CFloat (S754_zero s) => if s then "-0.0" else "0.0"
  | CFloat (S754_finite s m e) =>
    (if s then "-" else "") +:+ pretty (Zpos m) +:+ "*2**" +:+ pretty e
  end.

#[local] Instance sample_text : Text := {|
  strip := string_strip;
  to_str := cell_to_str;
|}.

(** The table of [sample_df] as read from a file: the sample columns
    and, second, a column " Gene " with the identifiers. *)
Definition sample_frame : Frame :=
  {| columns := ["s1"; " Gene "; "s2"; "s3"];
     nrows := 3;
     frame_cell := λ i c,
       if decide (c = " Gene ") then CStr (["A"; "b"; "a"] !!! i)
       else sample_cell i c |}.

(** The window after [sample_frame] is loaded. *)
Definition sample_loaded : Gui :=
  {| app :=
       {| df := Some {| df_ids := ["A"; "b"; "a"];
                        df_cell := frame_cell sample_frame |};
          id_vars := [("A", false); ("b", false); ("a", false)];
          groups :=
            <["Group 2" := [("s1", false); ("s2", false); ("s3", false)]]>
            (<["Group 1" := [("s1", false); ("s2", false); ("s3", false)]]> ∅);
          group_listbox := ["Group 1"; "Group 2"];
          id_markers := init_id_markers;
          jitter_alpha := decimal 80 100; jitter_width := decimal 6 100;
          last_fig := None |};
     df_columns := ["s1"; " Gene "; "s2"; "s3"];
     df_nrows := 3;
     id_col := Some " Gene ";
     value_cols := ["s1"; "s2"; "s3"];
     id_list_all := ["A"; "b"; "a"];
     max_ids_shown := 250;
     id_search_var := "";
     ids_shown := ["A"; "b"; "a"];
     active_group := Some "Group 1" |}.

(** Then, every identifier shown ticked and every column of "Group 1"
    ticked. *)
Definition sample_ticked : Gui :=
  {| app :=
       {| df := Some {| df_ids := ["A"; "b"; "a"];
                        df_cell := frame_cell sample_frame |};
          id_vars := [("A", true); ("b", true); ("a", true)];
          groups :=
            <["Group 1" := [("s1", true); ("s2", true); ("s3", true)]]>
            (<["Group 2" := [("s1", false); ("s2", false); ("s3", false)]]>
             (<["Group 1" := [("s1", false); ("s2", false); ("s3", false)]]> ∅));
          group_listbox := ["Group 1"; "Group 2"];
          id_markers := init_id_markers;
          jitter_alpha := decimal 80 100; jitter_width := decimal 6 100;
          last_fig := None |};
     df_columns := ["s1"; " Gene "; "s2"; "s3"];
     df_nrows := 3;
     id_col := Some " Gene ";
     value_cols := ["s1"; "s2"; "s3"];
     id_list_all := ["A"; "b"; "a"];
     max_ids_shown := 250;
     id_search_var := "";
     ids_shown := ["A"; "b"; "a"];
     active_group := Some "Group 1" |}.

(** The figure [plot] shows in [sample_ticked]. *)
Definition sample_fig : Figure :=
  make_group_plot (app sample_ticked)
    {| df_ids := ["A"; "b"; "a"]; df_cell := frame_cell sample_frame |}
    ["A"; "b"; "a"] ["Group 1"; "Group 2"]
    (<["Group 1" := ["s1"; "s2"; "s3"]]> ∅).

(** * Theorems *)

Section Theorems.
Context `{lib : Library}.

(** ** Doubles *)

Lemma iter_pos_invariant {A} (P : A → Prop) (f : A → A) :
  (∀ x, P x → P (f x)) → ∀ p x, P x → P (SpecFloat.iter_pos f p x).
Proof.
  intros Hf. induction p as [p IH|p IH|]; intros x Hx; simpl; auto.
Qed.

Lemma shr_1_nonneg mrs : (0 ≤ shr_m mrs)%Z → (0 ≤ shr_m (shr_1 mrs))%Z.
Proof.
  destruct mrs as [m r s]. simpl.
  destruct m as [|[p|p|]|[p|p|]]; simpl; lia.
Qed.

Lemma shr_fexp_nonneg m e l :
  (0 ≤ m)%Z → (0 ≤ shr_m (shr_fexp prec emax m e l).1)%Z.
Proof.
  intros Hm. unfold shr_fexp, shr.
  assert (0 ≤ shr_m (shr_record_of_loc m l))%Z as H0
    by (by destruct l as [|[]]).
  destruct (_ - e)%Z; simpl; [done| |done].
  by apply (iter_pos_invariant (λ mrs, (0 ≤ shr_m mrs)%Z) shr_1 shr_1_nonneg).
Qed.

Lemma round_nearest_even_nonneg m l :
  (0 ≤ m)%Z → (0 ≤ round_nearest_even m l)%Z.
Proof.
  intros Hm. destruct l as [|[]]; simpl; try lia. destruct (Z.even m); lia.
Qed.

Lemma binary_round_aux_not_nan sx mx ex lx :
  (0 ≤ mx)%Z → binary_round_aux prec emax sx mx ex lx ≠ NaN.
Proof.
  intros Hm. unfold binary_round_aux.
  pose proof (shr_fexp_nonneg mx ex lx Hm) as H1.
  destruct (shr_fexp prec emax mx ex lx) as [mrs' e'].
  pose proof (shr_fexp_nonneg
                (round_nearest_even (shr_m mrs') (loc_of_shr_record mrs')) e'
                loc_Exact (round_nearest_even_nonneg _ _ H1)) as H2.
  destruct (shr_fexp prec emax _ e' loc_Exact) as [mrs'' e''].
  simpl in H2. destruct (shr_m mrs''); [done| |lia].
  by destruct (_ <=? _)%Z.
Qed.

Lemma float_of_Z_not_nan z : isna (float_of_Z z) = false.
Proof.
  assert (float_of_Z z ≠ NaN) as H; [|by destruct (float_of_Z z)].
  unfold float_of_Z, binary_normalize.
  destruct z as [|p|p]; [done|..]; unfold binary_round;
    destruct (shl_align _ _ _) as [mz ez]; by apply binary_round_aux_not_nan.
Qed.

(** ** Conversions and their exception *)

Lemma to_numeric_coerce c :
  to_numeric c = match coerce c with NInt z => float_of_Z z | NFloat f => f end.
Proof. by destruct c. Qed.

Lemma isna_coerce c : isna_number (coerce c) = isna (to_numeric c).
Proof. destruct c as [z| |b|]; simpl; try done; by rewrite float_of_Z_not_nan. Qed.

Lemma overflows_not_nan c : overflows c = true → isna (to_numeric c) = false.
Proof. destruct c; try done. intros _. apply float_of_Z_not_nan. Qed.

Lemma float_run_coerce c :
  float_run (coerce c)
  = if overflows c then Raised OverflowError else Ok (to_numeric c).
Proof.
  destruct c as [z| |b|]; simpl; try done.
  - by destruct (is_finite (float_of_Z z)).
  - by destruct b.
Qed.

Lemma mapM_result {A B} (f : A → result B) (g : A → B) (bad : A → bool) e l :
  (∀ x, x ∈ l → f x = if bad x then Raised e else Ok (g x)) →
  mapM f l = if existsb bad l then Raised e else Ok (g <$> l).
Proof.
  induction l as [|x l IH]; intros Hf; [done|].
  simpl. rewrite (Hf x) by left.
  destruct (bad x); [done|]. simpl.
  rewrite IH by (intros; apply Hf; by right).
  by destruct (existsb bad l).
Qed.

Lemma foldl_raised {S A} (f : S → A → result S) e l :
  foldl (λ acc x, acc ≫= λ s, f s x) (Raised e) l = Raised e.
Proof. induction l as [|x l IH]; [done|]. simpl. apply IH. Qed.

Lemma foldl_result {S A} (f : S → A → result S) (g : S → A → S)
    (bad : A → bool) e l :
  (∀ s x, x ∈ l → f s x = if bad x then Raised e else Ok (g s x)) →
  ∀ s, foldl (λ acc x, acc ≫= λ s, f s x) (Ok s) l
       = if existsb bad l then Raised e else Ok (foldl g s l).
Proof.
  induction l as [|x l IH]; intros Hf s; [done|].
  simpl. rewrite (Hf s x) by left.
  destruct (bad x); simpl; [apply foldl_raised|].
  apply IH. intros. apply Hf. by right.
Qed.

Lemma existsb_filter_keep {A} (bad : A → bool) (P : A → Prop)
    `{!∀ x, Decision (P x)} (l : list A) :
  (∀ x, bad x = true → P x) → existsb bad (filter P l) = existsb bad l.
Proof.
  intros Hkeep. induction l as [|x l IH]; [done|].
  rewrite filter_cons. simpl. destruct (bad x) eqn:Hb.
  - rewrite decide_True by (by apply Hkeep). simpl. by rewrite Hb.
  - case_decide; simpl; by rewrite ?Hb, IH.
Qed.

Lemma existsb_fmap {A B} (f : A → B) (bad : B → bool) (l : list A) :
  existsb bad (f <$> l) = existsb (λ x, bad (f x)) l.
Proof.
  induction l as [|x l IH]; [done|]. rewrite fmap_cons. cbn [existsb].
  by rewrite IH.
Qed.

Lemma filter_fmap_comm {A B} (P : B → Prop) `{!∀ x, Decision (P x)}
    (f : A → B) (l : list A) :
  filter P (f <$> l) = f <$> filter (λ x, P (f x)) l.
Proof.
  induction l as [|x l IH]; [done|].
  rewrite fmap_cons, !filter_cons, IH. by case_decide.
Qed.

Lemma to_float_list_run_spec values :
  to_float_list_run values
  = if existsb overflows values then Raised OverflowError
    else Ok (to_float_list values).
Proof.
  unfold to_float_list_run, to_float_list, dropna.
  rewrite filter_fmap_comm.
  rewrite (mapM_result float_run
             (λ v, match v with NInt z => float_of_Z z | NFloat f => f end)
             (λ v, match v with
                   | NInt z => negb (is_finite (float_of_Z z))
                   | NFloat _ => false
                   end) OverflowError).
  2:{ intros [z|f] _; simpl; [|done]. by destruct (is_finite _). }
  rewrite existsb_fmap.
  assert (existsb (λ x, match coerce x with
                        | NInt z => negb (is_finite (float_of_Z z))
                        | NFloat _ => false
                        end)
            (filter (λ x, isna_number (coerce x) = false) values)
          = existsb overflows values) as ->.
  { rewrite existsb_filter_keep.
    - induction values as [|c values IH]; [done|]. simpl. rewrite IH.
      f_equal. destruct c as [| |b|]; try done. by destruct b.
    - intros c Hc. rewrite isna_coerce. destruct c as [z| |b|]; try done.
      + apply float_of_Z_not_nan.
      + apply float_of_Z_not_nan. }
  destruct (existsb overflows values); [done|]. f_equal.
  rewrite <- list_fmap_compose, filter_fmap_comm.
  rewrite (list_filter_iff (λ x, isna_number (coerce x) = false)
             (λ x, isna (to_numeric x) = false))
    by (intros c; by rewrite isna_coerce).
  apply list_fmap_ext. intros i c _. simpl. by rewrite to_numeric_coerce.
Qed.

Lemma existsb_overflows values :
  existsb overflows values = true
  ↔ ∃ z, CInt z ∈ values ∧ is_finite (float_of_Z z) = false.
Proof.
  rewrite existsb_exists. split.
  - intros (c & Hin & Hc). destruct c as [z| | |]; try done.
    exists z. split; [by apply list_elem_of_In|].
    simpl in Hc. by destruct (is_finite _).
  - intros (z & Hin & Hz). exists (CInt z). split; [by apply list_elem_of_In|].
    simpl. by rewrite Hz.
Qed.

(** ** [to_float_list] *)

Lemma elem_of_dropna f s : f ∈ dropna s ↔ f ∈ s ∧ f ≠ NaN.
Proof.
  unfold dropna. rewrite list_elem_of_filter.
  destruct f; simpl; intuition congruence.
Qed.

Lemma dropna_largest s l :
  l `sublist_of` s → Forall (λ f, f ≠ NaN) l → l `sublist_of` dropna s.
Proof.
  unfold dropna. induction 1 as [|x l1 l2 _ IH|x l1 l2 _ IH]; intros Hl.
  - constructor.
  - apply Forall_cons in Hl as [Hx Hl].
    rewrite filter_cons_True by (by destruct x).
    constructor. by apply IH.
  - rewrite filter_cons. case_decide.
    + apply sublist_cons. by apply IH.
    + by apply IH.
Qed.

(** C8 (as amended): [to_float_list] raises nothing for strings,
    missing values, floats and booleans; it raises [OverflowError], and
    nothing else, exactly when a value is an integer beyond the range
    of a double.  Otherwise it returns, in their original relative
    order, exactly the values whose coercion is not NaN, an integer
    being read as the nearest double: the largest NaN-free subsequence
    of the coerced input.  Infinite values are numbers for it and are
    kept. *)
Theorem to_float_list_keeps_non_nan (values : list cell) :
  let coerced := to_numeric <$> values in
  (to_float_list_run values = Raised OverflowError
   ↔ ∃ z, CInt z ∈ values ∧ is_finite (float_of_Z z) = false)
  ∧ (∀ e, to_float_list_run values = Raised e → e = OverflowError)
  ∧ ((∀ z, CInt z ∈ values → is_finite (float_of_Z z) = true) →
     to_float_list_run values = Ok (to_float_list values))
  ∧ (∀ l, to_float_list_run values = Ok l →
       l = to_float_list values
       ∧ l `sublist_of` coerced
       ∧ (∀ f, f ∈ l ↔ f ∈ coerced ∧ f ≠ NaN)
       ∧ (∀ l', l' `sublist_of` coerced → Forall (λ f, f ≠ NaN) l' →
                l' `sublist_of` l)
       ∧ (PInf ∈ coerced → PInf ∈ l)
       ∧ (NInf ∈ coerced → NInf ∈ l))
  ∧ (∀ z, to_numeric (CInt z) = float_of_Z z).
Proof.
  intros coerced. rewrite to_float_list_run_spec.
  pose proof (existsb_overflows values) as Hex.
  destruct (existsb overflows values) eqn:Hov.
  - split; [split; [intros _; by apply Hex|done]|].
    split; [by intros e [= <-]|].
    split.
    { intros Hall. destruct (proj1 Hex eq_refl) as (z & Hin & Hz).
      rewrite (Hall z Hin) in Hz. done. }
    split; [done|done].
  - split.
    { split; [done|]. intros H. apply Hex in H. done. }
    split; [done|]. split; [done|].
    split; [|done].
    intros l [= <-]. split; [done|].
    unfold to_float_list. fold coerced.
    split; [apply sublist_filter|].
    split; [intros f; apply elem_of_dropna|].
    split; [apply dropna_largest|].
    split; intros Hin; apply elem_of_dropna; by split.
Qed.


(** ** The row index *)

Lemma enumerate_from_cons {A} n (x : A) l :
  zip (seq n (length (x :: l))) (x :: l) = (n, x) :: zip (seq (S n) (length l)) l.
Proof. reflexivity. Qed.

Lemma idx_map_fold s l : ∀ n (m : gmap string nat),
  foldl idx_map_add m (zip (seq n (length l)) l) !! s =
  match m !! s with
  | Some i => Some i
  | None => first_index s l n
  end.
Proof.
  induction l as [|x l IH]; intros n m.
  - simpl. by destruct (m !! s).
  - rewrite enumerate_from_cons. simpl foldl. rewrite IH.
    unfold idx_map_add. simpl.
    destruct (m !! lower x) eqn:Hx.
    + destruct (m !! s) eqn:Hs; [done|].
      case_decide; [congruence|done].
    + case_decide as Hxs.
      * subst s. rewrite lookup_insert_eq, Hx. done.
      * rewrite lookup_insert_ne by done. done.
Qed.

Lemma first_index_spec s l : ∀ n i,
  first_index s l n = Some i ↔
  ∃ j, i = n + j ∧ (lower <$> l) !! j = Some s
       ∧ ∀ j', j' < j → (lower <$> l) !! j' ≠ Some s.
Proof.
  induction l as [|x l IH]; intros n i; simpl.
  - split; [done|]. by intros (j & _ & ? & _).
  - case_decide as Hx.
    + split.
      * intros [= <-]. exists 0. repeat split; [lia|by rewrite Hx|lia].
      * intros (j & -> & Hj & Hmin). destruct j as [|j]; [f_equal; lia|].
        exfalso. apply (Hmin 0); [lia|]. simpl. by rewrite Hx.
    + rewrite IH. split.
      * intros (j & -> & Hj & Hmin). exists (S j). repeat split; [lia|done|].
        intros [|j'] Hlt; simpl; [congruence|]. apply Hmin. lia.
      * intros (j & -> & Hj & Hmin). destruct j as [|j]; [simpl in Hj; congruence|].
        exists j. repeat split; [lia|done|].
        intros j' Hlt. apply (Hmin (S j')). lia.
Qed.

Lemma idx_map_lookup ids s i :
  compute_idx_map ids !! s = Some i ↔
  (lower <$> ids) !! i = Some s ∧ ∀ j, j < i → (lower <$> ids) !! j ≠ Some s.
Proof.
  unfold compute_idx_map, enumerate. rewrite idx_map_fold, lookup_empty.
  rewrite first_index_spec. split.
  - intros (j & -> & ? & ?). done.
  - intros [? ?]. by exists i.
Qed.

Lemma idx_map_lookup_None ids s :
  compute_idx_map ids !! s = None ↔ s ∉ lower <$> ids.
Proof.
  unfold compute_idx_map, enumerate. rewrite idx_map_fold, lookup_empty.
  generalize 0. induction ids as [|x l IH]; intros n; simpl.
  - split; [intros _; apply not_elem_of_nil|done].
  - case_decide as Hx.
    + split; [done|]. intros Hn. exfalso. apply Hn. subst. apply list_elem_of_here.
    + rewrite IH, not_elem_of_cons.
      split; [intros ?; split; [congruence|done]|by intros [_ ?]].
Qed.

Lemma idx_map_lookup_lt ids s i :
  compute_idx_map ids !! s = Some i → i < length ids.
Proof.
  intros [Hi _]%idx_map_lookup. apply lookup_lt_Some in Hi.
  by rewrite length_fmap in Hi.
Qed.


(** C7: the row index built from the identifier column maps a key [s] to
    offset [i] exactly when [i] is the first offset whose identifier
    lower-cases to [s] (so among several occurrences the smallest offset
    wins), it has no entry for any other key, and the drawing loop looks
    a selected identifier up by its lower-cased form: the row it draws
    is the one at that first offset, and an identifier without an entry
    draws nothing. *)
Theorem idx_map_first_occurrence (ids : list string) :
  (∀ s i, compute_idx_map ids !! s = Some i ↔
          (lower <$> ids) !! i = Some s
          ∧ ∀ j, j < i → (lower <$> ids) !! j ≠ Some s)
  ∧ (∀ s, compute_idx_map ids !! s = None ↔ s ∉ lower <$> ids)
  ∧ (∀ d K og gtc sample_color id_marker group_x offsets ja jw st k rid,
       let st' := draw_id d K og gtc sample_color id_marker
                          (compute_idx_map ids) group_x offsets ja jw st (k, rid) in
       match compute_idx_map ids !! lower rid with
       | None => st' = st
       | Some i =>
         ∃ bp, ax_boxplots st' = ax_boxplots st ++ [bp]
               ∧ bp_rid bp = rid
               ∧ bp_data bp =
                 (λ g, to_float_list (df_cell d i <$> gtc !!! g)) <$> og
       end).
Proof.
  split; [apply idx_map_lookup|].
  split; [apply idx_map_lookup_None|].
  intros d K og gtc sample_color id_marker group_x offsets ja jw st k rid st'.
  subst st'. unfold draw_id. simpl.
  destruct (compute_idx_map ids !! lower rid) as [i|]; [|done].
  eexists. simpl. split; [reflexivity|]. done.
Qed.


(** ** Dictionary comprehensions over [enumerate] *)

Lemma assign_fold_notin {V} (f : nat → V) l c : ∀ n (m : gmap string V),
  c ∉ l →
  foldl (λ m ic, <[ic.2 := f ic.1]> m) m (zip (seq n (length l)) l) !! c = m !! c.
Proof.
  induction l as [|x l IH]; intros n m Hc; [done|].
  apply not_elem_of_cons in Hc as [Hx Hc].
  rewrite enumerate_from_cons. simpl. rewrite IH by done.
  by rewrite lookup_insert_ne.
Qed.

Lemma assign_fold_lookup {V} (f : nat → V) l c : ∀ n (m : gmap string V) i,
  NoDup l → l !! i = Some c →
  foldl (λ m ic, <[ic.2 := f ic.1]> m) m (zip (seq n (length l)) l) !! c
  = Some (f (n + i)).
Proof.
  induction l as [|x l IH]; intros n m i Hnd Hi; [done|].
  apply NoDup_cons in Hnd as [Hx Hnd].
  rewrite enumerate_from_cons. simpl. destruct i as [|i]; simpl in Hi.
  - injection Hi as ->. rewrite assign_fold_notin by done.
    rewrite lookup_insert_eq. do 2 f_equal. lia.
  - rewrite (IH _ _ i) by done. do 2 f_equal. lia.
Qed.

(** ** First-occurrence order *)

Lemma elem_of_nub x l : x ∈ nub l ↔ x ∈ l.
Proof.
  induction l as [|y l IH]; simpl; [done|].
  rewrite !elem_of_cons, list_elem_of_filter, IH.
  destruct (decide (x = y)); intuition.
Qed.

Lemma NoDup_nub l : NoDup (nub l).
Proof.
  induction l as [|y l IH]; simpl; [constructor|].
  apply NoDup_cons. split.
  - rewrite list_elem_of_filter. intros [? _]. done.
  - by apply NoDup_filter.
Qed.

Lemma filter_filter_comm {A} (P Q : A → Prop)
    `{!∀ x, Decision (P x)} `{!∀ x, Decision (Q x)} (l : list A) :
  filter P (filter Q l) = filter Q (filter P l).
Proof.
  induction l as [|x l IH]; [done|].
  rewrite !filter_cons.
  destruct (decide (P x)), (decide (Q x));
    rewrite ?filter_cons_True, ?filter_cons_False by done; by rewrite IH.
Qed.

Lemma filter_all {A} (P : A → Prop) `{!∀ x, Decision (P x)} (l : list A) :
  Forall P l → filter P l = l.
Proof.
  induction 1 as [|x l Hx _ IH]; [done|].
  by rewrite filter_cons_True, IH.
Qed.

Lemma nub_filter (P : string → Prop) `{!∀ x, Decision (P x)} l :
  nub (filter P l) = filter P (nub l).
Proof.
  induction l as [|x l IH]; [done|].
  simpl nub at 2. rewrite !filter_cons. destruct (decide (P x)) as [Hx|Hx].
  - simpl. rewrite IH. f_equal. apply filter_filter_comm.
  - rewrite IH, filter_filter_comm. symmetry. apply filter_all.
    apply Forall_forall. intros y [Hy _]%list_elem_of_filter. congruence.
Qed.

Lemma sample_order_fold l : ∀ seen order,
  (∀ x, x ∈ seen ↔ x ∈ order) →
  let r := foldl sample_order_add (seen, order) l in
  r.2 = order ++ nub (filter (λ y, y ∉ order) l) ∧ (∀ x, x ∈ r.1 ↔ x ∈ r.2).
Proof.
  induction l as [|c l IH]; intros seen order Hseen; simpl.
  - by rewrite app_nil_r.
  - destruct (decide (c ∈ seen)) as [Hc|Hc].
    + replace (sample_order_add (seen, order) c) with (seen, order)
        by (unfold sample_order_add; simpl; by rewrite decide_True).
      destruct (IH seen order Hseen) as [Heq Hr]. split; [|done]. rewrite Heq.
      rewrite filter_cons_False by (intros Hn; apply Hn; by apply Hseen). done.
    + replace (sample_order_add (seen, order) c) with ({[c]} ∪ seen, order ++ [c])
        by (unfold sample_order_add; simpl; by rewrite decide_False).
      assert (∀ x, x ∈ ({[c]} ∪ seen : gset string) ↔ x ∈ order ++ [c]) as Hseen'.
      { intros x. rewrite elem_of_union, elem_of_singleton, elem_of_app,
          list_elem_of_singleton, Hseen. tauto. }
      destruct (IH _ _ Hseen') as [Heq Hr]. split; [|done]. rewrite Heq.
      rewrite filter_cons_True by (by rewrite <- Hseen).
      simpl. rewrite <- app_assoc. simpl. do 2 f_equal.
      rewrite <- nub_filter. f_equal.
      rewrite list_filter_filter. apply list_filter_iff.
      intros x. rewrite elem_of_app, list_elem_of_singleton. tauto.
Qed.

Lemma foldl_concat {A B} (f : A → B → A) (ls : list (list B)) : ∀ a,
  foldl (λ a l, foldl f a l) a ls = foldl f a (concat ls).
Proof.
  induction ls as [|l ls IH]; intros a; simpl; [done|].
  by rewrite foldl_app, IH.
Qed.

Lemma elem_of_concat {A} (x : A) (ls : list (list A)) :
  x ∈ concat ls ↔ ∃ l, l ∈ ls ∧ x ∈ l.
Proof.
  rewrite list_elem_of_In, in_concat.
  by setoid_rewrite list_elem_of_In.
Qed.

Lemma sample_order_nub og (gtc : gmap string (list string)) :
  compute_sample_order og gtc = nub (concat ((λ g, gtc !!! g) <$> og)).
Proof.
  unfold compute_sample_order.
  pose proof (foldl_concat sample_order_add ((λ g, gtc !!! g) <$> og) (∅, [])) as Hc.
  rewrite foldl_fmap in Hc. rewrite Hc.
  destruct (sample_order_fold (concat ((λ g, gtc !!! g) <$> og)) ∅ []) as [-> _].
  { intros x. rewrite elem_of_nil. set_solver. }
  simpl. f_equal. apply filter_all, Forall_forall. intros x _. apply not_elem_of_nil.
Qed.


(** ** Colours *)

Lemma tab20_length : length tab20 = 20.
Proof. reflexivity. Qed.

Lemma tab20_NoDup : NoDup tab20.
Proof. apply (bool_decide_unpack _). vm_compute. exact I. Qed.

Lemma init_id_markers_NoDup : NoDup init_id_markers.
Proof. apply (bool_decide_unpack _). vm_compute. exact I. Qed.

Lemma sample_color_lookup order i c :
  NoDup order → order !! i = Some c →
  compute_sample_color order !! c = Some (cmap (i mod 20)).
Proof.
  intros Hnd Hi. unfold compute_sample_color, enumerate.
  by rewrite (assign_fold_lookup (λ i, cmap (i mod 20)) order c 0 ∅ i).
Qed.

Lemma sample_color_notin order c :
  c ∉ order → compute_sample_color order !! c = None.
Proof.
  intros Hc. unfold compute_sample_color, enumerate.
  by rewrite (assign_fold_notin (λ i, cmap (i mod 20)) order c 0 ∅).
Qed.

(** C4: the sample columns are ordered by first occurrence over the
    groups, then over the columns of each group, without repetition; the
    column at position [i] of that order gets entry [i mod 20] of the
    20-entry palette [tab20]; columns outside the order get no colour;
    and with at most 20 distinct columns no two columns share a
    colour. *)
Theorem sample_color_cycles_palette (og : list string)
    (gtc : gmap string (list string)) :
  let order := compute_sample_order og gtc in
  let sample_color := compute_sample_color order in
  order = nub (concat ((λ g, gtc !!! g) <$> og))
  ∧ NoDup order
  ∧ (∀ c, c ∈ order ↔ ∃ g, g ∈ og ∧ c ∈ (gtc !!! g : list string))
  ∧ (∀ i c, order !! i = Some c →
            sample_color !! c = Some (tab20 !!! (i mod length tab20)))
  ∧ (∀ c, c ∉ order → sample_color !! c = None)
  ∧ 20 ≤ length tab20
  ∧ (length order ≤ 20 →
     ∀ c1 c2 x, sample_color !! c1 = Some x → sample_color !! c2 = Some x →
                c1 = c2).
Proof.
  intros order sample_color.
  assert (order = nub (concat ((λ g, gtc !!! g) <$> og))) as Horder
    by apply sample_order_nub.
  assert (NoDup order) as Hnd by (rewrite Horder; apply NoDup_nub).
  split; [done|]. split; [done|].
  split.
  { intros c. rewrite Horder, elem_of_nub, elem_of_concat. split.
    - intros (l & (g & -> & Hg)%list_elem_of_fmap & Hc). eauto.
    - intros (g & Hg & Hc). eexists. split; [|done].
      apply list_elem_of_fmap. eauto. }
  split; [intros i c Hi; by apply sample_color_lookup|].
  split; [apply sample_color_notin|].
  split; [by rewrite tab20_length|].
  intros Hlen c1 c2 x H1 H2.
  assert (∀ c, sample_color !! c = Some x →
               ∃ i, order !! i = Some c ∧ tab20 !! i = Some x) as Hidx.
  { intros c Hc. destruct (decide (c ∈ order)) as [Hin|Hout].
    - apply list_elem_of_lookup in Hin as [i Hi]. exists i. split; [done|].
      pose proof (lookup_lt_Some _ _ _ Hi) as Hlt.
      unfold sample_color in Hc.
      rewrite (sample_color_lookup order i c) in Hc by done.
      assert (x = cmap (i mod 20)) as -> by congruence.
      rewrite Nat.mod_small by lia.
      unfold cmap. apply list_lookup_lookup_total_lt. rewrite tab20_length. lia.
    - unfold sample_color in Hc. by rewrite sample_color_notin in Hc. }
  destruct (Hidx c1 H1) as (i1 & Hc1 & Hx1).
  destruct (Hidx c2 H2) as (i2 & Hc2 & Hx2).
  assert (i1 = i2) by (eapply (NoDup_lookup tab20); [apply tab20_NoDup|done..]).
  congruence.
Qed.


(** ** Markers *)

Lemma id_marker_lookup markers sel i rid :
  NoDup sel → sel !! i = Some rid →
  compute_id_marker markers sel !! rid = Some (markers !!! (i mod length markers)).
Proof.
  intros Hnd Hi. unfold compute_id_marker, enumerate.
  by rewrite (assign_fold_lookup (λ i, markers !!! (i mod length markers))
                sel rid 0 ∅ i).
Qed.

Lemma get_selected_ids_NoDup self :
  NoDup (id_vars self).*1 → NoDup (get_selected_ids self).
Proof.
  unfold get_selected_ids. generalize (id_vars self).
  induction l as [|[rid v] l IH]; simpl; [constructor|].
  intros [Hrid Hnd]%NoDup_cons. rewrite filter_cons. simpl.
  case_decide; [|by apply IH]. simpl. apply NoDup_cons. split; [|by apply IH].
  intros Hin. apply Hrid. apply list_elem_of_fmap in Hin as (x & -> & Hx).
  apply list_elem_of_filter in Hx as [_ Hx]. apply list_elem_of_fmap. eauto.
Qed.

(** C5: for a selection without repetition (the keys of the dictionary
    [id_vars]), the identifier at 0-based position [i] gets the marker
    [markers[i mod len(markers)]]; the palette of the program has 14
    pairwise different shapes, so at least 12; and with a palette of 12
    entries and 15 selected rows the row at index 12 gets the marker of
    the row at index 0. *)
Theorem id_marker_cycles_palette (markers selected_ids : list string) :
  NoDup selected_ids →
  let id_marker := compute_id_marker markers selected_ids in
  (∀ i rid, selected_ids !! i = Some rid →
            id_marker !! rid = Some (markers !!! (i mod length markers)))
  ∧ (12 ≤ length init_id_markers ∧ NoDup init_id_markers)
  ∧ (length markers = 12 → length selected_ids = 15 →
     ∀ r0 r12, selected_ids !! 0 = Some r0 → selected_ids !! 12 = Some r12 →
               (id_marker !!! r12 : string) = id_marker !!! r0).
Proof.
  intros Hnd id_marker.
  split; [intros i rid Hi; by apply id_marker_lookup|].
  split; [split; [simpl; lia|apply init_id_markers_NoDup]|].
  intros Hm _ r0 r12 H0 H12.
  rewrite !lookup_total_alt. unfold id_marker.
  rewrite (id_marker_lookup markers selected_ids 0 r0),
          (id_marker_lookup markers selected_ids 12 r12) by done.
  by rewrite Hm.
Qed.


(** ** The drawing loop in closed form *)

Lemma foldl_append_only {S A B} (f : S * list A → B → S * list A) :
  (∀ s acc b, f (s, acc) b = ((f (s, []) b).1, acc ++ (f (s, []) b).2)) →
  ∀ l s acc,
    foldl f (s, acc) l = ((foldl f (s, []) l).1, acc ++ (foldl f (s, []) l).2).
Proof.
  intros Hf. induction l as [|b l IH]; intros s acc; simpl.
  - by rewrite app_nil_r.
  - rewrite Hf. destruct (f (s, []) b) as [s' p] eqn:Hb. simpl.
    rewrite IH. rewrite (IH s' p). simpl. by rewrite app_assoc.
Qed.

Lemma foldl_append_only_proj {S A B C} (f : S * list A → B → S * list A)
    (π : A → C) (h : B → list C) (l : list B) :
  (∀ s acc b, f (s, acc) b = ((f (s, []) b).1, acc ++ (f (s, []) b).2)) →
  (∀ s b, b ∈ l → π <$> (f (s, []) b).2 = h b) →
  ∀ s, π <$> (foldl f (s, []) l).2 = concat (h <$> l).
Proof.
  intros Hf. induction l as [|b l IH]; intros Hh s; simpl; [done|].
  destruct (f (s, []) b) as [s' p] eqn:Hb.
  rewrite (foldl_append_only f Hf). simpl. rewrite fmap_app.
  rewrite IH by (intros; apply Hh; by apply list_elem_of_further).
  f_equal. rewrite <- (Hh s b) by apply list_elem_of_here. by rewrite Hb.
Qed.

Lemma foldl_append_only_Forall {S A B} (f : S * list A → B → S * list A)
    (P : A → Prop) (l : list B) :
  (∀ s acc b, f (s, acc) b = ((f (s, []) b).1, acc ++ (f (s, []) b).2)) →
  (∀ s b, b ∈ l → Forall P (f (s, []) b).2) →
  ∀ s, Forall P (foldl f (s, []) l).2.
Proof.
  intros Hf. induction l as [|b l IH]; intros Hh s; simpl; [constructor|].
  destruct (f (s, []) b) as [s' p] eqn:Hb.
  rewrite (foldl_append_only f Hf). simpl. apply Forall_app. split.
  - specialize (Hh s b). rewrite Hb in Hh. apply Hh, list_elem_of_here.
  - apply IH. intros; apply Hh; by apply list_elem_of_further.
Qed.

Lemma elem_of_enumerate {A} (l : list A) i x :
  (i, x) ∈ enumerate l ↔ l !! i = Some x.
Proof.
  unfold enumerate. rewrite list_elem_of_lookup. split.
  - intros (j & Hj). apply lookup_zip_with_Some in Hj as (i' & x' & [= <- <-] & Hi & Hx).
    apply lookup_seq in Hi as [-> _]. done.
  - intros Hx. exists i. apply lookup_zip_with_Some. exists i, x.
    split; [done|]. split; [|done]. apply lookup_seq. split; [done|].
    by apply lookup_lt_Some in Hx.
Qed.

Lemma snd_enumerate_from {A} (l : list A) n : (zip (seq n (length l)) l).*2 = l.
Proof. apply snd_zip. by rewrite length_seq. Qed.

Section LoopFacts.
Variables (d : DataFrame) (K : nat).
Variables (og : list string) (gtc : gmap string (list string)).
Variables (sample_color : gmap string color) (id_marker : gmap string string).
Variables (idx_map : gmap string nat) (group_x offsets : list float).
Variables (ja jw : float).

Abbreviation step :=
  (draw_id d K og gtc sample_color id_marker idx_map group_x offsets ja jw).
Abbreviation rows := (resolved_rows idx_map).
Abbreviation box := (row_boxplot d K og gtc group_x offsets).
Abbreviation handle := (row_handle id_marker).
Abbreviation points :=
  (row_scatters d og gtc sample_color id_marker group_x offsets ja jw).
Abbreviation jcol := (jitter_col sample_color id_marker ja jw).
Abbreviation jgroup := (jitter_group sample_color id_marker ja jw).

Lemma jitter_col_append rid g row x0 s acc c :
  jcol rid g row x0 (s, acc) c =
  ((jcol rid g row x0 (s, []) c).1, acc ++ (jcol rid g row x0 (s, []) c).2).
Proof.
  unfold jitter_col. simpl. destruct (isna _); simpl; [|done].
  by rewrite app_nil_r.
Qed.

Lemma jitter_group_append rid row pgc pos s acc gig :
  jgroup rid row pgc pos (s, acc) gig =
  ((jgroup rid row pgc pos (s, []) gig).1,
   acc ++ (jgroup rid row pgc pos (s, []) gig).2).
Proof.
  unfold jitter_group. apply foldl_append_only. intros. apply jitter_col_append.
Qed.

Lemma draw_id_unresolved st kr :
  idx_map !! lower kr.2 = None → step st kr = st.
Proof. intros H. unfold draw_id. by rewrite H. Qed.

Lemma draw_id_resolved st kr i :
  idx_map !! lower kr.2 = Some i →
  let sm := integers (rng_master st) 0 10000000 in
  step st kr =
  {| rng_master := sm.2;
     ax_boxplots := ax_boxplots st ++ [box (kr, i)];
     ax_scatters := ax_scatters st ++ points (kr, i) sm.1;
     id_handles := id_handles st ++ [handle (kr, i)] |}.
Proof.
  intros H sm. unfold draw_id. rewrite H. f_equal.
  rewrite (foldl_append_only _ (jitter_group_append _ _ _ _)). done.
Qed.

Lemma loop_closed l : ∀ st,
  let rs := rows l in
  let st' := foldl step st l in
  ax_boxplots st' = ax_boxplots st ++ (box <$> rs)
  ∧ id_handles st' = id_handles st ++ (handle <$> rs)
  ∧ ax_scatters st' =
      ax_scatters st ++
      concat (zip_with points rs (draws (rng_master st) (length rs))).
Proof.
  induction l as [|kr l IH]; intros st; simpl.
  - by rewrite !app_nil_r.
  - unfold resolved_rows. simpl.
    destruct (idx_map !! lower kr.2) as [i|] eqn:Hkr; simpl.
    + rewrite (draw_id_resolved st kr i Hkr).
      destruct (IH {| rng_master := (integers (rng_master st) 0 10000000).2;
                      ax_boxplots := ax_boxplots st ++ [box (kr, i)];
                      ax_scatters := ax_scatters st ++ points (kr, i)
                                       (integers (rng_master st) 0 10000000).1;
                      id_handles := id_handles st ++ [handle (kr, i)] |})
        as (Hb & Hh & Hs).
      simpl in Hb, Hh, Hs. rewrite Hb, Hh, Hs, <- !app_assoc. done.
    + rewrite (draw_id_unresolved st kr Hkr). apply IH.
Qed.
End LoopFacts.


(** ** Layout *)

Lemma arange_length n : length (arange n) = n.
Proof. unfold arange. by rewrite length_fmap, length_seq. Qed.

Lemma arange_lookup n i :
  i < n → arange n !! i = Some (float_of_nat i).
Proof.
  intros Hi. unfold arange. rewrite list_lookup_fmap.
  by rewrite (proj2 (lookup_seq 0 n i i) (conj eq_refl Hi)).
Qed.

Lemma linspace_length start stop num : length (linspace start stop num) = num.
Proof.
  unfold linspace.
  assert (∀ f : float → float, length (f <$> arange num) = num) as Hlen
    by (intros f; by rewrite length_fmap, arange_length).
  repeat case_decide; try destruct (is_zero _);
    rewrite ?length_insert, length_fmap; apply Hlen.
Qed.

Lemma compute_offsets_length K : 1 ≤ K → length (compute_offsets K) = K.
Proof.
  intros HK. unfold compute_offsets.
  case_decide; [apply linspace_length|simpl; lia].
Qed.

Lemma compute_offsets_last K :
  1 < K → compute_offsets K !! (K - 1) = Some (decimal 25 100).
Proof.
  intros HK. unfold compute_offsets. rewrite decide_True by done.
  pose proof (linspace_length (decimal (-25) 100) (decimal 25 100) K) as Hlen.
  unfold linspace in *. rewrite decide_True in * by done.
  apply list_lookup_insert_eq. rewrite length_insert in Hlen. lia.
Qed.

Lemma compute_offsets_lookup K i :
  1 < K → ordinary_step K = true → i < K - 1 →
  compute_offsets K !! i
  = Some (fadd (fmul (float_of_nat i) (offsets_step K)) (decimal (-25) 100)).
Proof.
  intros HK Hstep Hi. unfold compute_offsets, linspace.
  rewrite !decide_True by lia.
  rewrite list_lookup_insert_ne by lia.
  unfold ordinary_step in Hstep. fold (offsets_step K).
  destruct (offsets_step K) eqn:Hs; try done. simpl.
  rewrite !list_lookup_fmap, arange_lookup by lia. done.
Qed.

Lemma compute_offsets_first K :
  1 < K → ordinary_step K = true →
  compute_offsets K !! 0 = Some (decimal (-25) 100).
Proof.
  intros HK Hstep. rewrite compute_offsets_lookup by (done || lia).
  unfold ordinary_step in Hstep.
  by destruct (offsets_step K) as [| | |s m e].
Qed.

Lemma ordinary_step_checked K : 1 < K → K ≤ 4096 → ordinary_step K = true.
Proof.
  intros H1 H2.
  assert (forallb ordinary_step (seq 2 4095) = true) as Hall
    by (vm_compute; reflexivity).
  rewrite forallb_forall in Hall. apply Hall. apply in_seq. lia.
Qed.


(** ** [make_group_plot] in closed form *)

Lemma make_group_plot_closed self d sel og gtc :
  let fig := make_group_plot self d sel og gtc in
  let groups' := build_groups og gtc in
  let rs := build_rows d sel in
  xticklabels fig = groups'
  ∧ xticks fig = arange (length groups')
  ∧ leg_samples fig =
      (λ c, {| l2d_marker := "o";
               l2d_color := compute_sample_color (build_sample_order og gtc) !!! c;
               l2d_label := c |}) <$> build_sample_order og gtc
  ∧ boxplots fig =
      row_boxplot d (length sel) groups' gtc (arange (length groups'))
                  (compute_offsets (length sel)) <$> rs
  ∧ leg_shapes fig = row_handle (compute_id_marker (id_markers self) sel) <$> rs
  ∧ scatters fig =
      concat (zip_with (build_row_scatters self d sel og gtc) rs
                       (draws (default_rng 2026) (length rs))).
Proof.
  intros fig groups' rs. subst fig. unfold make_group_plot. simpl.
  fold (build_groups og gtc). fold groups'.
  split; [done|]. split; [done|]. split; [done|].
  match goal with |- context [foldl ?f ?st ?l] =>
    destruct (loop_closed d (length sel) groups' gtc
                (compute_sample_color (compute_sample_order groups' gtc))
                (compute_id_marker (id_markers self) sel)
                (compute_idx_map (df_ids d))
                (arange (length groups')) (compute_offsets (length sel))
                (jitter_alpha self) (jitter_width self) l st) as (Hb & Hh & Hs)
  end.
  simpl in Hb, Hh, Hs. rewrite Hb, Hh, Hs. done.
Qed.

Lemma resolved_rows_keys (idx_map : gmap string nat) l : ∀ k,
  row_key <$> resolved_rows idx_map (zip (seq k (length l)) l)
  = omap (λ rid, (λ i, (rid, i)) <$> idx_map !! lower rid) l.
Proof.
  induction l as [|rid l IH]; intros k; [done|].
  rewrite enumerate_from_cons. unfold resolved_rows in *. simpl.
  destruct (idx_map !! lower rid); simpl; by rewrite IH.
Qed.

Lemma build_rows_keys d sel :
  row_key <$> build_rows d sel
  = omap (λ rid, (λ i, (rid, i)) <$> compute_idx_map (df_ids d) !! lower rid) sel.
Proof. apply resolved_rows_keys. Qed.

Lemma build_rows_insert_unresolved d pre a post :
  compute_idx_map (df_ids d) !! lower a = None →
  row_key <$> build_rows d (pre ++ a :: post) = row_key <$> build_rows d (pre ++ post).
Proof.
  intros Ha. rewrite !build_rows_keys, !omap_app. simpl. by rewrite Ha.
Qed.

Lemma build_rows_elem d sel r :
  r ∈ build_rows d sel →
  sel !! r.1.1 = Some r.1.2
  ∧ compute_idx_map (df_ids d) !! lower r.1.2 = Some r.2.
Proof.
  unfold build_rows, resolved_rows. rewrite list_elem_of_omap.
  intros ([k rid] & Hk & Hr). simpl in Hr.
  apply elem_of_enumerate in Hk.
  destruct (compute_idx_map (df_ids d) !! lower rid) as [i|] eqn:Hi; [|done].
  simpl in Hr. injection Hr as <-. done.
Qed.


(** ** The build with its exceptions *)

Section DrawingRun.
Variables (d : DataFrame) (K : nat).
Variables (og : list string) (gtc : gmap string (list string)).
Variables (sample_color : gmap string color) (id_marker : gmap string string).
Variables (idx_map : gmap string nat) (group_x offsets : list float).
Variables (ja jw : float).

Lemma jitter_col_run_spec rid g row x0 st c :
  jitter_col_run sample_color id_marker ja jw rid g row x0 st c
  = if overflows (row c) then Raised OverflowError
    else Ok (jitter_col sample_color id_marker ja jw rid g row x0 st c).
Proof.
  unfold jitter_col_run, jitter_col. rewrite isna_coerce.
  destruct (overflows (row c)) eqn:Ho.
  - rewrite (overflows_not_nan _ Ho). rewrite float_run_coerce, Ho. done.
  - destruct (isna (to_numeric (row c))); [done|].
    rewrite float_run_coerce, Ho. done.
Qed.

Lemma jitter_group_run_spec rid row pgc pos st gig :
  jitter_group_run sample_color id_marker ja jw rid row pgc pos st gig
  = if existsb (λ c, overflows (row c)) (pgc !!! gig.1)
    then Raised OverflowError
    else Ok (jitter_group sample_color id_marker ja jw rid row pgc pos st gig).
Proof.
  unfold jitter_group_run, jitter_group.
  apply foldl_result. intros s c _. apply jitter_col_run_spec.
Qed.

Lemma draw_id_run_spec st kr :
  draw_id_run d K og gtc sample_color id_marker idx_map group_x offsets ja jw st kr
  = if row_overflows d og gtc idx_map kr.2 then Raised OverflowError
    else Ok (draw_id d K og gtc sample_color id_marker idx_map group_x offsets
                     ja jw st kr).
Proof.
  unfold draw_id_run, draw_id, row_overflows.
  destruct (idx_map !! lower kr.2) as [i|]; [|done].
  rewrite (mapM_result _ (λ g, to_float_list (df_cell d i <$> gtc !!! g))
             (λ g, existsb overflows (df_cell d i <$> gtc !!! g)) OverflowError).
  2:{ intros g _. apply to_float_list_run_spec. }
  destruct (existsb _ og) eqn:Hbad; [done|]. simpl.
  rewrite (foldl_result _
             (jitter_group sample_color id_marker ja jw kr.2 (df_cell d i)
                ((λ g, gtc !!! g) <$> og)
                ((λ x, fadd x (offsets !!! kr.1)) <$> group_x))
             (λ gig : nat * string,
                existsb (λ c, overflows (df_cell d i c))
                        (((λ g, gtc !!! g) <$> og) !!! gig.1))
             OverflowError).
  2:{ intros s gig _. apply jitter_group_run_spec. }
  assert (existsb (λ gig : nat * string,
                     existsb (λ c, overflows (df_cell d i c))
                             (((λ g, gtc !!! g) <$> og) !!! gig.1))
                  (enumerate og) = false) as ->; [|done].
  apply not_true_is_false. intros Hex.
  apply existsb_exists in Hex as ([gi g] & Hin & Hex).
  apply list_elem_of_In, elem_of_enumerate in Hin. simpl in Hin, Hex.
  assert (((λ g0, gtc !!! g0) <$> og) !!! gi = (gtc !!! g : list string)) as Heq.
  { apply list_lookup_total_correct. by rewrite list_lookup_fmap, Hin. }
  rewrite Heq in Hex.
  assert (existsb (λ g, existsb overflows (df_cell d i <$> gtc !!! g)) og = true);
    [|congruence].
  apply existsb_exists. exists g. split.
  - apply list_elem_of_In. by eapply list_elem_of_lookup_2.
  - by rewrite existsb_fmap.
Qed.
End DrawingRun.

Lemma compute_idx_map_run_spec d na :
  compute_idx_map_run (id_column d na)
  = if existsb na (seq 0 (length (df_ids d))) then Raised AttributeError
    else Ok (compute_idx_map (df_ids d)).
Proof.
  unfold compute_idx_map_run, compute_idx_map, id_column, enumerate.
  rewrite length_imap.
  assert (∀ (l : list string) k m,
            foldl (λ acc ir, acc ≫= λ idx_map, idx_map_add_run idx_map ir) (Ok m)
                  (zip (seq k (length l))
                       (imap (λ i rid, if na (k + i) then None else Some rid) l))
            = if existsb na (seq k (length l)) then Raised AttributeError
              else Ok (foldl idx_map_add m (zip (seq k (length l)) l))) as Hgen.
  { induction l as [|rid l IH]; intros k m; [done|].
    cbn [length seq imap zip zip_with foldl existsb].
    rewrite Nat.add_0_r. unfold idx_map_add_run at 2. simpl.
    destruct (na k); simpl; [apply foldl_raised|].
    rewrite <- (IH (S k)). f_equal. f_equal.
    apply imap_ext. intros i x _. simpl. by rewrite Nat.add_succ_r. }
  apply (Hgen (df_ids d) 0 ∅).
Qed.

Lemma make_group_plot_run_spec self d na sel og gtc :
  make_group_plot_run self d na sel og gtc
  = match build_error d na sel og gtc with
    | Some e => Raised e
    | None => Ok (make_group_plot self d sel og gtc)
    end.
Proof.
  unfold make_group_plot_run, build_error.
  rewrite compute_idx_map_run_spec.
  destruct (existsb na _); [done|]. simpl.
  fold (build_groups og gtc).
  rewrite (foldl_result _
             (draw_id d (length sel) (build_groups og gtc) gtc
                (compute_sample_color
                   (compute_sample_order (build_groups og gtc) gtc))
                (compute_id_marker (id_markers self) sel)
                (compute_idx_map (df_ids d))
                (arange (length (build_groups og gtc)))
                (compute_offsets (length sel))
                (jitter_alpha self) (jitter_width self))
             (λ kr : nat * string,
                row_overflows d (build_groups og gtc) gtc
                              (compute_idx_map (df_ids d)) kr.2)
             OverflowError).
  2:{ intros s kr _. apply draw_id_run_spec. }
  rewrite <- (existsb_fmap snd
                (row_overflows d (build_groups og gtc) gtc
                   (compute_idx_map (df_ids d))) (enumerate sel)).
  unfold enumerate at 1. rewrite snd_enumerate_from.
  destruct (existsb _ sel); done.
Qed.


Lemma build_error_attribute d na sel og gtc :
  build_error d na sel og gtc = Some AttributeError
  ↔ ∃ i, i < length (df_ids d) ∧ na i = true.
Proof.
  unfold build_error.
  destruct (existsb na (seq 0 (length (df_ids d)))) eqn:Hna.
  - split; [intros _|done].
    apply existsb_exists in Hna as (i & Hin & Hi).
    apply in_seq in Hin. exists i. split; [lia|done].
  - split; [by destruct (existsb _ sel)|].
    intros (i & Hi & Hnai).
    assert (existsb na (seq 0 (length (df_ids d))) = true); [|congruence].
    apply existsb_exists. exists i. split; [apply in_seq; lia|done].
Qed.

Lemma row_overflows_spec d og gtc (idx_map : gmap string nat) rid :
  row_overflows d og gtc idx_map rid = true
  ↔ ∃ i g c z, idx_map !! lower rid = Some i ∧ g ∈ og
      ∧ c ∈ (gtc !!! g : list string)
      ∧ df_cell d i c = CInt z ∧ is_finite (float_of_Z z) = false.
Proof.
  unfold row_overflows. destruct (idx_map !! lower rid) as [i|].
  - rewrite existsb_exists. split.
    + intros (g & Hg & Hex). apply existsb_overflows in Hex as (z & Hz & Hfin).
      apply list_elem_of_fmap in Hz as (c & Hc & Hin).
      exists i, g, c, z. split; [done|]. split; [by apply list_elem_of_In|]. done.
    + intros (i' & g & c & z & [= <-] & Hg & Hc & Hcell & Hfin).
      exists g. split; [by apply list_elem_of_In|].
      apply existsb_overflows. exists z. split; [|done].
      apply list_elem_of_fmap. by exists c.
  - split; [done|]. by intros (i & g & c & z & ? & _).
Qed.

Lemma build_error_overflow d na sel og gtc :
  build_error d na sel og gtc = Some OverflowError
  ↔ (∀ i, i < length (df_ids d) → na i = false)
    ∧ ∃ rid i g c z,
        rid ∈ sel ∧ compute_idx_map (df_ids d) !! lower rid = Some i
        ∧ g ∈ build_groups og gtc ∧ c ∈ (gtc !!! g : list string)
        ∧ df_cell d i c = CInt z ∧ is_finite (float_of_Z z) = false.
Proof.
  unfold build_error.
  destruct (existsb na (seq 0 (length (df_ids d)))) eqn:Hna.
  - split; [done|]. intros [Hall _].
    apply existsb_exists in Hna as (i & Hin & Hi). apply in_seq in Hin.
    rewrite Hall in Hi by lia. done.
  - assert (∀ i, i < length (df_ids d) → na i = false) as Hall.
    { intros i Hi. apply not_true_is_false. intros Hnai.
      assert (existsb na (seq 0 (length (df_ids d))) = true); [|congruence].
      apply existsb_exists. exists i. split; [apply in_seq; lia|done]. }
    destruct (existsb _ sel) eqn:Hov.
    + split; [intros _|done]. split; [done|].
      apply existsb_exists in Hov as (rid & Hrid & Hov).
      apply row_overflows_spec in Hov as (i & g & c & z & H).
      exists rid, i, g, c, z. split; [by apply list_elem_of_In|done].
    + split; [done|]. intros (_ & rid & i & g & c & z & Hrid & H).
      assert (existsb (row_overflows d (build_groups og gtc) gtc
                         (compute_idx_map (df_ids d))) sel = true); [|congruence].
      apply existsb_exists. exists rid. split; [by apply list_elem_of_In|].
      apply row_overflows_spec. by exists i, g, c, z.
Qed.

(** ** [plot]: the guards and [group_to_cols] *)

Lemma collect_group_cols_lookup self gs : ∀ m gtc g,
  collect_group_cols self gs m = Some gtc →
  gtc !! g =
  if decide (g ∈ gs ∧ has_cols self g = true) then get_group_cols self g
  else m !! g.
Proof.
  induction gs as [|g' gs IH]; intros m gtc g Hc; simpl in Hc.
  - injection Hc as <-. rewrite decide_False; [done|]. intros [[]%elem_of_nil _].
  - destruct (get_group_cols self g') as [cols|] eqn:Hg'; [|done].
    rewrite (IH _ _ g Hc).
    destruct (decide (g ∈ gs ∧ has_cols self g = true)) as [[Hin Hhas]|Hn].
    + rewrite decide_True; [done|]. split; [by apply list_elem_of_further|done].
    + destruct (decide (g = g')) as [->|Hne].
      * assert (has_cols self g' = match cols with [] => false | _ => true end)
          as Hhas by (unfold has_cols; by rewrite Hg').
        destruct cols as [|c cols].
        -- rewrite decide_False; [done|]. intros [_ ?]. congruence.
        -- rewrite lookup_insert_eq.
           rewrite decide_True; [done|]. split; [apply list_elem_of_here|done].
      * assert ((match cols with [] => m | _ :: _ => <[g':=cols]> m end) !! g
                = m !! g) as ->.
        { destruct cols; [done|]. by rewrite lookup_insert_ne. }
        rewrite decide_False; [done|].
        intros [[?|?]%elem_of_cons ?]; [done|]. apply Hn. done.
Qed.

Lemma collect_group_cols_is_Some self gs : ∀ m,
  Forall (λ g, is_Some (groups self !! g)) gs →
  is_Some (collect_group_cols self gs m).
Proof.
  induction gs as [|g gs IH]; intros m Hgs; simpl; [done|].
  apply Forall_cons in Hgs as [[cv Hg] Hgs].
  unfold get_group_cols at 1. rewrite Hg. by apply IH.
Qed.

Lemma has_cols_get self g :
  has_cols self g = true → ∃ c cols, get_group_cols self g = Some (c :: cols).
Proof.
  unfold has_cols. destruct (get_group_cols self g) as [[|c cols]|]; [done| |done].
  eauto.
Qed.

Lemma collect_group_cols_dom self gs gtc g :
  collect_group_cols self gs ∅ = Some gtc →
  is_Some (gtc !! g) ↔ g ∈ gs ∧ has_cols self g = true.
Proof.
  intros Hc. rewrite (collect_group_cols_lookup self gs ∅ gtc g Hc).
  case_decide as Hd.
  - destruct Hd as [Hin Hhas]. split; [done|]. intros _.
    destruct (has_cols_get _ _ Hhas) as (c & cols & ->). done.
  - rewrite lookup_empty. split; [by intros []|done].
Qed.

Lemma collect_group_cols_empty self gs gtc :
  collect_group_cols self gs ∅ = Some gtc →
  gtc = ∅ ↔ Forall (λ g, has_cols self g = false) gs.
Proof.
  intros Hc. split.
  - intros ->. apply Forall_forall. intros g Hg.
    destruct (has_cols self g) eqn:Hhas; [|done].
    assert (is_Some ((∅ : gmap string (list string)) !! g)) as [? Hx]
      by (by apply (collect_group_cols_dom self gs)).
    by rewrite lookup_empty in Hx.
  - intros Hall. apply map_empty. intros g.
    apply eq_None_not_Some. rewrite (collect_group_cols_dom self gs) by done.
    intros [Hin Hhas]. rewrite Forall_forall in Hall.
    specialize (Hall g Hin). congruence.
Qed.

Lemma filter_iff_in {A} (P Q : A → Prop)
    `{!∀ x, Decision (P x)} `{!∀ x, Decision (Q x)} (l : list A) :
  (∀ x, x ∈ l → P x ↔ Q x) → filter P l = filter Q l.
Proof.
  induction l as [|x l IH]; intros HPQ; [done|].
  rewrite !filter_cons.
  rewrite IH by (intros; apply HPQ; by apply list_elem_of_further).
  pose proof (HPQ x (list_elem_of_here _ _)).
  destruct (decide (P x)), (decide (Q x)); tauto || done.
Qed.

Lemma collect_group_cols_groups self gs gtc :
  collect_group_cols self gs ∅ = Some gtc →
  build_groups gs gtc = filter (λ g, has_cols self g = true) gs.
Proof.
  intros Hc. unfold build_groups. apply filter_iff_in. intros g Hg.
  rewrite (collect_group_cols_dom self gs) by done. tauto.
Qed.

Lemma plot_no_dataset self :
  df self = None → plot self = (self, Warned NoDataset).
Proof. intros H. unfold plot. by rewrite H. Qed.

Lemma plot_loaded self d :
  df self = Some d →
  Forall (λ g, is_Some (groups self !! g)) (group_listbox self) →
  ∃ gtc, collect_group_cols self (group_listbox self) ∅ = Some gtc ∧
    plot self =
    match get_selected_ids self with
    | [] => (self, Warned EmptySelection)
    | _ =>
      if decide (gtc = ∅) then (self, Warned NoColumnsAssigned)
      else
        let fig := make_group_plot self d (get_selected_ids self)
                     (group_listbox self) gtc in
        (set_last_fig self fig, Shown fig)
    end.
Proof.
  intros Hdf Hwf.
  destruct (collect_group_cols_is_Some self _ ∅ Hwf) as [gtc Hgtc].
  exists gtc. split; [done|]. unfold plot. rewrite Hdf, Hgtc. done.
Qed.


Lemma plot_run_loaded self d na :
  df self = Some d →
  Forall (λ g, is_Some (groups self !! g)) (group_listbox self) →
  ∃ gtc, collect_group_cols self (group_listbox self) ∅ = Some gtc ∧
    plot_run self na =
    match get_selected_ids self with
    | [] => (self, Warned EmptySelection)
    | _ =>
      if decide (gtc = ∅) then (self, Warned NoColumnsAssigned)
      else
        match build_error d na (get_selected_ids self) (group_listbox self) gtc with
        | Some e => (self, BuildRaised e)
        | None =>
          let fig := make_group_plot self d (get_selected_ids self)
                       (group_listbox self) gtc in
          (set_last_fig self fig, Shown fig)
        end
    end.
Proof.
  intros Hdf Hwf.
  destruct (collect_group_cols_is_Some self _ ∅ Hwf) as [gtc Hgtc].
  exists gtc. split; [done|]. unfold plot_run. rewrite Hdf, Hgtc.
  destruct (get_selected_ids self); [done|].
  case_decide; [done|]. rewrite make_group_plot_run_spec.
  by destruct (build_error _ _ _ _ _).
Qed.

(** C2 (as amended): with a dataset loaded (and every group of the list
    box present in [groups], as the application keeps it), [plot] warns
    [EmptySelection] exactly when no row identifier is selected, and
    [NoColumnsAssigned] exactly when the selection is not empty and no
    group has a checked column; a warning leaves the application
    unchanged (no figure is built).  In every other case [plot] goes on
    to build the figure, and it stores and shows it unless the build
    raises: [AttributeError] when an identifier of the table is a float
    nan (a missing identifier under pandas 3), else [OverflowError]
    when a cell it converts (the row of a selected identifier found in
    the table, a checked column of a group) is an integer beyond the
    range of a double; an exception leaves the application unchanged. *)
Theorem plot_reports_selection_errors (self : TableVisualiserApp) (d : DataFrame)
    (na : nat → bool) :
  df self = Some d →
  Forall (λ g, is_Some (groups self !! g)) (group_listbox self) →
  let no_cols := Forall (λ g, has_cols self g = false) (group_listbox self) in
  let selected_ids := get_selected_ids self in
  ((plot_run self na).2 = Warned EmptySelection ↔ selected_ids = [])
  ∧ ((plot_run self na).2 = Warned NoColumnsAssigned ↔
     selected_ids ≠ [] ∧ no_cols)
  ∧ (∀ w, (plot_run self na).2 = Warned w →
          (plot_run self na).1 = self
          ∧ (w = EmptySelection ∨ w = NoColumnsAssigned))
  ∧ (selected_ids ≠ [] → ¬ no_cols →
     ∃ gtc, collect_group_cols self (group_listbox self) ∅ = Some gtc ∧
       let fig := make_group_plot self d selected_ids (group_listbox self) gtc in
       let err := build_error d na selected_ids (group_listbox self) gtc in
       plot_run self na
       = match err with
         | Some e => (self, BuildRaised e)
         | None => (set_last_fig self fig, Shown fig)
         end
       ∧ (err = Some AttributeError
          ↔ ∃ i, i < length (df_ids d) ∧ na i = true)
       ∧ (err = Some OverflowError
          ↔ (∀ i, i < length (df_ids d) → na i = false)
            ∧ ∃ rid i g c z,
                rid ∈ selected_ids
                ∧ compute_idx_map (df_ids d) !! lower rid = Some i
                ∧ g ∈ group_listbox self
                ∧ c ∈ (gtc !!! g : list string)
                ∧ df_cell d i c = CInt z
                ∧ is_finite (float_of_Z z) = false)).
Proof.
  intros Hdf Hwf no_cols selected_ids.
  destruct (plot_run_loaded self d na Hdf Hwf) as (gtc & Hgtc & Hplot).
  pose proof (collect_group_cols_empty self _ gtc Hgtc) as Hempty.
  fold no_cols in Hempty. rewrite Hplot. clear Hplot. fold selected_ids.
  destruct selected_ids as [|rid sel] eqn:Hsel.
  - simpl. split; [done|]. split; [split; [done|by intros [? _]]|].
    split; [intros w [= <-]; auto|]. done.
  - destruct (decide (gtc = ∅)) as [He|Hne]; simpl.
    + split; [done|]. split; [split; [by intros _; split; [|apply Hempty]|done]|].
      split; [intros w [= <-]; auto|]. intros _ Hn. exfalso. by apply Hn, Hempty.
    + split; [split; [by destruct (build_error _ _ _ _ _); simpl|done]|].
      split.
      { split; [by destruct (build_error _ _ _ _ _); simpl|].
        intros [_ Hn]. by apply Hempty in Hn. }
      split; [by destruct (build_error _ _ _ _ _); simpl|].
      intros _ _. exists gtc. split; [done|]. split; [done|].
      split; [apply build_error_attribute|].
      rewrite build_error_overflow.
      split; intros (Hall & r & i & g & c & z & Hr & Hi & Hg & Hc & Hz);
        (split; [done|]); exists r, i, g, c, z; repeat (split; [done|]).
      * apply list_elem_of_filter in Hg as [_ Hg]. done.
      * split; [|done]. apply list_elem_of_filter. split; [|done].
        destruct (gtc !! g) as [cols|] eqn:Hgc; [done|].
        rewrite lookup_total_alt, Hgc in Hc. by apply elem_of_nil in Hc.
Qed.

Lemma plot_run_shown self na fig :
  (plot_run self na).2 = Shown fig →
  ∃ d gtc, df self = Some d
    ∧ collect_group_cols self (group_listbox self) ∅ = Some gtc
    ∧ get_selected_ids self ≠ []
    ∧ build_error d na (get_selected_ids self) (group_listbox self) gtc = None
    ∧ fig = make_group_plot self d (get_selected_ids self) (group_listbox self) gtc
    ∧ (plot self).2 = Shown fig.
Proof.
  unfold plot_run, plot. destruct (df self) as [d|]; [|done].
  destruct (get_selected_ids self) as [|rid sel] eqn:Hsel; [done|].
  destruct (collect_group_cols self (group_listbox self) ∅) as [gtc|]; [|done].
  case_decide; [done|]. rewrite make_group_plot_run_spec.
  destruct (build_error _ _ _ _ _) eqn:He; [done|]. simpl.
  intros [= <-]. by exists d, gtc.
Qed.


Lemma plot_shown self fig :
  (plot self).2 = Shown fig →
  ∃ d gtc, df self = Some d
    ∧ collect_group_cols self (group_listbox self) ∅ = Some gtc
    ∧ get_selected_ids self ≠ []
    ∧ fig = make_group_plot self d (get_selected_ids self) (group_listbox self) gtc.
Proof.
  unfold plot. destruct (df self) as [d|]; [|done].
  destruct (get_selected_ids self) as [|rid sel] eqn:Hsel; [done|].
  destruct (collect_group_cols self (group_listbox self) ∅) as [gtc|]; [|done].
  case_decide; [done|]. simpl. intros [= <-]. by exists d, gtc.
Qed.

(** ** Reproducibility *)

Lemma collect_group_cols_ext s1 s2 gs :
  groups s1 = groups s2 →
  ∀ m, collect_group_cols s1 gs m = collect_group_cols s2 gs m.
Proof.
  intros Hg. induction gs as [|g gs IH]; intros m; simpl; [done|].
  unfold get_group_cols. rewrite Hg.
  destruct (groups s2 !! g); [apply IH|done].
Qed.

Lemma make_group_plot_ext s1 s2 d sel og gtc :
  id_markers s1 = id_markers s2 → jitter_alpha s1 = jitter_alpha s2 →
  jitter_width s1 = jitter_width s2 →
  make_group_plot s1 d sel og gtc = make_group_plot s2 d sel og gtc.
Proof. intros Hm Ha Hw. unfold make_group_plot. by rewrite Hm, Ha, Hw. Qed.

Lemma plot_same_snapshot s1 s2 :
  same_snapshot s1 s2 → (plot s1).2 = (plot s2).2.
Proof.
  intros (Hdf & Hids & Hgroups & Hbox & Hm & Ha & Hw).
  unfold plot, get_selected_ids. rewrite Hdf, Hids, Hbox.
  destruct (df s2) as [d|]; [|done].
  destruct (filter _ (id_vars s2)).*1 as [|rid sel] eqn:Hsel; [done|].
  rewrite (collect_group_cols_ext s1 s2 _ Hgroups).
  destruct (collect_group_cols s2 (group_listbox s2) ∅) as [gtc|]; [|done].
  case_decide; [done|]. simpl.
  by rewrite (make_group_plot_ext s1 s2 d _ _ gtc Hm Ha Hw).
Qed.

Lemma plot_keeps_snapshot self : same_snapshot (plot self).1 self.
Proof.
  unfold plot. destruct (df self) as [d|]; [|by repeat split].
  destruct (get_selected_ids self); [by repeat split|].
  destruct (collect_group_cols self (group_listbox self) ∅); [|by repeat split].
  case_decide; by repeat split.
Qed.

(** C1: the jittered x-coordinates of a build depend on the dataset, the
    selection, the groups, the marker palette and the jitter options
    only.  Two states of the application that agree on these get the
    same outcome from [plot], figure for figure and x-coordinate for
    x-coordinate; plotting again right after a plot gives the same
    outcome; and in every build the per-row seeds are the successive
    draws of a master generator created as [default_rng(2026)] by that
    build. *)
Theorem plot_is_reproducible (self self' : TableVisualiserApp) :
  same_snapshot self self' →
  (plot self).2 = (plot self').2
  ∧ (∀ fig fig', (plot self).2 = Shown fig → (plot self').2 = Shown fig' →
       sc_x <$> scatters fig = sc_x <$> scatters fig')
  ∧ (plot (plot self).1).2 = (plot self).2
  ∧ (∀ fig, (plot self).2 = Shown fig →
       ∃ d gtc, df self = Some d
         ∧ collect_group_cols self (group_listbox self) ∅ = Some gtc
         ∧ scatters fig =
           concat (zip_with
                     (build_row_scatters self d (get_selected_ids self)
                        (group_listbox self) gtc)
                     (build_rows d (get_selected_ids self))
                     (draws (default_rng 2026)
                        (length (build_rows d (get_selected_ids self)))))).
Proof.
  intros Hsame.
  pose proof (plot_same_snapshot self self' Hsame) as Hplot.
  split; [done|].
  split; [intros fig fig' H1 H2; congruence|].
  split; [apply plot_same_snapshot, plot_keeps_snapshot|].
  intros fig Hfig.
  destruct (plot_shown self fig Hfig) as (d & gtc & Hdf & Hgtc & _ & ->).
  exists d, gtc. split; [done|]. split; [done|].
  apply make_group_plot_closed.
Qed.


(** ** What the scatter points of a row are *)

Lemma elem_of_sample_order og (gtc : gmap string (list string)) c :
  c ∈ compute_sample_order og gtc ↔ ∃ g, g ∈ og ∧ c ∈ (gtc !!! g : list string).
Proof.
  rewrite sample_order_nub, elem_of_nub, elem_of_concat. split.
  - intros (l & (g & -> & Hg)%list_elem_of_fmap & Hc). eauto.
  - intros (g & Hg & Hc). eexists. split; [|done].
    apply list_elem_of_fmap. eauto.
Qed.

Lemma enumerate_lookup_total_fmap {A B} `{!Inhabited B} (f : A → B) l i x :
  (i, x) ∈ enumerate l → (f <$> l) !!! i = f x.
Proof.
  intros Hx%elem_of_enumerate. apply list_lookup_total_correct.
  by rewrite list_lookup_fmap, Hx.
Qed.

Lemma concat_fmap_bind {A B} (f : A → list B) (l : list A) :
  concat (f <$> l) = l ≫= f.
Proof.
  induction l as [|x l IH]; [done|].
  rewrite fmap_cons, bind_cons. cbn [concat]. by rewrite IH.
Qed.

Lemma bind_snd {A B C} (f : B → list C) (l : list (A * B)) :
  l ≫= (λ x, f x.2) = l.*2 ≫= f.
Proof.
  induction l as [|x l IH]; [done|].
  rewrite fmap_cons, !bind_cons. by rewrite IH.
Qed.

Section RowFacts.
Variables (d : DataFrame) (og : list string) (gtc : gmap string (list string)).
Variables (sample_color : gmap string color) (id_marker : gmap string string).
Variables (group_x offsets : list float) (ja jw : float).

Abbreviation points' :=
  (row_scatters d og gtc sample_color id_marker group_x offsets ja jw).

Lemma row_scatters_Forall r seed :
  Forall (point_of_row d og gtc sample_color id_marker ja r) (points' r seed).
Proof.
  unfold row_scatters.
  apply (foldl_append_only_Forall _ _ _ (jitter_group_append _ _ _ _ _ _ _ _)).
  intros s [gi g] Hg. unfold jitter_group. simpl.
  rewrite (enumerate_lookup_total_fmap _ og gi g Hg).
  apply elem_of_enumerate, list_elem_of_lookup_2 in Hg.
  apply (foldl_append_only_Forall _ _ _ (jitter_col_append _ _ _ _ _ _ _ _)).
  intros s' c Hc. unfold jitter_col. simpl.
  destruct (isna (to_numeric (df_cell d r.2 c))) eqn:Hna; simpl; [constructor|].
  repeat constructor; simpl; done.
Qed.

Lemma row_scatters_core r seed :
  scatter_core <$> points' r seed = row_core d og gtc sample_color r.1.2 r.2.
Proof.
  unfold row_scatters, row_core.
  rewrite (foldl_append_only_proj _ scatter_core
             (λ gig : nat * string,
                c ← gtc !!! gig.2;
                let v := to_numeric (df_cell d r.2 c) in
                if isna v then [] else [(r.1.2, gig.2, c, v, sample_color !!! c)])
             _ (jitter_group_append _ _ _ _ _ _ _ _)).
  - rewrite concat_fmap_bind.
    rewrite (bind_snd
               (λ g, c ← gtc !!! g;
                     let v := to_numeric (df_cell d r.2 c) in
                     if isna v then [] else [(r.1.2, g, c, v, sample_color !!! c)])
               (enumerate og)).
    unfold enumerate. by rewrite snd_enumerate_from.
  - intros s [gi g] Hg. unfold jitter_group. simpl.
    rewrite (enumerate_lookup_total_fmap _ og gi g Hg).
    rewrite (foldl_append_only_proj _ scatter_core
               (λ c, let v := to_numeric (df_cell d r.2 c) in
                     if isna v then [] else [(r.1.2, g, c, v, sample_color !!! c)])
               _ (jitter_col_append _ _ _ _ _ _ _ _)).
    + apply concat_fmap_bind.
    + intros s' c Hc. unfold jitter_col. simpl.
      by destruct (isna (to_numeric (df_cell d r.2 c))).
Qed.

Lemma normals_length g n : length (normals g n) = n.
Proof. revert g. induction n as [|n IH]; intros g; simpl; [done|]. by rewrite IH. Qed.

Lemma normals_app g n m :
  normals g (n + m) = normals g n ++ normals (after_normals g n) m.
Proof.
  revert g. induction n as [|n IH]; intros g; simpl; [done|]. by rewrite IH.
Qed.

Lemma after_normals_add g n m :
  after_normals g (n + m) = after_normals (after_normals g n) m.
Proof. revert g. induction n as [|n IH]; intros g; simpl; [done|]. apply IH. Qed.

(** The points of one group of a row: each drawn cell takes the next
    standard normal variate of the row's generator and is placed at
    [x0 + jw * z]. *)
Lemma jitter_cols_x rid g row x0 cols : ∀ gen acc,
  let res := foldl (jitter_col sample_color id_marker ja jw rid g row x0)
                   (gen, acc) cols in
  let cs := cols ≫= (λ c, if isna (to_numeric (row c)) then [] else [x0]) in
  res.1 = after_normals gen (length cs)
  ∧ sc_x <$> res.2
    = (sc_x <$> acc)
      ++ zip_with (λ x z, fadd x (fmul jw z)) cs (normals gen (length cs)).
Proof.
  induction cols as [|c cols IH]; intros gen acc.
  - simpl. by rewrite app_nil_r.
  - cbn [foldl]. rewrite bind_cons.
    assert (jitter_col sample_color id_marker ja jw rid g row x0 (gen, acc) c
            = if isna (to_numeric (row c)) then (gen, acc)
              else ((standard_normal gen).2,
                    acc ++ [ {| sc_rid := rid; sc_group := g; sc_sample := c;
                                sc_x := fadd x0 (fmul jw (standard_normal gen).1);
                                sc_y := to_numeric (row c);
                                sc_marker := id_marker !!! rid;
                                sc_color := sample_color !!! c;
                                sc_alpha := ja |} ])) as ->.
    { unfold jitter_col, normal. simpl. by destruct (isna _). }
    destruct (isna (to_numeric (row c))) eqn:Hna.
    + apply IH.
    + match goal with |- context [foldl _ (?g1, ?a1) cols] =>
        destruct (IH g1 a1) as [Hg Hx] end.
      cbv zeta in Hg, Hx |- *. rewrite Hg, Hx. cbn [app length normals after_normals].
      split; [done|]. rewrite fmap_app, <- app_assoc. done.
Qed.

Lemma jitter_groups_x rid row (positions : list float) (l : list (nat * string)) :
  ∀ gen acc,
  (∀ ig, ig ∈ l → og !! ig.1 = Some ig.2) →
  let res := foldl (jitter_group sample_color id_marker ja jw rid row
                      ((λ g, gtc !!! g) <$> og) positions) (gen, acc) l in
  let cs := l ≫= (λ ig, c ← (gtc !!! ig.2 : list string);
                        if isna (to_numeric (row c)) then []
                        else [positions !!! ig.1]) in
  res.1 = after_normals gen (length cs)
  ∧ sc_x <$> res.2
    = (sc_x <$> acc)
      ++ zip_with (λ x z, fadd x (fmul jw z)) cs (normals gen (length cs)).
Proof.
  induction l as [|[gi g] l IH]; intros gen acc Hl.
  - simpl. by rewrite app_nil_r.
  - cbn [foldl]. rewrite bind_cons.
    assert (og !! gi = Some g) as Hg by (apply (Hl (gi, g)); left).
    assert (jitter_group sample_color id_marker ja jw rid row
              ((λ g0, gtc !!! g0) <$> og) positions (gen, acc) (gi, g)
            = foldl (jitter_col sample_color id_marker ja jw rid g row
                       (positions !!! gi)) (gen, acc) (gtc !!! g)) as ->.
    { unfold jitter_group. simpl.
      replace (((λ g0, gtc !!! g0) <$> og) !!! gi) with (gtc !!! g : list string);
        [done|].
      symmetry. apply list_lookup_total_correct. by rewrite list_lookup_fmap, Hg. }
    destruct (jitter_cols_x rid g row (positions !!! gi) (gtc !!! g) gen acc)
      as [Hgen Hx].
    cbv zeta in Hgen, Hx.
    set (res1 := foldl (jitter_col sample_color id_marker ja jw rid g row
                          (positions !!! gi)) (gen, acc) (gtc !!! g)) in *.
    destruct (IH res1.1 res1.2) as [Hgen' Hx'].
    { intros ig Hig. apply Hl. by right. }
    cbv zeta in Hgen', Hx' |- *.
    rewrite <- surjective_pairing in Hgen', Hx'.
    rewrite length_app, after_normals_add, normals_app.
    cbn [fst snd] in *.
    rewrite Hgen', Hx', Hgen, Hx. split; [done|].
    rewrite <- app_assoc. f_equal.
    rewrite zip_with_app; [done|]. by rewrite normals_length.
Qed.

(** The abscissas of the points of a row: the centres of its drawn
    cells, each moved by [jw] times the next standard normal variate of
    the generator seeded for the row. *)
Lemma row_scatters_x r seed :
  length og ≤ length group_x →
  sc_x <$> points' r seed
  = zip_with (λ x z, fadd x (fmul jw z))
      (row_centres d og gtc group_x offsets r)
      (normals (default_rng seed)
               (length (row_centres d og gtc group_x offsets r))).
Proof.
  intros Hlen. unfold row_scatters.
  destruct (jitter_groups_x r.1.2 (df_cell d r.2)
              ((λ x, fadd x (offsets !!! r.1.1)) <$> group_x)
              (enumerate og) (default_rng seed) []) as [_ Hx].
  { intros [gi g] Hig. by apply elem_of_enumerate in Hig. }
  rewrite Hx. simpl.
  assert (enumerate og ≫=
            (λ ig, c ← (gtc !!! ig.2 : list string);
                   if isna (to_numeric (df_cell d r.2 c)) then []
                   else [((λ x, fadd x (offsets !!! r.1.1)) <$> group_x) !!! ig.1])
          = row_centres d og gtc group_x offsets r) as ->; [|done].
  unfold row_centres.
  assert (∀ l : list (nat * string), (∀ ig, ig ∈ l → ig.1 < length group_x) →
            l ≫= (λ ig, c ← (gtc !!! ig.2 : list string);
                   if isna (to_numeric (df_cell d r.2 c)) then []
                   else [((λ x, fadd x (offsets !!! r.1.1)) <$> group_x) !!! ig.1])
            = l ≫= (λ ig, c ← (gtc !!! ig.2 : list string);
                   if isna (to_numeric (df_cell d r.2 c)) then []
                   else [fadd (group_x !!! ig.1) (offsets !!! r.1.1)])) as Hsame.
  { induction l as [|ig l IH]; intros Hl; [done|].
    rewrite !bind_cons. rewrite IH by (intros; apply Hl; by right).
    f_equal.
    assert (((λ x, fadd x (offsets !!! r.1.1)) <$> group_x) !!! ig.1
            = fadd (group_x !!! ig.1) (offsets !!! r.1.1)) as ->; [|done].
    apply list_lookup_total_correct. rewrite list_lookup_fmap.
    rewrite (list_lookup_lookup_total_lt group_x ig.1); [done|].
    apply Hl. by left. }
  apply Hsame. intros [gi g] Hig. apply elem_of_enumerate in Hig.
  apply lookup_lt_Some in Hig. simpl. lia.
Qed.
End RowFacts.


(** ** What a build draws *)

Lemma draws_length g n : length (draws g n) = n.
Proof. revert g. induction n as [|n IH]; intros g; simpl; [done|]. by rewrite IH. Qed.

Lemma elem_of_concat_zip_with {A B C} (f : A → B → list C) l k x :
  x ∈ concat (zip_with f l k) → ∃ a b, a ∈ l ∧ x ∈ f a b.
Proof.
  intros (ys & Hys & Hx)%elem_of_concat.
  apply list_elem_of_lookup in Hys as [i Hi].
  apply lookup_zip_with_Some in Hi as (a & b & -> & Ha & _).
  exists a, b. split; [|done]. by eapply list_elem_of_lookup_2.
Qed.

Lemma fmap_concat_zip_with {A B C D} (f : A → B → list C) (π : C → D)
    (h : A → list D) l : ∀ k,
  (∀ a b, π <$> f a b = h a) → length l ≤ length k →
  π <$> concat (zip_with f l k) = l ≫= h.
Proof.
  induction l as [|a l IH]; intros k Hf Hlen; [done|].
  destruct k as [|b k]; simpl in Hlen; [lia|].
  simpl. rewrite fmap_app, Hf, IH by (done || lia). done.
Qed.

Lemma fst_omap_lookup {V} (m : gmap string V) (key : string → string) l :
  (omap (λ rid, (λ i, (rid, i)) <$> m !! key rid) l).*1
  = filter (λ rid, is_Some (m !! key rid)) l.
Proof.
  induction l as [|rid l IH]; [done|].
  rewrite filter_cons. cbn [omap list_omap].
  destruct (decide (is_Some (m !! key rid))) as [[v Hv]|Hn].
  - rewrite Hv. cbn [fmap option_fmap option_map]. rewrite fmap_cons.
    by rewrite IH.
  - apply eq_None_not_Some in Hn. rewrite Hn. by rewrite <- IH.
Qed.

Lemma build_rows_rids d sel :
  (λ r : nat * string * nat, r.1.2) <$> build_rows d sel
  = filter (λ rid, is_Some (compute_idx_map (df_ids d) !! lower rid)) sel.
Proof.
  rewrite <- fst_omap_lookup, <- build_rows_keys, <- list_fmap_compose. done.
Qed.

Lemma scatters_of_build self d sel og gtc p :
  p ∈ scatters (make_group_plot self d sel og gtc) →
  ∃ r, r ∈ build_rows d sel
       ∧ point_of_row d (build_groups og gtc) gtc
           (compute_sample_color (build_sample_order og gtc))
           (compute_id_marker (id_markers self) sel) (jitter_alpha self) r p.
Proof.
  destruct (make_group_plot_closed self d sel og gtc) as (_ & _ & _ & _ & _ & ->).
  intros (r & seed & Hr & Hp)%elem_of_concat_zip_with.
  exists r. split; [done|]. unfold build_row_scatters in Hp.
  eapply Forall_forall in Hp; [|apply row_scatters_Forall]. done.
Qed.

Lemma scatter_cores_of_build self d sel og gtc :
  scatter_core <$> scatters (make_group_plot self d sel og gtc)
  = (row_key <$> build_rows d sel) ≫=
      (λ ri, row_core d (build_groups og gtc) gtc
               (compute_sample_color (build_sample_order og gtc)) ri.1 ri.2).
Proof.
  destruct (make_group_plot_closed self d sel og gtc) as (_ & _ & _ & _ & _ & ->).
  rewrite (fmap_concat_zip_with _ scatter_core
             (λ r, row_core d (build_groups og gtc) gtc
                     (compute_sample_color (build_sample_order og gtc)) r.1.2 r.2)).
  - generalize (build_rows d sel). intros l.
    induction l as [|r l IH]; [done|].
    rewrite fmap_cons, !bind_cons. by rewrite IH.
  - intros r seed. apply row_scatters_core.
  - by rewrite draws_length.
Qed.


(** C3 (as amended): in every build the sample legend lists the sample
    columns of the groups, each once, in the order of the colour
    assignment and with the assigned colour; the row legend lists the
    selected identifiers that are found in the table, each once, in
    selection order and with the assigned marker.  An entry does not
    depend on a point having been drawn for its label; what holds is the
    converse, every drawn point has its identifier in the row legend and
    its column in the sample legend, and an identifier that is not found
    in the table has no entry in the row legend. *)
Theorem legends_list_assigned_labels (self : TableVisualiserApp) (d : DataFrame)
    (selected_ids og : list string) (gtc : gmap string (list string)) :
  NoDup selected_ids →
  let fig := make_group_plot self d selected_ids og gtc in
  let order := build_sample_order og gtc in
  let idx_map := compute_idx_map (df_ids d) in
  let markers := id_markers self in
  l2d_label <$> leg_samples fig = order
  ∧ NoDup order
  ∧ (∀ i c, order !! i = Some c →
       leg_samples fig !! i =
       Some {| l2d_marker := "o"; l2d_color := tab20 !!! (i mod 20);
               l2d_label := c |})
  ∧ l2d_label <$> leg_shapes fig
    = filter (λ rid, is_Some (idx_map !! lower rid)) selected_ids
  ∧ NoDup (l2d_label <$> leg_shapes fig)
  ∧ (∀ h, h ∈ leg_shapes fig →
       ∃ k, selected_ids !! k = Some (l2d_label h)
            ∧ l2d_marker h = markers !!! (k mod length markers)
            ∧ l2d_color h = black)
  ∧ (∀ p, p ∈ scatters fig →
       sc_rid p ∈ l2d_label <$> leg_shapes fig
       ∧ sc_sample p ∈ l2d_label <$> leg_samples fig)
  ∧ (∀ rid, idx_map !! lower rid = None → rid ∉ l2d_label <$> leg_shapes fig).
Proof.
  intros Hnd fig order idx_map markers.
  destruct (make_group_plot_closed self d selected_ids og gtc)
    as (_ & _ & Hsamples & _ & Hshapes & _).
  fold fig order in Hsamples, Hshapes.
  assert (NoDup order) as Hord.
  { unfold order, build_sample_order. rewrite sample_order_nub. apply NoDup_nub. }
  assert (l2d_label <$> leg_samples fig = order) as Hlab.
  { rewrite Hsamples, <- list_fmap_compose. apply list_fmap_id. }
  assert (l2d_label <$> leg_shapes fig
          = filter (λ rid, is_Some (idx_map !! lower rid)) selected_ids) as Hrows.
  { rewrite Hshapes, <- list_fmap_compose. apply build_rows_rids. }
  split; [done|]. split; [done|].
  split.
  { intros i c Hi. rewrite Hsamples, list_lookup_fmap, Hi. simpl. do 2 f_equal.
    rewrite lookup_total_alt, (sample_color_lookup order i c) by done. done. }
  split; [done|].
  split; [rewrite Hrows; by apply NoDup_filter|].
  split.
  { intros h Hh. rewrite Hshapes in Hh.
    apply list_elem_of_fmap in Hh as (r & -> & Hr).
    apply build_rows_elem in Hr as [Hk _].
    exists r.1.1. split; [done|]. split; [|done].
    unfold row_handle, markers. cbn [l2d_marker].
    rewrite lookup_total_alt.
    by rewrite (id_marker_lookup (id_markers self) selected_ids r.1.1 r.1.2). }
  split.
  { intros p Hp.
    apply scatters_of_build in Hp
      as (r & Hr & Hrid & _ & Hg & Hc & _).
    split.
    - rewrite Hshapes, <- list_fmap_compose, Hrid.
      apply list_elem_of_fmap. by exists r.
    - rewrite Hlab. apply elem_of_sample_order. eauto. }
  intros rid Hrid. rewrite Hrows, list_elem_of_filter, Hrid.
  intros [[] _]. done.
Qed.


(** ** Identifiers that are not in the table *)

Lemma boxplots_of_build self d sel og gtc bp :
  bp ∈ boxplots (make_group_plot self d sel og gtc) →
  ∃ r, r ∈ build_rows d sel
       ∧ bp = row_boxplot d (length sel) (build_groups og gtc) gtc
                (arange (length (build_groups og gtc)))
                (compute_offsets (length sel)) r.
Proof.
  destruct (make_group_plot_closed self d sel og gtc) as (_ & _ & _ & -> & _).
  intros (r & -> & Hr)%list_elem_of_fmap. eauto.
Qed.

Lemma unresolved_not_in_rows d sel a r :
  lower a ∉ lower <$> df_ids d → r ∈ build_rows d sel → r.1.2 ≠ a.
Proof.
  intros Ha%idx_map_lookup_None [_ Hr]%build_rows_elem Heq.
  rewrite Heq in Hr. congruence.
Qed.

Lemma build_error_insert_unresolved d na pre a post og gtc :
  compute_idx_map (df_ids d) !! lower a = None →
  build_error d na (pre ++ a :: post) og gtc
  = build_error d na (pre ++ post) og gtc.
Proof.
  intros Hnone. unfold build_error.
  rewrite !existsb_app. cbn [existsb].
  unfold row_overflows at 2. rewrite Hnone. done.
Qed.

(** C9 (as amended): when a selected identifier is not in the table
    (case-insensitively), the build raises exactly the exception, if
    any, that the build of the selection without that identifier
    raises: the absent identifier causes no error and hides none.  When
    it raises none, it returns its figure, and the figure has no
    scatter point, no box plot and no legend entry for that identifier.
    Every other identifier is drawn with the same cells, values and
    colours, the same box data and the same legend labels as in the
    build of the selection without the absent identifier; its marker,
    its sub-offset and the box width are those of its position in the
    full selection, in which the absent identifier still counts. *)
Theorem absent_identifier_is_skipped (self : TableVisualiserApp) (d : DataFrame)
    (na : nat → bool) (pre : list string) (a : string) (post og : list string)
    (gtc : gmap string (list string)) :
  lower a ∉ lower <$> df_ids d →
  let sel := pre ++ a :: post in
  let fig := make_group_plot self d sel og gtc in
  let fig' := make_group_plot self d (pre ++ post) og gtc in
  let err := build_error d na (pre ++ post) og gtc in
  make_group_plot_run self d na sel og gtc
  = match err with Some e => Raised e | None => Ok fig end
  ∧ make_group_plot_run self d na (pre ++ post) og gtc
    = match err with Some e => Raised e | None => Ok fig' end
  ∧ (∀ p, p ∈ scatters fig → sc_rid p ≠ a)
  ∧ (∀ bp, bp ∈ boxplots fig → bp_rid bp ≠ a)
  ∧ (∀ h, h ∈ leg_shapes fig → l2d_label h ≠ a)
  ∧ scatter_core <$> scatters fig = scatter_core <$> scatters fig'
  ∧ (λ bp, (bp_rid bp, bp_data bp)) <$> boxplots fig
    = (λ bp, (bp_rid bp, bp_data bp)) <$> boxplots fig'
  ∧ l2d_label <$> leg_shapes fig = l2d_label <$> leg_shapes fig'
  ∧ leg_samples fig = leg_samples fig'
  ∧ xticks fig = xticks fig' ∧ xticklabels fig = xticklabels fig'
  ∧ (∀ p, p ∈ scatters fig →
       sc_marker p = compute_id_marker (id_markers self) sel !!! sc_rid p)
  ∧ (∀ bp, bp ∈ boxplots fig →
       ∃ k, sel !! k = Some (bp_rid bp)
            ∧ bp_positions bp
              = (λ x, fadd x (compute_offsets (length sel) !!! k)) <$> xticks fig
            ∧ bp_widths bp
              = if decide (1 < length sel) then decimal 16 100
                else decimal 35 100).
Proof.
  intros Ha sel fig fig' err.
  pose proof (proj2 (idx_map_lookup_None _ _) Ha) as Hnone.
  split.
  { rewrite make_group_plot_run_spec. unfold sel.
    by rewrite (build_error_insert_unresolved d na pre a post og gtc Hnone). }
  split; [apply make_group_plot_run_spec|].
  pose proof (build_rows_insert_unresolved d pre a post Hnone) as Hkeys.
  fold sel in Hkeys.
  destruct (make_group_plot_closed self d sel og gtc)
    as (Hl & Ht & Hs & Hb & Hh & _).
  destruct (make_group_plot_closed self d (pre ++ post) og gtc)
    as (Hl' & Ht' & Hs' & Hb' & Hh' & _).
  fold fig in Hl, Ht, Hs, Hb, Hh. fold fig' in Hl', Ht', Hs', Hb', Hh'.
  split.
  { intros p (r & Hr & Hrid & _)%scatters_of_build. rewrite Hrid.
    by eapply unresolved_not_in_rows. }
  split.
  { intros bp (r & Hr & ->)%boxplots_of_build. by eapply unresolved_not_in_rows. }
  split.
  { intros h Hin. rewrite Hh in Hin.
    apply list_elem_of_fmap in Hin as (r & -> & Hr).
    by eapply unresolved_not_in_rows. }
  split.
  { unfold fig, fig'. by rewrite !scatter_cores_of_build, Hkeys. }
  split.
  { rewrite Hb, Hb', <- !list_fmap_compose.
    change (?f ∘ row_boxplot d ?K ?gs gtc ?x ?o)
      with ((λ ri : string * nat,
               (ri.1, (λ g, to_float_list (df_cell d ri.2 <$> gtc !!! g))
                        <$> build_groups og gtc)) ∘ row_key).
    by rewrite !list_fmap_compose, Hkeys. }
  split.
  { rewrite Hh, Hh', <- !list_fmap_compose.
    change (l2d_label ∘ row_handle ?m) with (fst ∘ row_key).
    by rewrite !list_fmap_compose, Hkeys. }
  split; [by rewrite Hs, Hs'|].
  split; [by rewrite Ht, Ht'|].
  split; [by rewrite Hl, Hl'|].
  split.
  { intros p (r & Hr & Hrid & Hm & _)%scatters_of_build. by rewrite Hm, Hrid. }
  intros bp (r & Hr & ->)%boxplots_of_build.
  apply build_rows_elem in Hr as [Hk _].
  exists r.1.1. split; [done|]. by rewrite Ht.
Qed.

(** ** Two builds that differ in the positions of the rows *)

Lemma foldl_append_only_rel {S A B} (f f' : S * list A → B → S * list A)
    (R : A → A → Prop) (l : list B) :
  (∀ s acc b, f (s, acc) b = ((f (s, []) b).1, acc ++ (f (s, []) b).2)) →
  (∀ s acc b, f' (s, acc) b = ((f' (s, []) b).1, acc ++ (f' (s, []) b).2)) →
  (∀ s b, b ∈ l → (f (s, []) b).1 = (f' (s, []) b).1
                  ∧ Forall2 R (f (s, []) b).2 (f' (s, []) b).2) →
  ∀ s, (foldl f (s, []) l).1 = (foldl f' (s, []) l).1
       ∧ Forall2 R (foldl f (s, []) l).2 (foldl f' (s, []) l).2.
Proof.
  intros Hf Hf'. induction l as [|b l IH]; intros Hstep s; simpl; [by split|].
  destruct (Hstep s b (list_elem_of_here _ _)) as [Hs Hp].
  destruct (f (s, []) b) as [s1 p1], (f' (s, []) b) as [s1' p1'].
  simpl in Hs, Hp. subst s1'.
  rewrite (foldl_append_only f Hf), (foldl_append_only f' Hf'). simpl.
  destruct (IH (λ s b Hb, Hstep s b (list_elem_of_further _ _ _ Hb)) s1) as [Hs' Hp'].
  split; [done|]. by apply Forall2_app.
Qed.

Lemma Forall2_concat_zip_with {A A' B C C'} (F : A → B → list C)
    (F' : A' → B → list C') (Rr : A → A' → Prop) (R : C → C' → Prop) l l' :
  Forall2 (λ a a', Rr a a' ∧ ∀ b, Forall2 R (F a b) (F' a' b)) l l' →
  ∀ k, Forall2 R (concat (zip_with F l k)) (concat (zip_with F' l' k)).
Proof.
  induction 1 as [|a a' l l' [_ Ha] _ IH]; intros k; [constructor|].
  destruct k as [|b k]; [constructor|]. simpl. apply Forall2_app; [apply Ha|apply IH].
Qed.

Lemma Forall2_same_keys {A K} (key : A → K) (l l' : list A) :
  key <$> l = key <$> l' → Forall2 (λ a a', key a = key a') l l'.
Proof.
  revert l'. induction l as [|a l IH]; intros [|a' l'] Heq; try done.
  injection Heq as Ha Hl. constructor; [done|by apply IH].
Qed.

Section Shift.
Variables (d : DataFrame) (og : list string) (gtc : gmap string (list string)).
Variables (sample_color : gmap string color) (id_marker id_marker' : gmap string string).
Variables (group_x offsets offsets' : list float) (ja jw : float).

Lemma jitter_col_shift rid g row x0 x0' s c :
  let o := jitter_col sample_color id_marker ja jw rid g row x0 (s, []) c in
  let o' := jitter_col sample_color id_marker' ja jw rid g row x0' (s, []) c in
  o.1 = o'.1
  ∧ Forall2 (λ p p', same_jitter jw x0 x0' p p' ∧ sc_group p = g) o.2 o'.2.
Proof.
  unfold jitter_col, normal. simpl. destruct (isna (to_numeric (row c))); simpl.
  - split; [done|constructor].
  - split; [done|]. repeat constructor; simpl. eauto.
Qed.

Lemma row_scatters_shift r r' seed :
  row_key r = row_key r' → length og ≤ length group_x →
  Forall2 (same_row_jitter og group_x jw (offsets !!! r.1.1) (offsets' !!! r'.1.1))
    (row_scatters d og gtc sample_color id_marker group_x offsets ja jw r seed)
    (row_scatters d og gtc sample_color id_marker' group_x offsets' ja jw r' seed).
Proof.
  intros Hkey Hlen. injection Hkey as Hrid Hi. unfold row_scatters.
  rewrite <- Hrid, <- Hi.
  apply (foldl_append_only_rel _ _ _ _
           (jitter_group_append _ _ _ _ _ _ _ _)
           (jitter_group_append _ _ _ _ _ _ _ _)).
  intros s [gi g] Hg. unfold jitter_group. simpl.
  apply elem_of_enumerate in Hg. pose proof (lookup_lt_Some _ _ _ Hg) as Hgi.
  assert (∀ o : float, ((λ x, fadd x o) <$> group_x) !!! gi
                       = fadd (group_x !!! gi) o) as Hpos.
  { intros o. apply list_lookup_total_correct.
    rewrite list_lookup_fmap, (list_lookup_lookup_total_lt group_x gi) by lia. done. }
  rewrite !Hpos.
  apply (foldl_append_only_rel _ _ _ _
           (jitter_col_append _ _ _ _ _ _ _ _)
           (jitter_col_append _ _ _ _ _ _ _ _)).
  intros s' c _.
  destruct (jitter_col_shift r.1.2 g (df_cell d r.2)
              (fadd (group_x !!! gi) (offsets !!! r.1.1))
              (fadd (group_x !!! gi) (offsets' !!! r'.1.1)) s' c) as [Hs Hp].
  split; [done|]. eapply Forall2_impl; [exact Hp|].
  intros p p' ((Hc & Ha & z & Hx & Hx') & Hgp).
  split; [done|]. split; [done|]. exists gi, z. by rewrite Hgp.
Qed.
End Shift.

Lemma Forall2_with_elem {A B} (P : A → B → Prop) l l' :
  Forall2 P l l' → Forall2 (λ a b, P a b ∧ a ∈ l ∧ b ∈ l') l l'.
Proof.
  induction 1 as [|a b l l' Hab _ IH]; [constructor|].
  constructor.
  - split; [done|]. split; apply list_elem_of_here.
  - eapply Forall2_impl; [exact IH|]. intros x y (? & ? & ?).
    split; [done|]. split; by apply list_elem_of_further.
Qed.

Lemma Forall2_with_Forall_l {A B} (P : A → Prop) (Q : A → B → Prop) l l' :
  Forall P l → Forall2 Q l l' → Forall2 (λ a b, P a ∧ Q a b) l l'.
Proof.
  intros HP HQ. revert HP. induction HQ as [|a b l l' Hab _ IH]; intros HP.
  - constructor.
  - apply Forall_cons in HP as [Ha HP]. constructor; [done|by apply IH].
Qed.

(** The scatter points of two builds on selections with the same resolved
    rows: same cells, and each pair of points is placed by the same
    standard normal variate around the tick of its group plus the
    sub-offset of the row's position in each selection. *)
Lemma scatters_shift self d sel sel' og gtc :
  row_key <$> build_rows d sel = row_key <$> build_rows d sel' →
  Forall2
    (λ p p', scatter_core p = scatter_core p'
             ∧ ∃ k k' gi z,
                 sel !! k = Some (sc_rid p) ∧ sel' !! k' = Some (sc_rid p)
                 ∧ build_groups og gtc !! gi = Some (sc_group p)
                 ∧ sc_x p = fadd (fadd (float_of_nat gi)
                                       (compute_offsets (length sel) !!! k))
                                 (fmul (jitter_width self) z)
                 ∧ sc_x p' = fadd (fadd (float_of_nat gi)
                                        (compute_offsets (length sel') !!! k'))
                                  (fmul (jitter_width self) z))
    (scatters (make_group_plot self d sel og gtc))
    (scatters (make_group_plot self d sel' og gtc)).
Proof.
  intros Hkeys.
  destruct (make_group_plot_closed self d sel og gtc) as (_ & _ & _ & _ & _ & ->).
  destruct (make_group_plot_closed self d sel' og gtc) as (_ & _ & _ & _ & _ & ->).
  assert (length (build_rows d sel') = length (build_rows d sel)) as ->.
  { by rewrite <- (length_fmap row_key (build_rows d sel)), Hkeys, length_fmap. }
  apply (Forall2_concat_zip_with _ _ (λ r r', row_key r = row_key r')).
  eapply Forall2_impl;
    [apply Forall2_with_elem, (Forall2_same_keys row_key), Hkeys|].
  intros r r' (Hkey & Hr & Hr'). simpl in Hkey. split; [done|]. intros seed.
  apply build_rows_elem in Hr as [Hk _]. apply build_rows_elem in Hr' as [Hk' _].
  unfold build_row_scatters.
  eapply Forall2_impl.
  { apply Forall2_with_Forall_l; [apply row_scatters_Forall|].
    apply row_scatters_shift; [done|]. by rewrite arange_length. }
  intros p p' ((Hrid & _) & Hcore & _ & gi & z & Hgi & Hx & Hx'). simpl in Hrid.
  split; [done|]. exists r.1.1, r'.1.1, gi, z. rewrite Hrid.
  split; [done|]. split; [injection Hkey as -> _; done|].
  split; [done|].
  assert (arange (length (build_groups og gtc)) !!! gi = float_of_nat gi) as Hgx.
  { apply list_lookup_total_correct, arange_lookup. by eapply lookup_lt_Some. }
  rewrite Hgx in Hx, Hx'. done.
Qed.

Lemma build_row_scatters_x self d sel og gtc r seed :
  sc_x <$> build_row_scatters self d sel og gtc r seed
  = zip_with (λ x z, fadd x (fmul (jitter_width self) z))
      (build_row_centres d sel og gtc r)
      (normals (default_rng seed) (length (build_row_centres d sel og gtc r))).
Proof.
  unfold build_row_scatters, build_row_centres.
  apply row_scatters_x. by rewrite arange_length.
Qed.

Lemma build_row_centres_elem d sel og gtc r x :
  x ∈ build_row_centres d sel og gtc r →
  ∃ gi g, build_groups og gtc !! gi = Some g
    ∧ x = fadd (float_of_nat gi) (compute_offsets (length sel) !!! r.1.1).
Proof.
  unfold build_row_centres, row_centres.
  intros ([gi g] & Hx & Hig)%list_elem_of_bind.
  apply elem_of_enumerate in Hig. simpl in Hig, Hx.
  apply list_elem_of_bind in Hx as (c & Hx & _).
  destruct (isna _); [by apply elem_of_nil in Hx|].
  apply list_elem_of_singleton in Hx as ->.
  exists gi, g. split; [done|]. f_equal.
  apply list_lookup_total_correct, arange_lookup. by eapply lookup_lt_Some.
Qed.

Lemma compute_offsets_increasing K :
  K ≤ 256 → increasing (compute_offsets K) = true.
Proof.
  intros HK.
  assert (forallb (λ K, increasing (compute_offsets K)) (seq 0 257) = true) as Hall
    by (vm_compute; reflexivity).
  rewrite forallb_forall in Hall. apply Hall. apply in_seq. lia.
Qed.

(** C6 (as amended): in every figure [plot] builds, the x-axis carries
    the groups that have at least one checked column, in list-box
    order, at the doubles 0, 1, ..., G-1 (groups without columns take
    no position); there is one sub-offset per selected identifier, the
    same at every group; the only offset is 0 when K = 1; for K > 1 the
    offsets are those of [np.linspace(-0.25, 0.25, K)] in double
    arithmetic: the last is +0.25 and, the step [0.5 / (K - 1)] being an
    ordinary double (it is for K up to 4096), the first is -0.25 and
    the i-th is [i * step + (-0.25)], each operation rounded; they are
    -0.25, +0.25 for K = 2 and -0.25, 0, +0.25 for K = 3, and increase
    for K up to 256.  The box plots of an identifier sit at every group
    position plus the identifier's one offset, and each of its points
    is drawn around that same sum. *)
Theorem group_positions_and_offsets (self : TableVisualiserApp)
    (na : nat → bool) (fig : Figure) :
  (plot_run self na).2 = Shown fig →
  let selected_ids := get_selected_ids self in
  let K := length selected_ids in
  let offsets := compute_offsets K in
  let shown := filter (λ g, has_cols self g = true) (group_listbox self) in
  xticklabels fig = shown
  ∧ xticks fig = float_of_nat <$> seq 0 (length shown)
  ∧ length offsets = K
  ∧ (K = 1 → offsets = [float_of_Z 0])
  ∧ (1 < K → offsets !! (K - 1) = Some (decimal 25 100))
  ∧ (1 < K → ordinary_step K = true →
       offsets !! 0 = Some (decimal (-25) 100)
       ∧ ∀ i, i < K - 1 →
           offsets !! i
           = Some (fadd (fmul (float_of_nat i) (offsets_step K))
                        (decimal (-25) 100)))
  ∧ (1 < K → K ≤ 4096 → ordinary_step K = true)
  ∧ (K = 2 → offsets = [decimal (-25) 100; decimal 25 100])
  ∧ (K = 3 → offsets = [decimal (-25) 100; float_of_Z 0; decimal 25 100])
  ∧ (K ≤ 256 → increasing offsets = true)
  ∧ (∀ bp, bp ∈ boxplots fig →
       ∃ k, selected_ids !! k = Some (bp_rid bp)
            ∧ bp_positions bp = (λ x, fadd x (offsets !!! k)) <$> xticks fig)
  ∧ ∃ d gtc,
      df self = Some d
      ∧ collect_group_cols self (group_listbox self) ∅ = Some gtc
      ∧ let og := group_listbox self in
        let rows := build_rows d selected_ids in
        scatters fig
        = concat (zip_with (build_row_scatters self d selected_ids og gtc) rows
                           (draws (default_rng 2026) (length rows)))
        ∧ (∀ r seed,
             sc_x <$> build_row_scatters self d selected_ids og gtc r seed
             = zip_with (λ x z, fadd x (fmul (jitter_width self) z))
                 (build_row_centres d selected_ids og gtc r)
                 (normals (default_rng seed)
                    (length (build_row_centres d selected_ids og gtc r))))
        ∧ (∀ r x, x ∈ build_row_centres d selected_ids og gtc r →
             ∃ gi g, shown !! gi = Some g
               ∧ x = fadd (float_of_nat gi) (offsets !!! r.1.1)).
Proof.
  intros Hfig selected_ids K offsets shown.
  destruct (plot_run_shown self na fig Hfig)
    as (d & gtc & Hdf & Hgtc & Hsel & _ & -> & _).
  destruct (make_group_plot_closed self d selected_ids (group_listbox self) gtc)
    as (Hlabels & Hticks & _ & Hboxes & _ & Hscatters).
  fold selected_ids in Hsel.
  assert (1 ≤ K) as HK1.
  { subst K. destruct selected_ids; [done|simpl; lia]. }
  pose proof (collect_group_cols_groups self _ gtc Hgtc) as Hshown.
  fold shown in Hshown.
  rewrite Hshown in Hlabels, Hticks, Hboxes.
  split; [done|]. split; [done|].
  split; [by apply compute_offsets_length|].
  split; [intros HK; unfold offsets; by rewrite HK|].
  split; [apply compute_offsets_last|].
  split.
  { intros HK Hstep. split; [by apply compute_offsets_first|].
    intros i Hi. by apply compute_offsets_lookup. }
  split; [apply ordinary_step_checked|].
  split; [intros HK; unfold offsets; rewrite HK; by vm_compute|].
  split; [intros HK; unfold offsets; rewrite HK; by vm_compute|].
  split; [apply compute_offsets_increasing|].
  split.
  { intros bp Hbp. fold selected_ids in Hbp. rewrite Hboxes in Hbp.
    apply list_elem_of_fmap in Hbp as (r & -> & Hr).
    apply build_rows_elem in Hr as [Hk _].
    exists r.1.1. split; [done|]. fold selected_ids. by rewrite Hticks. }
  exists d, gtc. split; [done|]. split; [done|]. simpl.
  split; [done|].
  split; [intros r seed; apply build_row_scatters_x|].
  intros r x Hx. apply build_row_centres_elem in Hx as (gi & g & Hg & ->).
  exists gi, g. split; [|done]. by rewrite Hshown in Hg.
Qed.

(** C10 (as amended): the generator of each resolved identifier is
    seeded with the next draw of the master generator, the n-th resolved
    identifier getting the n-th draw; an identifier that is not in the
    table takes no draw, so inserting one leaves the row and the seed of
    every resolved identifier unchanged.  The j-th point of a row is
    drawn at [centre + jitter_width * z] in double arithmetic, [z] the
    j-th standard normal variate of the generator seeded for the row
    and [centre] the tick of the point's group plus the sub-offset of
    the row, which follows the position of the identifier in the full
    selection.  So with and without the inserted identifier the points
    of a row are the same cells placed by the same variates; only
    their centres differ, by the sub-offsets of the row's two
    positions. *)
Theorem row_seed_is_nth_master_draw (self : TableVisualiserApp) (d : DataFrame)
    (pre : list string) (a : string) (post og : list string)
    (gtc : gmap string (list string)) :
  lower a ∉ lower <$> df_ids d →
  let sel := pre ++ a :: post in
  let rows := build_rows d sel in
  (row_seeds d sel).*1 = row_key <$> rows
  ∧ (row_seeds d sel).*2 = draws (default_rng 2026) (length rows)
  ∧ scatters (make_group_plot self d sel og gtc)
    = concat (zip_with (build_row_scatters self d sel og gtc) rows
                       (row_seeds d sel).*2)
  ∧ row_seeds d sel = row_seeds d (pre ++ post)
  ∧ (∀ r seed,
       sc_x <$> build_row_scatters self d sel og gtc r seed
       = zip_with (λ x z, fadd x (fmul (jitter_width self) z))
           (build_row_centres d sel og gtc r)
           (normals (default_rng seed)
                    (length (build_row_centres d sel og gtc r))))
  ∧ (∀ r x, x ∈ build_row_centres d sel og gtc r →
       ∃ gi g, build_groups og gtc !! gi = Some g
         ∧ x = fadd (float_of_nat gi) (compute_offsets (length sel) !!! r.1.1))
  ∧ Forall2
      (λ p p', scatter_core p = scatter_core p'
               ∧ ∃ k k' gi z,
                   sel !! k = Some (sc_rid p)
                   ∧ (pre ++ post) !! k' = Some (sc_rid p)
                   ∧ build_groups og gtc !! gi = Some (sc_group p)
                   ∧ sc_x p = fadd (fadd (float_of_nat gi)
                                         (compute_offsets (length sel) !!! k))
                                   (fmul (jitter_width self) z)
                   ∧ sc_x p' = fadd (fadd (float_of_nat gi)
                                          (compute_offsets
                                             (length (pre ++ post)) !!! k'))
                                    (fmul (jitter_width self) z))
      (scatters (make_group_plot self d sel og gtc))
      (scatters (make_group_plot self d (pre ++ post) og gtc)).
Proof.
  intros Ha sel rows.
  pose proof (proj2 (idx_map_lookup_None _ _) Ha) as Hnone.
  pose proof (build_rows_insert_unresolved d pre a post Hnone) as Hkeys.
  fold sel in Hkeys.
  assert ((row_seeds d sel).*2 = draws (default_rng 2026) (length rows)) as Hseeds.
  { unfold row_seeds. apply snd_zip. rewrite length_fmap, draws_length. done. }
  split.
  { unfold row_seeds. apply fst_zip. rewrite length_fmap, draws_length. done. }
  split; [done|].
  split.
  { rewrite Hseeds. apply make_group_plot_closed. }
  split.
  { unfold row_seeds. rewrite Hkeys.
    by rewrite <- (length_fmap row_key (build_rows d sel)), Hkeys, length_fmap. }
  split; [intros r seed; apply build_row_scatters_x|].
  split; [intros r x; apply build_row_centres_elem|].
  by apply scatters_shift.
Qed.

End Theorems.

(** * Further properties of the code *)

Section MoreTheorems.
Context `{lib : Library} `{txt : Text}.

(** ** Boxes, points and legends of one build *)

Lemma row_core_values d og (gtc : gmap string (list string)) sc rid i :
  (λ x : string * string * string * float * color, x.1.2)
    <$> row_core d og gtc sc rid i
  = og ≫= (λ g, to_float_list (df_cell d i <$> gtc !!! g)).
Proof.
  unfold row_core. induction og as [|g og IH]; [done|].
  rewrite !bind_cons, fmap_app, IH. f_equal.
  unfold to_float_list, dropna. generalize (gtc !!! g : list string). intros cols.
  induction cols as [|c cols IHc]; [done|].
  rewrite bind_cons, fmap_app, IHc, !fmap_cons, filter_cons.
  destruct (decide (isna (to_numeric (df_cell d i c)) = false)) as [Hna|Hna].
  - by rewrite Hna.
  - apply not_false_is_true in Hna. by rewrite Hna.
Qed.

Lemma filter_bind {A B} (P : B → Prop) `{!∀ x, Decision (P x)}
    (f : A → list B) (l : list A) :
  filter P (l ≫= f) = l ≫= (λ x, filter P (f x)).
Proof.
  induction l as [|x l IH]; [done|].
  by rewrite !bind_cons, filter_app, IH.
Qed.

Lemma filter_of_fmap {A B} (P : B → Prop) `{!∀ x, Decision (P x)}
    (f : A → B) (l : list A) :
  filter P (f <$> l) = f <$> filter (λ x, P (f x)) l.
Proof.
  induction l as [|x l IH]; [done|].
  rewrite fmap_cons, !filter_cons, IH. by destruct (decide (P (f x))).
Qed.

Lemma filter_none {A} (P : A → Prop) `{!∀ x, Decision (P x)} (l : list A) :
  (∀ x, x ∈ l → ¬ P x) → filter P l = [].
Proof.
  induction l as [|x l IH]; intros Hl; [done|].
  rewrite filter_cons_False by (apply Hl, list_elem_of_here).
  apply IH. intros y Hy. apply Hl. by apply list_elem_of_further.
Qed.

Lemma bind_nil_all {A B} (h : A → list B) (l : list A) :
  (∀ x, x ∈ l → h x = []) → l ≫= h = [].
Proof.
  induction l as [|x l IH]; intros Hh; [done|].
  rewrite bind_cons, Hh, IH; [done| |apply list_elem_of_here].
  intros y Hy. apply Hh. by apply list_elem_of_further.
Qed.

Lemma bind_only {A B} (h : A → list B) (l : list A) x0 :
  NoDup l → x0 ∈ l → (∀ x, x ∈ l → x ≠ x0 → h x = []) → l ≫= h = h x0.
Proof.
  induction l as [|x l IH]; intros Hnd Hin Hh; [by apply elem_of_nil in Hin|].
  apply NoDup_cons in Hnd as [Hx Hnd]. rewrite bind_cons.
  apply elem_of_cons in Hin as [->|Hin].
  - rewrite bind_nil_all; [by rewrite app_nil_r|].
    intros y Hy. apply Hh; [by apply list_elem_of_further|]. by intros ->.
  - rewrite (Hh x); [|apply list_elem_of_here|by intros ->]. simpl.
    apply IH; [done..|]. intros z Hz. apply Hh. by apply list_elem_of_further.
Qed.


Lemma group_core_values d (gtc : gmap string (list string)) (sc : gmap string color)
    (rid g : string) i :
  (λ x : string * string * string * float * color, x.1.2)
    <$> ((gtc !!! g : list string) ≫= λ c,
           let v := to_numeric (df_cell d i c) in
           if isna v then [] else [(rid, g, c, v, sc !!! c)])
  = to_float_list (df_cell d i <$> gtc !!! g).
Proof.
  unfold to_float_list, dropna. generalize (gtc !!! g : list string). intros cols.
  induction cols as [|c cols IHc]; [done|].
  rewrite bind_cons, fmap_app, IHc, !fmap_cons, filter_cons.
  destruct (decide (isna (to_numeric (df_cell d i c)) = false)) as [Hna|Hna].
  - by rewrite Hna.
  - apply not_false_is_true in Hna. by rewrite Hna.
Qed.

Lemma group_core_tags d (gtc : gmap string (list string)) (sc : gmap string color)
    (rid g : string) i x :
  x ∈ ((gtc !!! g : list string) ≫= λ c,
         let v := to_numeric (df_cell d i c) in
         if isna v then [] else [(rid, g, c, v, sc !!! c)]) →
  x.1.1.1.1 = rid ∧ x.1.1.1.2 = g.
Proof.
  intros (c & Hx & _)%list_elem_of_bind. simpl in Hx.
  destruct (isna (to_numeric (df_cell d i c))); [by apply elem_of_nil in Hx|].
  apply list_elem_of_singleton in Hx. by subst x.
Qed.

Lemma build_rows_keys_NoDup d sel : NoDup sel → NoDup (row_key <$> build_rows d sel).
Proof.
  intros Hnd. apply (NoDup_fmap_1 fst).
  rewrite <- list_fmap_compose.
  change (fst ∘ row_key) with (λ r : nat * string * nat, r.1.2).
  rewrite build_rows_rids. by apply NoDup_filter.
Qed.

Lemma build_rows_key_rid d sel r r' :
  r ∈ build_rows d sel → r' ∈ build_rows d sel →
  r.1.2 = r'.1.2 → row_key r = row_key r'.
Proof.
  intros [_ Hr]%build_rows_elem [_ Hr']%build_rows_elem Heq.
  unfold row_key. rewrite Heq in Hr |- *. f_equal. congruence.
Qed.

(** X1: in every build on a selection and a group list without
    repetition, each box-plot call has one data list and one position per
    drawn group, and the data list of a group holds exactly the y-values
    of the scatter points drawn for the same identifier in that group, in
    the same order: boxes and points show the same numbers. *)
Theorem box_data_are_point_values (self : TableVisualiserApp) (d : DataFrame)
    (selected_ids og : list string) (gtc : gmap string (list string)) :
  NoDup selected_ids → NoDup og →
  let fig := make_group_plot self d selected_ids og gtc in
  let shown := build_groups og gtc in
  ∀ bp, bp ∈ boxplots fig →
    length (bp_data bp) = length shown
    ∧ length (bp_positions bp) = length shown
    ∧ ∀ gi g, shown !! gi = Some g →
        bp_data bp !! gi
        = Some (sc_y <$> filter (λ p, sc_rid p = bp_rid bp ∧ sc_group p = g)
                                (scatters fig)).
Proof.
  intros Hsel Hog fig shown bp (r0 & Hr0 & ->)%boxplots_of_build.
  fold shown. simpl.
  split; [by rewrite length_fmap|].
  split; [by rewrite length_fmap, arange_length|].
  intros gi g Hg. rewrite list_lookup_fmap, Hg. simpl. f_equal.
  set (P := λ x : string * string * string * float * color,
              x.1.1.1.1 = r0.1.2 ∧ x.1.1.1.2 = g).
  transitivity ((λ x : string * string * string * float * color, x.1.2)
                  <$> filter P (scatter_core <$> scatters fig)).
  2:{ rewrite filter_of_fmap, <- list_fmap_compose. done. }
  unfold fig. rewrite scatter_cores_of_build, filter_bind.
  fold shown.
  rewrite (bind_only _ _ (row_key r0)).
  - unfold row_core. simpl. rewrite filter_bind.
    rewrite (bind_only _ _ g).
    + rewrite filter_all; [by rewrite group_core_values|].
      apply Forall_forall. intros x Hx. by apply group_core_tags in Hx.
    + by apply NoDup_filter.
    + by eapply list_elem_of_lookup_2.
    + intros g' _ Hne. apply filter_none.
      intros x Hx [_ Hxg]. apply group_core_tags in Hx as [_ Hx]. congruence.
  - by apply build_rows_keys_NoDup.
  - apply list_elem_of_fmap. eauto.
  - intros ri (r & -> & Hr)%list_elem_of_fmap Hne.
    apply filter_none. intros x Hx [Hrid _].
    apply Hne. apply (build_rows_key_rid d selected_ids); [done..|].
    unfold row_core in Hx. apply list_elem_of_bind in Hx as (g' & Hx & _).
    apply group_core_tags in Hx as [Hx _]. simpl in Hx. congruence.
Qed.


(** X2: every scatter point of a build is drawn in the colour that the
    sample legend shows for its column and with the marker that the row
    legend shows for its identifier; so two points of the same column
    have the same colour, whatever their group and identifier, and two
    points of the same identifier have the same marker. *)
Theorem points_match_legends (self : TableVisualiserApp) (d : DataFrame)
    (selected_ids og : list string) (gtc : gmap string (list string)) :
  let fig := make_group_plot self d selected_ids og gtc in
  ∀ p, p ∈ scatters fig →
    (∃ h, h ∈ leg_samples fig ∧ l2d_label h = sc_sample p
          ∧ l2d_color h = sc_color p)
    ∧ (∃ h, h ∈ leg_shapes fig ∧ l2d_label h = sc_rid p
            ∧ l2d_marker h = sc_marker p)
    ∧ (∀ q, q ∈ scatters fig →
         (sc_sample q = sc_sample p → sc_color q = sc_color p)
         ∧ (sc_rid q = sc_rid p → sc_marker q = sc_marker p)).
Proof.
  intros fig p Hp.
  destruct (make_group_plot_closed self d selected_ids og gtc)
    as (_ & _ & Hsamples & _ & Hshapes & _).
  fold fig in Hsamples, Hshapes.
  apply scatters_of_build in Hp as (r & Hr & Hrid & Hm & Hg & Hc & Hcol & _).
  split; [|split].
  - exists {| l2d_marker := "o";
              l2d_color := compute_sample_color (build_sample_order og gtc)
                             !!! sc_sample p;
              l2d_label := sc_sample p |}.
    split; [|by rewrite Hcol].
    rewrite Hsamples. apply list_elem_of_fmap. eexists. split; [done|].
    apply elem_of_sample_order. eauto.
  - exists (row_handle (compute_id_marker (id_markers self) selected_ids) r).
    split; [|by rewrite Hrid, Hm].
    rewrite Hshapes. apply list_elem_of_fmap. eauto.
  - intros q (r' & _ & Hrid' & Hm' & _ & _ & Hcol' & _)%scatters_of_build.
    split; intros Heq; congruence.
Qed.

Lemma id_marker_notin markers sel rid :
  rid ∉ sel → compute_id_marker markers sel !! rid = None.
Proof.
  intros Hn. unfold compute_id_marker, enumerate.
  by rewrite (assign_fold_notin (λ i, markers !!! (i mod length markers))
                sel rid 0 ∅).
Qed.

(** X3: with the palette of the program, at most 14 selected identifiers
    (none repeated) get pairwise different markers. *)
Theorem markers_distinct_up_to_14 (selected_ids : list string) :
  NoDup selected_ids → length selected_ids ≤ 14 →
  ∀ r1 r2 m,
    compute_id_marker init_id_markers selected_ids !! r1 = Some m →
    compute_id_marker init_id_markers selected_ids !! r2 = Some m →
    r1 = r2.
Proof.
  intros Hnd Hlen r1 r2 m H1 H2.
  assert (∀ r, compute_id_marker init_id_markers selected_ids !! r = Some m →
               ∃ i, selected_ids !! i = Some r ∧ init_id_markers !! i = Some m)
    as Hidx.
  { intros r Hr. destruct (decide (r ∈ selected_ids)) as [Hin|Hout].
    - apply list_elem_of_lookup in Hin as [i Hi]. exists i. split; [done|].
      pose proof (lookup_lt_Some _ _ _ Hi) as Hlt.
      rewrite (id_marker_lookup init_id_markers selected_ids i r) in Hr by done.
      assert (m = init_id_markers !!! (i mod length init_id_markers)) as ->
        by congruence.
      change (length init_id_markers) with 14.
      rewrite Nat.mod_small by lia.
      apply list_lookup_lookup_total_lt. change (length init_id_markers) with 14. lia.
    - by rewrite id_marker_notin in Hr. }
  destruct (Hidx r1 H1) as (i1 & Hr1 & Hm1).
  destruct (Hidx r2 H2) as (i2 & Hr2 & Hm2).
  assert (i1 = i2)
    by (eapply (NoDup_lookup init_id_markers); [apply init_id_markers_NoDup|done..]).
  congruence.
Qed.


(** ** Loading *)

(** X4: [detect_id_column] returns the first column whose stripped,
    lower-cased label is one of the likely names and, when there is
    none, the first column; it fails only on an empty list of columns. *)
Theorem detect_id_column_first_likely (cols : list string) :
  (detect_id_column cols = None ↔ cols = [])
  ∧ ∀ c, detect_id_column cols = Some c →
      ∃ i, cols !! i = Some c
        ∧ (∀ j c', cols !! j = Some c' → j < i →
                   lower (strip c') ∉ likely_names)
        ∧ (lower (strip c) ∈ likely_names
           ∨ (i = 0 ∧ Forall (λ c', lower (strip c') ∉ likely_names) cols)).
Proof.
  unfold detect_id_column.
  destruct (list_find _ cols) as [[i c0]|] eqn:Hfind.
  - apply list_find_Some in Hfind as (Hi & Hc0 & Hmin). split.
    + split; [done|]. intros ->. done.
    + intros c [= <-]. exists i. split; [done|]. split; [|by left].
      intros j c' Hj Hlt. by eapply Hmin.
  - apply list_find_None in Hfind. split.
    + destruct cols; [done|]. split; done.
    + intros c Hc. exists 0. split; [done|]. split; [intros; lia|]. by right.
Qed.

Lemma detect_id_column_elem cols c :
  detect_id_column cols = Some c → c ∈ cols.
Proof.
  intros Hc. apply detect_id_column_first_likely in Hc as (i & Hi & _).
  by eapply list_elem_of_lookup_2.
Qed.

Lemma length_filter_ne (l : list string) c :
  NoDup l → c ∈ l → length (filter (λ c', c' ≠ c) l) = length l - 1.
Proof.
  induction l as [|x l IH]; intros Hnd Hc; [by apply elem_of_nil in Hc|].
  apply NoDup_cons in Hnd as [Hx Hnd]. rewrite filter_cons.
  apply elem_of_cons in Hc as [->|Hc].
  - rewrite decide_False by (intros H; by apply H).
    rewrite filter_all; [simpl; lia|].
    apply Forall_forall. intros y Hy ->. done.
  - rewrite decide_True by (intros ->; done). simpl. rewrite IH by done.
    apply list_elem_of_lookup in Hc as [i Hi]. apply lookup_lt_Some in Hi. lia.
Qed.

(** X5: the loading worker refuses a table with fewer than two columns
    and then changes nothing; otherwise the identifier column it picks
    is a column of the table, the value columns are the other columns in
    table order (one fewer when the labels are distinct), there is one
    identifier string per row, and ticked identifiers and groups are as
    before. *)
Theorem load_worker_splits_columns (s : Gui) (t : Frame) :
  (length (columns t) < 2 →
   load_dataset_worker s t = None ∧ load_dataset s t = Some s)
  ∧ (2 ≤ length (columns t) →
     ∃ s' c, load_dataset_worker s t = Some s'
       ∧ id_col s' = Some c ∧ c ∈ columns t
       ∧ (∀ c', c' ∈ value_cols s' ↔ c' ∈ columns t ∧ c' ≠ c)
       ∧ value_cols s' `sublist_of` columns t
       ∧ (NoDup (columns t) → length (value_cols s') = length (columns t) - 1)
       ∧ length (id_list_all s') = nrows t
       ∧ (df_ids <$> df (app s')) = Some (id_list_all s')
       ∧ id_vars (app s') = id_vars (app s)
       ∧ groups (app s') = groups (app s)
       ∧ group_listbox (app s') = group_listbox (app s)).
Proof.
  split.
  - intros Hlt. unfold load_dataset, load_dataset_worker.
    by rewrite decide_True.
  - intros Hge. unfold load_dataset_worker. rewrite decide_False by lia.
    destruct (detect_id_column (columns t)) as [c|] eqn:Hc.
    2:{ apply detect_id_column_first_likely in Hc. rewrite Hc in Hge.
        simpl in Hge. lia. }
    pose proof (detect_id_column_elem _ _ Hc) as Hin.
    eexists _, c. split; [done|]. simpl.
    split; [done|]. split; [done|].
    split; [intros c'; by rewrite list_elem_of_filter, (comm and)|].
    split; [apply sublist_filter|].
    split; [intros Hnd; by apply length_filter_ne|].
    split; [unfold column_as_str; by rewrite length_fmap, length_seq|].
    done.
Qed.


(** ** The identifier check boxes *)

Lemma search_ids_closed query max ids : ∀ shown,
  length shown < max `max` 1 →
  search_ids query max ids shown
  = shown ++ take (max `max` 1 - length shown)
                  (filter (λ rid, contains query (lower rid) = true) ids).
Proof.
  induction ids as [|rid ids IH]; intros shown Hlt; simpl.
  - rewrite filter_nil, take_nil. by rewrite app_nil_r.
  - rewrite filter_cons.
    destruct (contains query (lower rid)) eqn:Hc.
    + destruct (decide (true = true)); [|done]. rewrite length_app. simpl.
      case_decide as Hmax.
      * replace (max `max` 1 - length shown) with 1 by lia. done.
      * rewrite IH by (rewrite length_app; simpl; lia).
        rewrite length_app. simpl.
        replace (max `max` 1 - length shown)
          with (S (max `max` 1 - (length shown + 1))) by lia.
        simpl. by rewrite <- app_assoc.
    + destruct (decide (false = true)); [done|]. by apply IH.
Qed.

Lemma add_id_vars_closed shown : ∀ vars,
  ∃ extra, foldl add_id_var vars shown = vars ++ extra
    ∧ Forall (λ kv, kv.2 = false) extra
    ∧ (∀ r, r ∈ extra.*1 → r ∈ shown ∧ r ∉ vars.*1)
    ∧ (∀ r, r ∈ shown → r ∈ (vars ++ extra).*1)
    ∧ (NoDup vars.*1 → NoDup (vars ++ extra).*1).
Proof.
  induction shown as [|rid shown IH]; intros vars; simpl.
  - exists []. rewrite app_nil_r.
    split; [done|]. split; [constructor|].
    split; [intros r Hr; by apply elem_of_nil in Hr|].
    split; [intros r Hr; by apply elem_of_nil in Hr|done].
  - destruct (decide (rid ∈ vars.*1)) as [Hin|Hout].
    + replace (add_id_var vars rid) with vars
        by (unfold add_id_var; by rewrite decide_True).
      destruct (IH vars) as (extra & Heq & Hf & Hk & Hs & Hnd).
      exists extra. split; [done|]. split; [done|].
      split.
      { intros r Hr. apply Hk in Hr as [? ?].
        split; [by apply list_elem_of_further|done]. }
      split; [|done].
      intros r [->|Hr]%elem_of_cons; [|by apply Hs].
      rewrite fmap_app, elem_of_app. by left.
    + replace (add_id_var vars rid) with (vars ++ [(rid, false)])
        by (unfold add_id_var; by rewrite decide_False).
      destruct (IH (vars ++ [(rid, false)])) as (extra & Heq & Hf & Hk & Hs & Hnd).
      exists ((rid, false) :: extra). rewrite Heq, <- app_assoc. simpl.
      split; [done|]. split; [by constructor|].
      split.
      { intros r [->|Hr]%elem_of_cons.
        - split; [apply list_elem_of_here|done].
        - apply Hk in Hr as [? Hr]. split; [by apply list_elem_of_further|].
          intros Hv. apply Hr. rewrite fmap_app, elem_of_app. by left. }
      split.
      { intros r [->|Hr]%elem_of_cons.
        - rewrite fmap_app, elem_of_app. right. apply list_elem_of_here.
        - specialize (Hs r Hr). by rewrite <- app_assoc in Hs. }
      intros Hv. rewrite <- app_assoc in Hnd. apply Hnd.
      rewrite fmap_app. apply NoDup_app. split; [done|]. split.
      * intros x Hx [->|[]%elem_of_nil]%elem_of_cons. done.
      * apply NoDup_singleton.
Qed.

Lemma add_id_vars_known shown vars :
  (∀ rid, rid ∈ shown → rid ∈ vars.*1) → foldl add_id_var vars shown = vars.
Proof.
  induction shown as [|rid shown IH]; intros Hs; simpl; [done|].
  replace (add_id_var vars rid) with vars
    by (unfold add_id_var; rewrite decide_True; [done|apply Hs, list_elem_of_here]).
  apply IH. intros r Hr. by apply Hs, list_elem_of_further.
Qed.

Lemma selected_app_unticked (vars extra : list (string * bool)) :
  Forall (λ kv, kv.2 = false) extra →
  (filter (λ rv, rv.2 = true) (vars ++ extra)).*1
  = (filter (λ rv, rv.2 = true) vars).*1.
Proof.
  intros Hf. rewrite filter_app.
  rewrite (filter_none _ extra), app_nil_r; [done|].
  intros kv Hkv. eapply Forall_forall in Hf; [|done]. congruence.
Qed.

Lemma refresh_shown s d :
  df (app s) = Some d → ids_shown (refresh_id_checkboxes s) = shown_for s.
Proof.
  intros Hd. unfold refresh_id_checkboxes, shown_for. rewrite Hd. simpl.
  case_decide; [done|]. rewrite search_ids_closed by (simpl; lia).
  simpl. by rewrite Nat.sub_0_r.
Qed.


Lemma refresh_id_vars s :
  ∃ extra, id_vars (app (refresh_id_checkboxes s)) = id_vars (app s) ++ extra
    ∧ Forall (λ kv, kv.2 = false) extra
    ∧ (∀ r, r ∈ ids_shown (refresh_id_checkboxes s) →
            r ∈ (id_vars (app s) ++ extra).*1 ∨ df (app s) = None)
    ∧ (NoDup (id_vars (app s)).*1 → NoDup (id_vars (app s) ++ extra).*1).
Proof.
  unfold refresh_id_checkboxes. destruct (df (app s)) as [d|].
  - simpl.
    match goal with |- context [foldl add_id_var ?v ?sh] =>
      destruct (add_id_vars_closed sh v) as (extra & Heq & Hf & _ & Hs & Hnd) end.
    exists extra. rewrite Heq. split; [done|]. split; [done|].
    split; [intros r Hr; left; by apply Hs|done].
  - exists []. rewrite app_nil_r. split; [done|]. split; [constructor|].
    split; [by right|done].
Qed.

Lemma shown_for_bound s :
  shown_for s `sublist_of` id_list_all s
  ∧ length (shown_for s) ≤ max_ids_shown s `max` 1.
Proof.
  unfold shown_for. case_decide.
  - split; [apply sublist_take|]. rewrite length_take. lia.
  - split; [etrans; [apply sublist_take|apply sublist_filter]|].
    rewrite length_take. lia.
Qed.

Lemma search_ids_run_closed query max raw : ∀ shown,
  length shown < max `max` 1 →
  let budget := max `max` 1 - length shown in
  (search_ids_run query max raw shown = Raised AttributeError
   ↔ ∃ i, raw !! i = Some None
        ∧ length (filter (λ r, matches query r = true) (take i raw)) < budget)
  ∧ (∀ e, search_ids_run query max raw shown = Raised e → e = AttributeError)
  ∧ (∀ l, search_ids_run query max raw shown = Ok l →
       l = shown ++ take budget (filter (λ r, matches query r = true) raw)).
Proof.
  induction raw as [|[rid|] raw IH]; intros shown Hlt budget.
  - simpl. split; [split; [done|by intros (i & ? & _)]|].
    split; [done|]. intros l [= <-]. by rewrite filter_nil, take_nil, app_nil_r.
  - cbn [search_ids_run]. rewrite filter_cons. cbn [matches].
    destruct (contains query (lower rid)) eqn:Hc.
    + rewrite (decide_True (P:=true = true)) by done. rewrite length_app. cbn [length].
      case_decide as Hmax.
      * assert (budget = 1) as -> by (unfold budget; lia).
        split.
        { split; [done|]. intros ([|i] & Hi & Hn); [done|].
          simpl in Hn. rewrite filter_cons in Hn. cbn [matches] in Hn.
          rewrite Hc in Hn. rewrite decide_True in Hn by done. simpl in Hn. lia. }
        split; [done|]. by intros l [= <-].
      * destruct (IH (shown ++ [Some rid])) as (Hr & He & Hok).
        { rewrite length_app. simpl. lia. }
        rewrite length_app in Hr, Hok. cbn [length] in Hr, Hok.
        split.
        { rewrite Hr. split.
          - intros (i & Hi & Hn). exists (S i). split; [done|].
            simpl. rewrite filter_cons. cbn [matches]. rewrite Hc.
            rewrite decide_True by done. simpl. unfold budget. lia.
          - intros ([|i] & Hi & Hn); [done|]. exists i. split; [done|].
            simpl in Hn. rewrite filter_cons in Hn. cbn [matches] in Hn.
            rewrite Hc in Hn. rewrite decide_True in Hn by done. simpl in Hn.
            unfold budget in Hn. lia. }
        split; [done|].
        intros l Hl. rewrite (Hok l Hl), <- app_assoc. simpl.
        replace budget with (S (max `max` 1 - (length shown + 1)))
          by (unfold budget; lia).
        done.
    + rewrite (decide_False (P:=false = true)) by done.
      destruct (IH shown Hlt) as (Hr & He & Hok). fold budget in Hr, Hok.
      split; [|done]. rewrite Hr. split.
      * intros (i & Hi & Hn). exists (S i). split; [done|].
        simpl. rewrite filter_cons. cbn [matches]. rewrite Hc.
        by rewrite decide_False by done.
      * intros ([|i] & Hi & Hn); [done|]. exists i. split; [done|].
        simpl in Hn. rewrite filter_cons in Hn. cbn [matches] in Hn.
        rewrite Hc in Hn. by rewrite decide_False in Hn by done.
  - cbn [search_ids_run]. split.
    { split; [intros _|done]. exists 0. split; [done|]. simpl. unfold budget. lia. }
    split; [by intros e [= <-]|done].
Qed.

Lemma search_ids_run_strings query max ids : ∀ (na : nat → bool) shown l,
  search_ids_run query max (imap (λ i rid, if na i then None else Some rid) ids)
                 (Some <$> shown) = Ok l →
  l = Some <$> search_ids query max ids shown.
Proof.
  induction ids as [|rid ids IH]; intros na shown l; simpl.
  - by intros [= <-].
  - destruct (na 0); [done|].
    destruct (contains query (lower rid)).
    + replace ((Some <$> shown) ++ [Some rid]) with (Some <$> (shown ++ [rid]))
        by by rewrite fmap_app.
      rewrite !length_fmap. case_decide; [by intros [= <-]|]. apply IH.
    + apply IH.
Qed.

Lemma take_imap_strings n ids : ∀ (na : nat → bool) (l : list string),
  take n (imap (λ i rid, if na i then None else Some rid) ids) = Some <$> l →
  take n ids = l.
Proof.
  revert n. induction ids as [|rid ids IH]; intros n na l; simpl.
  - rewrite !take_nil. by destruct l.
  - destruct n as [|n]; simpl; [by destruct l|].
    destruct l as [|x l]; [done|]. simpl.
    destruct (na 0); [done|]. intros [= -> Hl]. f_equal. exact (IH n (na ∘ S) l Hl).
Qed.

Lemma imap_no_na {A} (na : nat → bool) (ids : list A) :
  (∀ i, i < length ids → na i = false) →
  imap (λ i rid, if na i then None else Some rid) ids = Some <$> ids.
Proof.
  revert na. induction ids as [|rid ids IH]; intros na Hna; simpl; [done|].
  rewrite (Hna 0) by (simpl; lia). f_equal.
  apply (IH (na ∘ S)). intros i Hi. apply Hna. simpl. lia.
Qed.

(** X6: with a dataset loaded, the list [shown] that
    [refresh_id_checkboxes] computes, [None] standing for an identifier
    that is the float nan (a missing identifier under pandas 3).  With
    a blank query it is the first [max_ids_shown] entries, whatever
    they are, and nothing is raised.  With another query the loop
    raises [AttributeError], and nothing else, exactly when it meets
    such an identifier before it has found [max_ids_shown] matches
    (one, if that were 0); otherwise the list is the first
    [max_ids_shown] identifiers, in table order, whose lower-cased text
    contains the stripped, lower-cased query.  When no identifier of
    the table is missing, and more generally whenever the list holds
    strings only, it is the list of check boxes of the state after the
    call, which then has these properties: it is a sublist of the
    identifiers, never longer than [max_ids_shown] (one, if that were
    0), and every identifier shown has its variable in [id_vars]. *)
Theorem refresh_shows_first_matches (s : Gui) (d : DataFrame) (na : nat → bool) :
  df (app s) = Some d →
  let s' := refresh_id_checkboxes s in
  let query := lower (strip (id_search_var s)) in
  let raw := id_list_raw s na in
  (query = "" → shown_run s na = Ok (take (max_ids_shown s) raw))
  ∧ (query ≠ "" →
     (shown_run s na = Raised AttributeError
      ↔ ∃ i, raw !! i = Some None
           ∧ length (filter (λ r, matches query r = true) (take i raw))
             < max_ids_shown s `max` 1)
     ∧ (∀ e, shown_run s na = Raised e → e = AttributeError)
     ∧ (∀ l, shown_run s na = Ok l →
          l = take (max_ids_shown s `max` 1)
                   (filter (λ r, matches query r = true) raw)))
  ∧ ((∀ i, i < length (id_list_all s) → na i = false) →
     shown_run s na = Ok (Some <$> ids_shown s'))
  ∧ (∀ l, shown_run s na = Ok (Some <$> l) → ids_shown s' = l)
  ∧ (query = "" → ids_shown s' = take (max_ids_shown s) (id_list_all s))
  ∧ (query ≠ "" →
     ids_shown s'
     = take (max_ids_shown s `max` 1)
            (filter (λ rid, contains query (lower rid) = true) (id_list_all s)))
  ∧ ids_shown s' `sublist_of` id_list_all s
  ∧ length (ids_shown s') ≤ max_ids_shown s `max` 1
  ∧ (∀ rid, rid ∈ ids_shown s' → rid ∈ (id_vars (app s')).*1).
Proof.
  intros Hd s' query raw.
  assert (ids_shown s' = shown_for s) as Hshown by by eapply refresh_shown.
  assert (ids_shown s'
          = if decide (query = "") then take (max_ids_shown s) (id_list_all s)
            else search_ids query (max_ids_shown s) (id_list_all s) []) as Hloop.
  { unfold s', refresh_id_checkboxes. rewrite Hd. done. }
  split; [intros Hq; unfold shown_run; fold query; by rewrite decide_True|].
  split.
  { intros Hq. unfold shown_run. fold query raw. rewrite decide_False by done.
    destruct (search_ids_run_closed query (max_ids_shown s) raw [])
      as (Hr & He & Hok); [simpl; lia|].
    simpl in Hr, Hok. rewrite Nat.sub_0_r in Hr, Hok. done. }
  split.
  { intros Hna. unfold shown_run. fold query.
    unfold id_list_raw. rewrite (imap_no_na na _ Hna). rewrite Hloop.
    case_decide; [by rewrite fmap_take|].
    destruct (search_ids_run_closed query (max_ids_shown s)
                (Some <$> id_list_all s) []) as (Hr & He & Hok); [simpl; lia|].
    destruct (search_ids_run query (max_ids_shown s) (Some <$> id_list_all s) [])
      as [l|e] eqn:Hrun.
    - f_equal. apply (search_ids_run_strings query (max_ids_shown s)
                        (id_list_all s) (λ _, false) [] l).
      rewrite (imap_no_na (λ _, false)) by done. done.
    - pose proof (He e eq_refl) as ->.
      destruct (proj1 Hr eq_refl) as (i & Hi & _).
      rewrite list_lookup_fmap in Hi. by destruct (id_list_all s !! i). }
  split.
  { intros l. unfold shown_run. fold query. rewrite Hloop. unfold id_list_raw.
    case_decide.
    - intros [= Hl]. by apply take_imap_strings in Hl.
    - intros Hl. apply (search_ids_run_strings _ _ _ na [] _) in Hl.
      by apply (inj (fmap Some)) in Hl. }
  split; [intros Hq; rewrite Hshown; unfold shown_for; by rewrite decide_True|].
  split; [intros Hq; rewrite Hshown; unfold shown_for; by rewrite decide_False|].
  rewrite Hshown. split; [apply shown_for_bound|]. split; [apply shown_for_bound|].
  intros rid Hrid. rewrite <- Hshown in Hrid.
  destruct (refresh_id_vars s) as (extra & Heq & _ & Hs & _).
  fold s' in Heq, Hs. rewrite Heq.
  destruct (Hs rid Hrid) as [?|?]; [done|congruence].
Qed.

(** X7: refreshing the check boxes never changes a tick: the variables
    that exist keep their values and the new ones start unticked, so the
    selected identifiers are the same before and after, also those the
    search no longer shows; and refreshing twice is refreshing once. *)
Theorem refresh_keeps_ticks (s : Gui) :
  let s' := refresh_id_checkboxes s in
  get_selected_ids (app s') = get_selected_ids (app s)
  ∧ (∃ extra, id_vars (app s') = id_vars (app s) ++ extra
       ∧ Forall (λ kv, kv.2 = false) extra)
  ∧ refresh_id_checkboxes s' = s'.
Proof.
  intros s'. destruct (refresh_id_vars s) as (extra & Heq & Hf & Hs & _).
  fold s' in Heq, Hs.
  split; [unfold get_selected_ids; rewrite Heq; by apply selected_app_unticked|].
  split; [by exists extra|].
  destruct (df (app s)) as [d|] eqn:Hd.
  2:{ subst s'. unfold refresh_id_checkboxes. rewrite Hd. simpl. by rewrite Hd. }
  assert (df (app s') = Some d) as Hd'.
  { subst s'. unfold refresh_id_checkboxes. by rewrite Hd. }
  assert (shown_for s' = shown_for s) as Hsame.
  { subst s'. unfold refresh_id_checkboxes. by rewrite Hd. }
  pose proof (refresh_shown s d Hd) as Hshown. fold s' in Hshown.
  assert (∀ r, r ∈ shown_for s → r ∈ (id_vars (app s')).*1) as Hknown.
  { intros r Hr. rewrite <- Hshown in Hr. destruct (Hs r Hr) as [?|?]; [|congruence].
    by rewrite Heq. }
  pose proof (refresh_shown s' d Hd') as Hshown'.
  unfold refresh_id_checkboxes at 1. rewrite Hd'.
  unfold refresh_id_checkboxes in Hshown'. rewrite Hd' in Hshown'. simpl in Hshown'.
  cbv zeta. rewrite Hshown', Hsame.
  rewrite add_id_vars_known by done.
  subst s'. unfold refresh_id_checkboxes. rewrite Hd. unfold with_shown. simpl.
  f_equal. fold (shown_for s). symmetry.
  rewrite <- (refresh_shown s d Hd). unfold refresh_id_checkboxes. by rewrite Hd.
Qed.


Lemma set_var_keys key b vars vars' :
  set_var key b vars = Some vars' → vars'.*1 = vars.*1.
Proof.
  unfold set_var. case_decide; [|done]. intros [= <-].
  rewrite <- list_fmap_compose. apply list_fmap_ext.
  intros i [k v] _. simpl. by case_decide.
Qed.

Lemma set_vars_closed (b : bool) shown : ∀ vars,
  (∀ r, r ∈ shown → r ∈ vars.*1) →
  foldl (λ acc rid, acc ≫= set_var rid b) (Some vars) shown
  = Some ((λ kv, if decide (kv.1 ∈ shown) then (kv.1, b) else kv) <$> vars).
Proof.
  induction shown as [|rid shown IH]; intros vars Hs; simpl.
  - f_equal. symmetry. etrans; [|apply list_fmap_id].
    apply list_fmap_ext. intros i kv _.
    destruct (decide (kv.1 ∈ [])) as [H%elem_of_nil|]; done.
  - destruct (set_var rid b vars) as [vars'|] eqn:Hset.
    2:{ unfold set_var in Hset. rewrite decide_True in Hset; [done|].
        apply Hs, list_elem_of_here. }
    rewrite IH.
    2:{ intros r Hr. rewrite (set_var_keys _ _ _ _ Hset).
        by apply Hs, list_elem_of_further. }
    f_equal. unfold set_var in Hset. case_decide; [|done].
    injection Hset as <-. rewrite <- list_fmap_compose.
    apply list_fmap_ext. intros i [k v] _. simpl.
    destruct (decide (k = rid)) as [->|Hne]; simpl.
    + rewrite (decide_True (P := rid ∈ rid :: shown)) by apply list_elem_of_here.
      by case_decide.
    + destruct (decide (k ∈ shown)) as [Hin|Hout].
      * rewrite (decide_True (P := k ∈ rid :: shown))
          by (by apply list_elem_of_further).
        done.
      * rewrite (decide_False (P := k ∈ rid :: shown)); [done|].
        by intros [?|?]%elem_of_cons.
Qed.

Lemma selected_after_clear (shown : list string) (vars : list (string * bool)) :
  (filter (λ rv, rv.2 = true)
     ((λ kv, if decide (kv.1 ∈ shown) then (kv.1, false) else kv) <$> vars)).*1
  = filter (λ r, r ∉ shown) (filter (λ rv, rv.2 = true) vars).*1.
Proof.
  induction vars as [|[k v] vars IH]; [done|].
  rewrite fmap_cons. cbn [fst snd].
  destruct (decide (k ∈ shown)) as [Hin|Hout].
  - rewrite filter_cons_False by (simpl; done). rewrite IH.
    destruct v.
    + rewrite (filter_cons_True _ (k, true)) by done.
      rewrite fmap_cons. cbn [fst]. rewrite filter_cons_False; [done|].
      by intros ?.
    + by rewrite (filter_cons_False _ (k, false)) by (simpl; done).
  - destruct v.
    + rewrite !(filter_cons_True _ (k, true)) by done.
      rewrite !fmap_cons. cbn [fst]. rewrite filter_cons_True by done.
      by rewrite IH.
    + rewrite !(filter_cons_False _ (k, false)) by (simpl; done). done.
Qed.

Lemma selected_after_select (shown : list string) (vars : list (string * bool)) rid :
  rid ∈ (filter (λ rv, rv.2 = true)
           ((λ kv, if decide (kv.1 ∈ shown) then (kv.1, true) else kv) <$> vars)).*1
  ↔ (rid ∈ shown ∧ rid ∈ vars.*1) ∨ rid ∈ (filter (λ rv, rv.2 = true) vars).*1.
Proof.
  rewrite !list_elem_of_fmap. split.
  - intros ([k v] & -> & Hin). apply list_elem_of_filter in Hin as [Hv Hin].
    simpl in Hv. subst v.
    apply list_elem_of_fmap in Hin as ([k' v'] & Heq & Hin). simpl in Heq.
    destruct (decide (k' ∈ shown)) as [Hs|Hs]; simplify_eq.
    + left. split; [done|]. by exists (k', v').
    + right. exists (k', true). split; [done|]. apply list_elem_of_filter.
      split; [done|done].
  - intros [[Hs ([k v] & -> & Hin)]|([k v] & -> & Hin)].
    + exists (k, true). split; [done|]. apply list_elem_of_filter. split; [done|].
      apply list_elem_of_fmap. exists (k, v). split; [|done]. simpl.
      by rewrite decide_True.
    + apply list_elem_of_filter in Hin as [Hv Hin]. simpl in Hv. subst v.
      exists (k, true). split; [done|]. apply list_elem_of_filter. split; [done|].
      apply list_elem_of_fmap. exists (k, true). split; [|done]. simpl.
      by case_decide.
Qed.

(** X8: when every identifier shown has its variable, "Select all shown"
    and "Clear shown" raise nothing and change the ticks of the shown
    identifiers only: after "Select all shown" the selection is what was
    selected plus what is shown; after "Clear shown" it is what was
    selected minus what is shown, so a ticked identifier that the search
    hides stays selected. *)
Theorem select_and_clear_shown (s : Gui) :
  (∀ rid, rid ∈ ids_shown s → rid ∈ (id_vars (app s)).*1) →
  (∃ s1, select_all_shown_ids s = Some s1
     ∧ (id_vars (app s1)).*1 = (id_vars (app s)).*1
     ∧ ∀ rid, rid ∈ get_selected_ids (app s1) ↔
              rid ∈ ids_shown s ∨ rid ∈ get_selected_ids (app s))
  ∧ (∃ s0, clear_all_shown_ids s = Some s0
       ∧ (id_vars (app s0)).*1 = (id_vars (app s)).*1
       ∧ get_selected_ids (app s0)
         = filter (λ rid, rid ∉ ids_shown s) (get_selected_ids (app s))).
Proof.
  intros Hs. unfold select_all_shown_ids, clear_all_shown_ids, set_shown_ids.
  rewrite !set_vars_closed by done. split.
  - eexists. split; [done|]. simpl. split.
    + rewrite <- list_fmap_compose. apply list_fmap_ext.
      intros i [k v] _. simpl. by case_decide.
    + intros rid. unfold get_selected_ids. simpl.
      rewrite selected_after_select. split; [tauto|].
      intros [H|H]; [left; split; [done|by apply Hs]|by right].
  - eexists. split; [done|]. simpl. split.
    + rewrite <- list_fmap_compose. apply list_fmap_ext.
      intros i [k v] _. simpl. by case_decide.
    + apply selected_after_clear.
Qed.


(** ** Groups *)

Lemma render_same s s' : render_active_group_columns s = Some s' → s' = s.
Proof.
  unfold render_active_group_columns.
  destruct (active_group s), (df (app s)); try (by intros [= <-]).
  destruct (groups (app s) !! s0); [|done]. case_decide; [|done]. by intros [= <-].
Qed.

Lemma render_ok s :
  (∀ g, active_group s = Some g →
        ∃ cv, groups (app s) !! g = Some cv ∧ ∀ c, c ∈ value_cols s → c ∈ cv.*1) →
  render_active_group_columns s = Some s.
Proof.
  intros H. unfold render_active_group_columns.
  destruct (active_group s) as [g|]; [|done].
  destruct (df (app s)); [|done].
  destruct (H g eq_refl) as (cv & -> & Hcv).
  rewrite decide_True; [done|]. by apply Forall_forall.
Qed.

Lemma group_index_lookup s name i :
  group_index s name = Some i ↔
  group_listbox (app s) !! i = Some name
  ∧ ∀ j, j < i → group_listbox (app s) !! j ≠ Some name.
Proof.
  unfold group_index. split.
  - destruct (list_find _ _) as [[i' x]|] eqn:Hf; [|done]. simpl. intros [= ->].
    apply list_find_Some in Hf as (Hi & -> & Hmin). split; [done|].
    intros j Hj Hl. by eapply Hmin.
  - intros [Hi Hmin].
    assert (list_find (λ g, g = name) (group_listbox (app s)) = Some (i, name))
      as ->; [|done].
    apply list_find_Some. split; [done|]. split; [done|].
    intros j y Hy Hj ->. by eapply Hmin.
Qed.

Lemma group_index_is_Some s name :
  name ∈ group_listbox (app s) → is_Some (group_index s name).
Proof.
  intros Hin. unfold group_index.
  destruct (list_find_elem_of (λ g, g = name) _ name Hin eq_refl) as [x ->].
  by eexists.
Qed.

Lemma group_name_inj (i j : nat) :
  "Group " +:+ pretty i = "Group " +:+ pretty j → i = j.
Proof. simpl. intros [= H]. by apply pretty_nat_inj in H. Qed.

Lemma free_group_name_Some (g : gmap string (list (string * bool))) fuel :
  ∀ i name, free_group_name g fuel i = Some name →
    ∃ k, name = "Group " +:+ pretty (i + k) ∧ g !! name = None
         ∧ ∀ j, j < k → is_Some (g !! ("Group " +:+ pretty (i + j))).
Proof.
  induction fuel as [|fuel IH]; intros i name; [done|].
  cbn [free_group_name]. case_decide as Hd.
  - intros (k & -> & Hn & Hlt)%IH. exists (S k).
    replace (i + S k) with (S i + k) by lia. split; [done|]. split; [done|].
    intros [|j] Hj; [by rewrite Nat.add_0_r|].
    replace (i + S j) with (S i + j) by lia. apply Hlt. lia.
  - intros [= <-]. exists 0. rewrite Nat.add_0_r. split; [done|].
    split; [by apply eq_None_not_Some|]. intros j Hj. lia.
Qed.

Lemma free_group_name_None (g : gmap string (list (string * bool))) fuel :
  ∀ i, free_group_name g fuel i = None →
    ∀ j, j < fuel → is_Some (g !! ("Group " +:+ pretty (i + j))).
Proof.
  induction fuel as [|fuel IH]; intros i Hn j Hj; [lia|].
  cbn [free_group_name] in Hn. case_decide as Hd; [|done].
  destruct j as [|j]; [by rewrite Nat.add_0_r|].
  replace (i + S j) with (S i + j) by lia. apply IH; [done|lia].
Qed.

Lemma free_group_name_found (g : gmap string (list (string * bool))) i :
  is_Some (free_group_name g (S (size g)) i).
Proof.
  destruct (free_group_name g (S (size g)) i) eqn:Hf; [done|].
  pose proof (free_group_name_None g _ i Hf) as Hall.
  set (names := (λ j, "Group " +:+ pretty (i + j)) <$> seq 0 (S (size g))).
  assert (NoDup names) as Hnd.
  { apply NoDup_fmap_2_strong; [|apply NoDup_seq].
    intros j k _ _ Hjk. apply group_name_inj in Hjk. lia. }
  assert (names ⊆+ (map_to_list g).*1) as Hsub.
  { apply NoDup_submseteq; [done|]. intros x (j & -> & Hj)%list_elem_of_fmap.
    apply elem_of_seq in Hj. destruct (Hall j ltac:(lia)) as [cv Hcv].
    apply list_elem_of_fmap. exists ("Group " +:+ pretty (i + j), cv).
    split; [done|]. by apply elem_of_map_to_list. }
  apply submseteq_length in Hsub.
  rewrite length_fmap, length_map_to_list in Hsub. unfold names in Hsub.
  rewrite length_fmap, length_seq in Hsub. lia.
Qed.


Lemma listbox_split (l : list string) idx x :
  l !! idx = Some x →
  ∃ l1 l2, l = l1 ++ x :: l2 ∧ length l1 = idx
    ∧ delete idx l = l1 ++ l2
    ∧ ∀ y, listbox_insert idx y (l1 ++ l2) = l1 ++ y :: l2.
Proof.
  intros Hx. exists (take idx l), (drop (S idx) l).
  pose proof (lookup_lt_Some _ _ _ Hx) as Hlt.
  assert (length (take idx l) = idx) as Hlen by (rewrite length_take; lia).
  split; [by rewrite take_drop_middle|]. split; [done|].
  split; [apply delete_take_drop|].
  intros y. unfold listbox_insert.
  rewrite take_app_length' by done. by rewrite drop_app_length' by done.
Qed.

Lemma NoDup_middle (l1 l2 : list string) x :
  NoDup (l1 ++ x :: l2) ↔ (x ∉ l1) ∧ (x ∉ l2) ∧ NoDup (l1 ++ l2).
Proof.
  rewrite !NoDup_app, NoDup_cons. setoid_rewrite elem_of_cons.
  split.
  - intros (H1 & H12 & Hx & H2). split; [|split; [done|]].
    + intros Hin. apply (H12 x Hin). by left.
    + split; [done|]. split; [|done]. intros y Hy Hy2. apply (H12 y Hy). by right.
  - intros (Hx1 & Hx2 & H1 & H12 & H2). split; [done|]. split; [|done].
    intros y Hy [->|Hy2]; [done|]. by apply (H12 y).
Qed.

Lemma first_index_NoDup s name idx :
  NoDup (group_listbox (app s)) →
  group_listbox (app s) !! idx = Some name → group_index s name = Some idx.
Proof.
  intros Hnd Hi. apply group_index_lookup. split; [done|].
  intros j Hj Hl. assert (j = idx) by (eapply NoDup_lookup; eauto). lia.
Qed.


Lemma new_col_vars_keys vc : (new_col_vars vc).*1 = nub vc.
Proof.
  unfold new_col_vars. rewrite <- list_fmap_compose. apply list_fmap_id.
Qed.

Lemma new_col_vars_unticked vc :
  filter (λ cv : string * bool, cv.2 = true) (new_col_vars vc) = [].
Proof.
  apply filter_none. intros cv (c & -> & _)%list_elem_of_fmap. done.
Qed.

Lemma select_group_by_index_Some s idx g :
  group_listbox (app s) !! idx = Some g →
  (∃ cv, groups (app s) !! g = Some cv ∧ ∀ c, c ∈ value_cols s → c ∈ cv.*1) →
  select_group_by_index s idx = Some (with_active s (Some g)).
Proof.
  intros Hg Hcv. unfold select_group_by_index. rewrite Hg.
  apply render_ok. simpl. by intros g' [= <-].
Qed.

(** X9: with a dataset loaded, "Add Group" finds a name in at most
    [len(groups) + 1] rounds of its loop: "Group i" for the least
    [i ≥ 1] that is not a group yet.  The new group is appended to the
    list box, becomes the active group, has every value column
    unticked, and the existing groups and the ticked identifiers are as
    before.  Without a dataset nothing changes. *)
Theorem add_group_appends_fresh (s : Gui) :
  (df (app s) = None → add_group s = Some s)
  ∧ (∀ d, df (app s) = Some d →
     ∃ s' k, add_group s = Some s'
       ∧ let name := "Group " +:+ pretty (S k) in
         groups (app s) !! name = None
         ∧ (∀ j, j < k → is_Some (groups (app s) !! ("Group " +:+ pretty (S j))))
         ∧ groups (app s')
           = <[name := new_col_vars (value_cols s)]> (groups (app s))
         ∧ group_listbox (app s') = group_listbox (app s) ++ [name]
         ∧ active_group s' = Some name
         ∧ get_group_cols (app s') name = Some []
         ∧ id_vars (app s') = id_vars (app s)).
Proof.
  split; [intros Hd; unfold add_group; by rewrite Hd|].
  intros d Hd. unfold add_group. rewrite Hd.
  destruct (free_group_name_found (groups (app s)) 1) as [name Hname].
  rewrite Hname.
  apply free_group_name_Some in Hname as (k & -> & Hfresh & Hused).
  change (1 + k) with (S k) in *.
  set (name := "Group " +:+ pretty (S k)) in *.
  set (s1 := create_group s name).
  assert (name ∈ group_listbox (app s1)) as Hin.
  { simpl. rewrite elem_of_app. right. apply list_elem_of_here. }
  destruct (group_index_is_Some s1 name Hin) as [idx Hidx].
  unfold select_group_by_name. rewrite Hidx.
  apply group_index_lookup in Hidx as [Hidx _].
  rewrite (select_group_by_index_Some s1 idx name Hidx).
  2:{ exists (new_col_vars (value_cols s)). simpl. rewrite lookup_insert_eq.
      split; [done|]. intros c Hc. by rewrite new_col_vars_keys, elem_of_nub. }
  exists (with_active s1 (Some name)), k. split; [done|]. simpl.
  split; [done|]. split; [intros j Hj; apply (Hused j Hj)|].
  split; [done|]. split; [done|]. split; [done|]. split; [|done].
  unfold get_group_cols. simpl. rewrite lookup_insert_eq.
  by rewrite new_col_vars_unticked.
Qed.


Lemma wf_active_group s old :
  gui_wf s → active_group s = Some old →
  ∃ cv idx, groups (app s) !! old = Some cv
    ∧ group_listbox (app s) !! idx = Some old
    ∧ group_index s old = Some idx
    ∧ ∀ c, c ∈ value_cols s → c ∈ cv.*1.
Proof.
  intros (_ & _ & Hbox & Hdom & Hkeys & Hact & _) Hold.
  pose proof (Hact old Hold) as Hin.
  destruct (proj1 (Hdom old) Hin) as [cv Hcv].
  apply list_elem_of_lookup in Hin as [idx Hidx].
  exists cv, idx. split; [done|]. split; [done|].
  split; [by apply first_index_NoDup|].
  intros c Hc. by rewrite (Hkeys old cv Hcv), elem_of_nub.
Qed.

(** X10: in a state that satisfies the window invariant, with [old] the
    active group: renaming is refused, and nothing changes, when the
    dialog is cancelled, when the answer is blank before or after
    stripping, or when the stripped name is another existing group.
    Otherwise the group is found under the new name with the same column
    ticks, at the same position of the list box, the old name is gone,
    the other groups are untouched and the renamed group is the active
    one. *)
Theorem rename_group_keeps_columns (s : Gui) (old : string) :
  gui_wf s → active_group s = Some old →
  rename_group s None = Some s
  ∧ rename_group s (Some "") = Some s
  ∧ (∀ new0, strip new0 = "" → rename_group s (Some new0) = Some s)
  ∧ (∀ new0, is_Some (groups (app s) !! strip new0) → strip new0 ≠ old →
             rename_group s (Some new0) = Some s)
  ∧ (∀ new0, new0 ≠ "" → strip new0 ≠ "" →
       (groups (app s) !! strip new0 = None ∨ strip new0 = old) →
       ∃ s' idx, rename_group s (Some new0) = Some s'
         ∧ group_index s old = Some idx
         ∧ group_listbox (app s') = <[idx := strip new0]> (group_listbox (app s))
         ∧ groups (app s') !! strip new0 = groups (app s) !! old
         ∧ get_group_cols (app s') (strip new0) = get_group_cols (app s) old
         ∧ (strip new0 ≠ old → groups (app s') !! old = None)
         ∧ (∀ g, g ≠ old → g ≠ strip new0 →
                 groups (app s') !! g = groups (app s) !! g)
         ∧ active_group s' = Some (strip new0)
         ∧ id_vars (app s') = id_vars (app s)).
Proof.
  intros Hwf Hold.
  destruct (wf_active_group s old Hwf Hold) as (cv & idx & Hcv & Hidx & Hgi & Hkeys).
  unfold rename_group. rewrite Hold.
  split; [done|]. split; [done|].
  split.
  { intros new0 Hs. case_decide; [done|]. by rewrite decide_True. }
  split.
  { intros new0 Hsome Hne. case_decide; [done|]. case_decide; [done|].
    by rewrite decide_True. }
  intros new0 Hn0 Hn Hfresh.
  rewrite decide_False by done. rewrite decide_False by done.
  rewrite decide_False.
  2:{ intros [[x Hx] Hne]. destruct Hfresh as [Hf|Hf]; congruence. }
  rewrite Hcv, Hgi.
  destruct (listbox_split _ _ _ Hidx) as (l1 & l2 & Hl & Hlen & Hdel & Hins).
  rewrite Hdel, Hins.
  rewrite render_ok.
  2:{ simpl. intros g [= <-]. exists cv. by rewrite lookup_insert_eq. }
  eexists _, idx. split; [done|]. simpl. split; [done|].
  split.
  { rewrite Hl. rewrite insert_app_r_alt by lia. by rewrite Hlen, Nat.sub_diag. }
  split; [by rewrite lookup_insert_eq|].
  split; [unfold get_group_cols; simpl; by rewrite lookup_insert_eq, Hcv|].
  split; [intros Hne; rewrite lookup_insert_ne by done; apply lookup_delete_eq|].
  split; [|done].
  intros g Hg1 Hg2. rewrite lookup_insert_ne by done. by rewrite lookup_delete_ne.
Qed.


(** ** The invariant of the window *)

Lemma wf_init : gui_wf init_gui.
Proof.
  unfold gui_wf. simpl.
  split; [constructor|]. split; [intros r Hr; by apply elem_of_nil in Hr|].
  split; [constructor|].
  split.
  { intros g. rewrite lookup_empty. split; [by intros ?%elem_of_nil|by intros []]. }
  split; [intros g cv Hg; by rewrite lookup_empty in Hg|].
  split; [done|]. split; [intros c Hc; by apply elem_of_nil in Hc|].
  split; [done|]. intros r Hr. by apply elem_of_nil in Hr.
Qed.

Lemma wf_refresh s : gui_wf s → gui_wf (refresh_id_checkboxes s).
Proof.
  intros Hwf. destruct (df (app s)) as [d|] eqn:Hd.
  2:{ unfold refresh_id_checkboxes. by rewrite Hd. }
  destruct Hwf as (Hnd & Hshown & Hbox & Hdom & Hkeys & Hact & Hvc & Hids & Hsl).
  destruct (refresh_id_vars s) as (extra & Heq & _ & Hs & Hnd').
  pose proof (refresh_shown s d Hd) as Hsf.
  assert (df (app (refresh_id_checkboxes s)) = df (app s)) as Hdf
    by (unfold refresh_id_checkboxes; by rewrite Hd).
  assert (∀ P : Gui → Prop,
            (∀ v sh, P (with_shown s v sh)) → P (refresh_id_checkboxes s)) as Hform.
  { intros P HP. unfold refresh_id_checkboxes. rewrite Hd. apply HP. }
  unfold gui_wf. rewrite Heq, Hdf.
  split; [by apply Hnd'|].
  split.
  { intros r Hr. destruct (Hs r Hr) as [?|?]; [done|congruence]. }
  rewrite Hsf.
  split; [by apply Hform|]. split; [by apply Hform|].
  split; [by apply Hform|]. split; [by apply Hform|].
  split; [by apply Hform|]. split; [by apply Hform|].
  apply (Hform (λ s', ∀ rid, rid ∈ shown_for s → rid ∈ id_list_all s')).
  intros v sh r Hr. simpl.
  destruct (shown_for_bound s) as [Hsub _].
  by eapply elem_of_sublist.
Qed.


Lemma wf_with_groups s g box act :
  gui_wf s → NoDup box → (∀ x, x ∈ box ↔ is_Some (g !! x)) →
  (∀ x cv, g !! x = Some cv → cv.*1 = nub (value_cols s)) →
  (∀ x, act = Some x → x ∈ box) →
  gui_wf (with_groups s g box act).
Proof.
  intros (Hnd & Hshown & _ & _ & _ & _ & Hvc & Hids & Hsl) Hbox Hdom Hkeys Hact.
  unfold gui_wf. simpl. done.
Qed.

Lemma wf_with_id_vars s v :
  gui_wf s → v.*1 = (id_vars (app s)).*1 →
  gui_wf (with_app s (set_id_vars (app s) v)).
Proof.
  intros (Hnd & Hshown & Hbox & Hdom & Hkeys & Hact & Hvc & Hids & Hsl) Hv.
  unfold gui_wf. simpl. rewrite Hv. done.
Qed.

Lemma wf_with_active s g :
  gui_wf s → (∀ x, g = Some x → x ∈ group_listbox (app s)) →
  gui_wf (with_active s g).
Proof.
  intros (Hnd & Hshown & Hbox & Hdom & Hkeys & Hact & Hvc & Hids & Hsl) Hg.
  unfold gui_wf. simpl. done.
Qed.

Lemma wf_render s : gui_wf s → render_active_group_columns s = Some s.
Proof.
  intros Hwf. apply render_ok. intros g Hg.
  destruct (wf_active_group s g Hwf Hg) as (cv & _ & Hcv & _ & _ & Hk). eauto.
Qed.

Lemma wf_select_group_by_index s idx :
  gui_wf s → ∃ s', select_group_by_index s idx = Some s' ∧ gui_wf s'.
Proof.
  intros Hwf. unfold select_group_by_index.
  destruct (group_listbox (app s) !! idx) as [g|] eqn:Hg; [|eauto].
  assert (gui_wf (with_active s (Some g))) as Hwf'.
  { apply wf_with_active; [done|]. intros x [= <-].
    by eapply list_elem_of_lookup_2. }
  rewrite wf_render by done. eauto.
Qed.

Lemma wf_set_shown_ids b s : gui_wf s → ∃ s', set_shown_ids b s = Some s' ∧ gui_wf s'.
Proof.
  intros Hwf. unfold set_shown_ids.
  rewrite set_vars_closed by apply Hwf.
  eexists. split; [done|]. apply wf_with_id_vars; [done|].
  rewrite <- list_fmap_compose. apply list_fmap_ext.
  intros i [k v] _. simpl. by case_decide.
Qed.

Lemma wf_tick_id s rid b : gui_wf s → ∃ s', tick_id s rid b = Some s' ∧ gui_wf s'.
Proof.
  intros Hwf. unfold tick_id. case_decide as Hin; [|eauto].
  destruct (set_var rid b (id_vars (app s))) as [vars|] eqn:Hset.
  - eexists. split; [done|]. apply wf_with_id_vars; [done|].
    by eapply set_var_keys.
  - unfold set_var in Hset. rewrite decide_True in Hset; [done|]. by apply Hwf.
Qed.

Lemma wf_create_group s name :
  gui_wf s → groups (app s) !! name = None → gui_wf (create_group s name).
Proof.
  intros Hwf Hfresh.
  pose proof Hwf as (_ & _ & Hbox & Hdom & Hkeys & Hact & _).
  assert (name ∉ group_listbox (app s)) as Hnotin.
  { intros Hin. apply Hdom in Hin as [x Hx]. congruence. }
  apply (wf_with_groups s _ _ (active_group s)); [done| | | |].
  - apply NoDup_app. split; [done|]. split; [|apply NoDup_singleton].
    intros x Hx ->%list_elem_of_singleton. done.
  - intros x. rewrite elem_of_app, list_elem_of_singleton.
    destruct (decide (x = name)) as [->|Hne].
    + rewrite lookup_insert_eq. split; [done|by right].
    + rewrite lookup_insert_ne by done. rewrite <- Hdom. tauto.
  - intros x cv. destruct (decide (x = name)) as [->|Hne].
    + rewrite lookup_insert_eq. intros [= <-]. apply new_col_vars_keys.
    + rewrite lookup_insert_ne by done. apply Hkeys.
  - intros x Hx. rewrite elem_of_app. left. by apply Hact.
Qed.

Lemma wf_add_group s : gui_wf s → ∃ s', add_group s = Some s' ∧ gui_wf s'.
Proof.
  intros Hwf. unfold add_group. destruct (df (app s)); [|eauto].
  destruct (free_group_name_found (groups (app s)) 1) as [name Hname].
  rewrite Hname. apply free_group_name_Some in Hname as (k & _ & Hfresh & _).
  pose proof (wf_create_group s name Hwf Hfresh) as Hwf1.
  unfold select_group_by_name.
  destruct (group_index (create_group s name) name); [|eauto].
  by apply wf_select_group_by_index.
Qed.


Lemma wf_rename_group s answer :
  gui_wf s → ∃ s', rename_group s answer = Some s' ∧ gui_wf s'.
Proof.
  intros Hwf. unfold rename_group.
  destruct (active_group s) as [old|] eqn:Hold; [|eauto].
  destruct answer as [new0|]; [|eauto].
  case_decide; [eauto|]. case_decide; [eauto|]. case_decide as Hclash; [eauto|].
  destruct (wf_active_group s old Hwf Hold) as (cv & idx & Hcv & Hidx & Hgi & Hk).
  rewrite Hcv, Hgi.
  destruct (listbox_split _ _ _ Hidx) as (l1 & l2 & Hl & Hlen & Hdel & Hins).
  rewrite Hdel, Hins.
  pose proof Hwf as (_ & _ & Hbox & Hdom & Hkeys & Hact & _).
  rewrite Hl in Hbox, Hdom. apply NoDup_middle in Hbox as (Ho1 & Ho2 & Hbox).
  set (new := strip new0) in *.
  assert (new = old ∨ groups (app s) !! new = None) as Hnew.
  { destruct (decide (new = old)); [by left|right].
    apply eq_None_not_Some. intros Hs. apply Hclash. done. }
  assert (new = old ∨ ((new ∉ l1) ∧ (new ∉ l2))) as Hnew'.
  { destruct Hnew as [?|Hn]; [by left|right].
    split; intros Hin; assert (is_Some (groups (app s) !! new)) as [x Hx];
      try congruence; apply Hdom; rewrite elem_of_app, elem_of_cons; tauto. }
  assert (gui_wf (with_groups s (<[new := cv]> (delete old (groups (app s))))
                    (l1 ++ new :: l2) (Some new))) as Hwf'.
  { apply wf_with_groups; [done| | | |].
    - apply NoDup_middle. destruct Hnew' as [->|[? ?]]; done.
    - intros x. rewrite elem_of_app, elem_of_cons.
      destruct (decide (x = new)) as [->|Hne].
      + rewrite lookup_insert_eq. split; [done|tauto].
      + rewrite lookup_insert_ne by done.
        destruct (decide (x = old)) as [->|Hne'].
        * rewrite lookup_delete_eq. split; [|by intros []].
          intros [?|[?|?]]; done.
        * rewrite lookup_delete_ne by done. rewrite <- Hdom.
          rewrite elem_of_app, elem_of_cons. tauto.
    - intros x cv'. destruct (decide (x = new)) as [->|Hne].
      + rewrite lookup_insert_eq. intros [= <-]. by eapply Hkeys.
      + rewrite lookup_insert_ne by done. intros Hx.
        apply lookup_delete_Some in Hx as [_ Hx]. by eapply Hkeys.
    - intros x [= <-]. rewrite elem_of_app, elem_of_cons. tauto. }
  rewrite wf_render by done. eauto.
Qed.

Lemma wf_remove_group s confirm :
  gui_wf s → ∃ s', remove_group s confirm = Some s' ∧ gui_wf s'.
Proof.
  intros Hwf. unfold remove_group.
  destruct (active_group s) as [name|] eqn:Hname; [|eauto].
  destruct confirm; [|eauto].
  destruct (wf_active_group s name Hwf Hname) as (cv & idx & Hcv & Hidx & Hgi & Hk).
  rewrite Hgi.
  destruct (listbox_split _ _ _ Hidx) as (l1 & l2 & Hl & Hlen & Hdel & Hins).
  rewrite Hdel.
  pose proof Hwf as (_ & _ & Hbox & Hdom & Hkeys & Hact & _).
  rewrite Hl in Hbox, Hdom. apply NoDup_middle in Hbox as (Ho1 & Ho2 & Hbox).
  assert (gui_wf (with_groups s (delete name (groups (app s))) (l1 ++ l2) None))
    as Hwf'.
  { apply wf_with_groups; [done|done| | |done].
    - intros x. destruct (decide (x = name)) as [->|Hne].
      + rewrite lookup_delete_eq. rewrite elem_of_app.
        split; [intros [?|?]; done|by intros []].
      + rewrite lookup_delete_ne by done. rewrite <- Hdom.
        rewrite !elem_of_app, elem_of_cons. tauto.
    - intros x cv' Hx. apply lookup_delete_Some in Hx as [_ Hx]. by eapply Hkeys. }
  destruct (l1 ++ l2) as [|g0 box] eqn:Hboxeq; [eauto|].
  rewrite <- Hboxeq in *.
  match goal with |- context [select_group_by_index ?s0 ?i] =>
    assert (∃ g, group_listbox (app s0) !! i = Some g) as [g Hg] end.
  { simpl. apply lookup_lt_is_Some_2. rewrite Hboxeq. simpl. lia. }
  unfold select_group_by_index. rewrite Hg.
  match goal with |- context [render_active_group_columns ?s0] =>
    assert (gui_wf s0) as Hwf0 end.
  { apply (wf_with_active _ (Some g)) in Hwf'; [done|].
    intros x [= <-]. by eapply list_elem_of_lookup_2. }
  rewrite wf_render by done. eauto.
Qed.

Lemma wf_set_groups_values s g cv cv' :
  gui_wf s → groups (app s) !! g = Some cv → cv'.*1 = cv.*1 →
  gui_wf (with_app s (set_groups (app s) (<[g := cv']> (groups (app s)))
                        (group_listbox (app s)))).
Proof.
  intros Hwf Hg Hcv.
  pose proof Hwf as (_ & _ & Hbox & Hdom & Hkeys & Hact & _).
  apply (wf_with_groups s _ _ (active_group s)); [done|done| | |done].
  - intros x. rewrite Hdom. destruct (decide (x = g)) as [->|Hne].
    + rewrite lookup_insert_eq, Hg. split; by intros _.
    + by rewrite lookup_insert_ne.
  - intros x c. destruct (decide (x = g)) as [->|Hne].
    + rewrite lookup_insert_eq. intros [= <-]. rewrite Hcv. by eapply Hkeys.
    + rewrite lookup_insert_ne by done. apply Hkeys.
Qed.

Lemma wf_set_cols_in_group b s :
  gui_wf s → ∃ s', set_cols_in_group b s = Some s' ∧ gui_wf s'.
Proof.
  intros Hwf. unfold set_cols_in_group.
  destruct (active_group s) as [g|] eqn:Hg; [|eauto].
  destruct (wf_active_group s g Hwf Hg) as (cv & _ & Hcv & _).
  rewrite Hcv. eexists. split; [done|].
  apply (wf_set_groups_values s g cv); [done..|].
  by rewrite <- list_fmap_compose.
Qed.

Lemma wf_tick_col s c b : gui_wf s → ∃ s', tick_col s c b = Some s' ∧ gui_wf s'.
Proof.
  intros Hwf. unfold tick_col.
  destruct (active_group s) as [g|] eqn:Hg; [|eauto].
  case_decide as Hc; [|eauto].
  destruct (wf_active_group s g Hwf Hg) as (cv & _ & Hcv & _ & _ & Hk).
  rewrite Hcv.
  destruct (set_var c b cv) as [cv'|] eqn:Hset.
  - eexists. split; [done|]. apply (wf_set_groups_values s g cv); [done..|].
    by eapply set_var_keys.
  - unfold set_var in Hset. rewrite decide_True in Hset; [done|]. by apply Hk.
Qed.


Lemma refresh_loaded s d :
  df (app s) = Some d →
  ∃ extra sh,
    refresh_id_checkboxes s = with_shown s (id_vars (app s) ++ extra) sh
    ∧ Forall (λ kv, kv.2 = false) extra
    ∧ (NoDup (id_vars (app s)).*1 → NoDup (id_vars (app s) ++ extra).*1)
    ∧ (∀ r, r ∈ sh → r ∈ (id_vars (app s) ++ extra).*1)
    ∧ (∀ r, r ∈ sh → r ∈ id_list_all s).
Proof.
  intros Hd. unfold refresh_id_checkboxes. rewrite Hd. cbv zeta.
  match goal with |- context [foldl add_id_var ?v ?sh] =>
    destruct (add_id_vars_closed sh v) as (extra & Heq & Hf & _ & Hs & Hnd);
    exists extra, sh end.
  rewrite Heq. split; [done|]. split; [done|]. split; [done|]. split; [done|].
  intros r Hr. case_decide.
  - by eapply elem_of_sublist; [|apply sublist_take].
  - rewrite search_ids_closed in Hr by (simpl; lia). simpl in Hr.
    eapply elem_of_sublist; [exact Hr|].
    etrans; [apply sublist_take|apply sublist_filter].
Qed.

Lemma after_load_success_closed s d :
  df (app s) = Some d →
  ∃ extra sh,
    after_load_success s
    = Some (with_active
              (create_group
                 (create_group
                    (with_groups
                       (with_shown (with_search s "")
                          (id_vars (app s) ++ extra) sh) ∅ [] None)
                    "Group 1") "Group 2") (Some "Group 1"))
    ∧ Forall (λ kv, kv.2 = false) extra
    ∧ (NoDup (id_vars (app s)).*1 → NoDup (id_vars (app s) ++ extra).*1)
    ∧ (∀ r, r ∈ sh → r ∈ (id_vars (app s) ++ extra).*1)
    ∧ (∀ r, r ∈ sh → r ∈ id_list_all s).
Proof.
  intros Hd. unfold after_load_success, set_id_search_var.
  pose proof (proj2 (proj2 (refresh_keeps_ticks (with_search s "")))) as Hidem.
  cbv zeta in Hidem. rewrite Hidem.
  destruct (refresh_loaded (with_search s "") d Hd)
    as (extra & sh & -> & Hf & Hnd & Hs & Hl).
  exists extra, sh. split; [|done].
  erewrite select_group_by_index_Some; [done|done|].
  eexists. split; [simpl; by rewrite lookup_insert_ne, lookup_insert_eq|].
  intros c Hc. by rewrite new_col_vars_keys, elem_of_nub.
Qed.

Lemma wf_fresh_groups s :
  NoDup (id_vars (app s)).*1 →
  (∀ rid, rid ∈ ids_shown s → rid ∈ (id_vars (app s)).*1) →
  (∀ c, c ∈ value_cols s → c ∈ df_columns s ∧ Some c ≠ id_col s) →
  (∀ d, df (app s) = Some d → df_ids d = id_list_all s) →
  (∀ rid, rid ∈ ids_shown s → rid ∈ id_list_all s) →
  gui_wf (with_active
            (create_group (create_group (with_groups s ∅ [] None) "Group 1")
               "Group 2") (Some "Group 1")).
Proof.
  intros Hnd Hshown Hvc Hids Hsl. unfold gui_wf. simpl.
  split; [done|]. split; [done|].
  split; [apply (bool_decide_unpack _); by vm_compute|].
  split.
  { intros g. rewrite !elem_of_cons, elem_of_nil.
    destruct (decide (g = "Group 2")) as [->|H2].
    - rewrite lookup_insert_eq. split; [done|tauto].
    - rewrite lookup_insert_ne by done.
      destruct (decide (g = "Group 1")) as [->|H1].
      + rewrite lookup_insert_eq. split; [done|tauto].
      + rewrite lookup_insert_ne, lookup_empty by done.
        split; [intros [?|[?|[]]]; done|by intros []]. }
  split.
  { intros g cv. destruct (decide (g = "Group 2")) as [->|H2].
    - rewrite lookup_insert_eq. intros [= <-]. apply new_col_vars_keys.
    - rewrite lookup_insert_ne by done.
      destruct (decide (g = "Group 1")) as [->|H1].
      + rewrite lookup_insert_eq. intros [= <-]. apply new_col_vars_keys.
      + by rewrite lookup_insert_ne, lookup_empty. }
  split; [intros g [= <-]; apply list_elem_of_here|].
  done.
Qed.

Lemma wf_load_dataset s t :
  gui_wf s → ∃ s', load_dataset s t = Some s' ∧ gui_wf s'.
Proof.
  intros Hwf. unfold load_dataset.
  destruct (load_dataset_worker s t) as [s1|] eqn:Hw; [|eauto].
  unfold load_dataset_worker in Hw. case_decide; [done|].
  destruct (detect_id_column (columns t)) as [c|] eqn:Hc; [|done].
  injection Hw as <-.
  match goal with |- context [after_load_success ?s1] =>
    destruct (after_load_success_closed s1 _ eq_refl)
      as (extra & sh & -> & Hf & Hnd & Hs & Hl) end.
  eexists. split; [done|].
  apply (wf_fresh_groups
           (with_shown (with_search _ "") _ sh)); simpl.
  - apply Hnd, Hwf.
  - done.
  - intros c' [Hin Hne]%list_elem_of_filter. split; [done|]. by intros [= ->].
  - by intros d' [= <-].
  - done.
Qed.


Lemma refresh_twice s :
  refresh_id_checkboxes (refresh_id_checkboxes s) = refresh_id_checkboxes s.
Proof. apply (refresh_keeps_ticks s). Qed.

Lemma on_id_column_changed_closed s d c :
  gui_wf s → df (app s) = Some d → Some c ≠ id_col s → c ∈ df_columns s →
  ∃ s' extra,
    on_id_column_changed s c = Some s'
    ∧ id_vars (app s') = id_vars (app s) ++ extra
    ∧ Forall (λ kv, kv.2 = false) extra
    ∧ groups (app s')
      = (λ _, new_col_vars (filter (λ c', c' ≠ c) (df_columns s)))
          <$> groups (app s)
    ∧ group_listbox (app s') = group_listbox (app s)
    ∧ active_group s' = active_group s
    ∧ id_col s' = Some c
    ∧ value_cols s' = filter (λ c', c' ≠ c) (df_columns s)
    ∧ df_columns s' = df_columns s
    ∧ df (app s')
      = Some {| df_ids := column_as_str (df_nrows s) (df_cell d) c;
                df_cell := df_cell d |}
    ∧ id_list_all s' = column_as_str (df_nrows s) (df_cell d) c
    ∧ (∀ r, r ∈ ids_shown s' → r ∈ (id_vars (app s')).*1)
    ∧ (∀ r, r ∈ ids_shown s' → r ∈ id_list_all s')
    ∧ (NoDup (id_vars (app s')).*1).
Proof.
  intros Hwf Hd Hne Hc. unfold on_id_column_changed.
  rewrite Hd. rewrite decide_False by done. rewrite decide_True by done.
  cbv zeta. unfold set_id_search_var. rewrite refresh_twice.
  match goal with |- context [refresh_id_checkboxes ?x] =>
    destruct (refresh_loaded x _ eq_refl) as (extra & sh & -> & Hf & Hnd & Hs & Hl)
  end.
  simpl in Hnd, Hs, Hl.
  rewrite render_ok.
  2:{ simpl. intros g Hg.
      destruct (wf_active_group s g Hwf Hg) as (cv & _ & Hcv & _).
      eexists. rewrite lookup_fmap, Hcv. split; [done|].
      intros c' Hc'. by rewrite new_col_vars_keys, elem_of_nub. }
  eexists _, extra. split; [done|]. simpl.
  repeat (split; [done|]). apply Hnd, Hwf.
Qed.

Lemma wf_on_id_column_changed s c :
  gui_wf s → c ∈ df_columns s →
  ∃ s', on_id_column_changed s c = Some s' ∧ gui_wf s'.
Proof.
  intros Hwf Hc. destruct (df (app s)) as [d|] eqn:Hd.
  2:{ unfold on_id_column_changed. rewrite Hd. eauto. }
  destruct (decide (Some c = id_col s)) as [Heq|Hne].
  { unfold on_id_column_changed. rewrite Hd. rewrite decide_True by done. eauto. }
  destruct (on_id_column_changed_closed s d c Hwf Hd Hne Hc)
    as (s' & extra & Hrun & Hv & _ & Hg & Hb & Ha & Hi & Hvc & Hcols & Hdf & Hids
        & Hs & Hl & Hnd).
  exists s'. split; [done|].
  pose proof Hwf as (_ & _ & Hbox & Hdom & Hkeys & Hact & _).
  unfold gui_wf. rewrite Hb, Hg, Ha, Hi, Hvc, Hcols, Hdf, Hids.
  split; [done|]. split; [done|]. split; [done|].
  split.
  { intros g. rewrite Hdom, lookup_fmap. by rewrite fmap_is_Some. }
  split.
  { intros g cv. rewrite lookup_fmap. destruct (groups (app s) !! g); [|done].
    simpl. intros [= <-]. apply new_col_vars_keys. }
  split; [done|].
  split.
  { intros c' [Hin Hne']%list_elem_of_filter. split; [done|]. by intros [= ->]. }
  split; [by intros d' [= <-]|].
  by rewrite <- Hids.
Qed.

Lemma wf_plot s : gui_wf s → gui_wf (gui_plot s).1.
Proof.
  intros (Hnd & Hshown & Hbox & Hdom & Hkeys & Hact & Hvc & Hids & Hsl).
  destruct (plot_keeps_snapshot (app s)) as (Hdf & Hv & Hg & Hb & _).
  unfold gui_wf, gui_plot. simpl. rewrite Hdf, Hv, Hg, Hb. done.
Qed.

Lemma wf_plot_no_KeyError s : gui_wf s → (plot (app s)).2 ≠ KeyError.
Proof.
  intros (_ & _ & _ & Hdom & _). unfold plot.
  destruct (df (app s)); [|done]. destruct (get_selected_ids (app s)); [done|].
  destruct (collect_group_cols_is_Some (app s) (group_listbox (app s)) ∅) as [gtc ->].
  { apply Forall_forall. intros g Hg. by apply Hdom. }
  by case_decide.
Qed.

Lemma run_wf (s : Gui) (e : event) :
  gui_wf s → possible s e → ∃ s', run s e = Some s' ∧ gui_wf s'.
Proof.
  intros Hwf Hposs. destruct e; simpl.
  - by apply wf_load_dataset.
  - eexists. split; [done|]. unfold set_id_search_var. apply wf_refresh.
    destruct Hwf as (Hnd & Hshown & Hbox & Hdom & Hkeys & Hact & Hvc & Hids & Hsl).
    unfold gui_wf. simpl. done.
  - by apply wf_set_shown_ids.
  - by apply wf_set_shown_ids.
  - by apply wf_tick_id.
  - by apply wf_on_id_column_changed.
  - by apply wf_add_group.
  - by apply wf_rename_group.
  - by apply wf_remove_group.
  - by apply wf_select_group_by_index.
  - by apply wf_set_cols_in_group.
  - by apply wf_set_cols_in_group.
  - by apply wf_tick_col.
  - pose proof (wf_plot_no_KeyError s Hwf) as Hk.
    destruct ((plot (app s)).2) eqn:Hp; [| |done|];
      (eexists; split; [done|by apply wf_plot]).
Qed.

Lemma reachable_wf s : reachable s → gui_wf s.
Proof.
  induction 1 as [|s e s' _ IH Hposs Hrun]; [apply wf_init|].
  destruct (run_wf s e IH Hposs) as (s'' & Hrun' & Hwf).
  congruence.
Qed.

(** X11: in every state the window can reach from [__init__] by its
    events (load, search, the identifier and column check boxes and
    their select-all and clear buttons, the identifier-column box, add,
    rename, remove and select a group, plot), no callback raises
    [KeyError] or [TclError], and the window invariant holds: no
    identifier or group is listed twice, the list box and the
    dictionary of groups hold the same names, every group has one
    variable per value column, the active group is a listed group, the
    value columns are columns of the table other than the identifier
    column, and every check box shown is for an identifier of the table
    and has its variable.  A load is taken as one step, worker and
    completion together. *)
Theorem reachable_never_raises (s : Gui) :
  reachable s →
  gui_wf s ∧ ∀ e, possible s e → ∃ s', run s e = Some s' ∧ reachable s'.
Proof.
  intros Hr. pose proof (reachable_wf s Hr) as Hwf. split; [done|].
  intros e Hposs. destruct (run_wf s e Hwf Hposs) as (s' & Hrun & _).
  exists s'. split; [done|]. by eapply reachable_step.
Qed.


Lemma plot_warns_without_columns (a : TableVisualiserApp) (d : DataFrame) :
  df a = Some d →
  (∀ g, g ∈ group_listbox a → get_group_cols a g = Some []) →
  plot a
  = (a, Warned (match get_selected_ids a with
                | [] => EmptySelection
                | _ => NoColumnsAssigned
                end)).
Proof.
  intros Hd Hcols.
  destruct (plot_loaded a d Hd) as (gtc & Hgtc & ->).
  { apply Forall_forall. intros g Hg. specialize (Hcols g Hg).
    unfold get_group_cols in Hcols. by destruct (groups a !! g). }
  destruct (get_selected_ids a); [done|].
  rewrite decide_True; [done|].
  apply (collect_group_cols_empty a (group_listbox a)); [done|].
  apply Forall_forall. intros g Hg. unfold has_cols. by rewrite Hcols.
Qed.

Lemma on_id_column_changed_search s d c s' :
  df (app s) = Some d → Some c ≠ id_col s →
  on_id_column_changed s c = Some s' → id_search_var s' = "".
Proof.
  intros Hd Hne. unfold on_id_column_changed.
  rewrite Hd. rewrite decide_False by done. case_decide; [|done].
  cbv zeta. unfold set_id_search_var. rewrite refresh_twice.
  match goal with |- context [refresh_id_checkboxes ?x] =>
    destruct (refresh_loaded x _ eq_refl) as (extra & sh & -> & _)
  end.
  intros ->%render_same. done.
Qed.

(** X12: [on_id_column_changed] does nothing when the box holds the
    current identifier column.  For another column of the table (in a
    state satisfying the window invariant, with a table loaded) it
    makes that column the identifier column, the other columns the
    value columns and the column's cells the identifiers; it empties
    the search box; it keeps the groups, their order and the active
    group but unticks every column of every group; and it keeps the
    ticked identifiers, also those of the former identifier column.  So
    a [plot] right after the change only warns and builds no figure. *)
Theorem id_column_change_resets_columns (s : Gui) (d : DataFrame) (c : string) :
  gui_wf s → df (app s) = Some d → c ∈ df_columns s →
  (Some c = id_col s → on_id_column_changed s c = Some s)
  ∧ (Some c ≠ id_col s →
     ∃ s', on_id_column_changed s c = Some s'
       ∧ id_col s' = Some c
       ∧ value_cols s' = filter (λ c', c' ≠ c) (df_columns s)
       ∧ id_list_all s' = column_as_str (df_nrows s) (df_cell d) c
       ∧ (df_ids <$> df (app s')) = Some (id_list_all s')
       ∧ id_search_var s' = ""
       ∧ get_selected_ids (app s') = get_selected_ids (app s)
       ∧ group_listbox (app s') = group_listbox (app s)
       ∧ active_group s' = active_group s
       ∧ (∀ g, g ∈ group_listbox (app s') → get_group_cols (app s') g = Some [])
       ∧ last_fig (app (gui_plot s').1) = last_fig (app s')
       ∧ ∃ w, (gui_plot s').2 = Warned w).
Proof.
  intros Hwf Hd Hc. split.
  { intros Heq. unfold on_id_column_changed. rewrite Hd. by rewrite decide_True. }
  intros Hne.
  destruct (on_id_column_changed_closed s d c Hwf Hd Hne Hc)
    as (s' & extra & Hrun & Hv & Hf & Hg & Hb & Ha & Hi & Hvc & Hcols & Hdf & Hids
        & Hs & Hl & Hnd).
  assert (∀ g, g ∈ group_listbox (app s') → get_group_cols (app s') g = Some [])
    as Hnone.
  { intros g. rewrite Hb. intros Hin.
    destruct Hwf as (_ & _ & _ & Hdom & _). apply Hdom in Hin as [cv Hcv].
    unfold get_group_cols. rewrite Hg, lookup_fmap, Hcv. simpl.
    by rewrite new_col_vars_unticked. }
  exists s'. split; [done|]. split; [done|]. split; [done|]. split; [done|].
  split; [by rewrite Hdf, Hids|].
  split; [by apply (on_id_column_changed_search s d c s' Hd Hne Hrun)|].
  split.
  { unfold get_selected_ids. rewrite Hv. by apply selected_app_unticked. }
  split; [done|]. split; [done|]. split; [done|].
  unfold gui_plot. simpl.
  rewrite (plot_warns_without_columns (app s') _ Hdf Hnone). simpl.
  split; [done|]. eauto.
Qed.


Lemma remove_group_closed s name :
  gui_wf s → active_group s = Some name →
  ∃ idx,
    group_index s name = Some idx
    ∧ group_listbox (app s) !! idx = Some name
    ∧ remove_group s true
      = Some (with_groups s (delete name (groups (app s)))
                (delete idx (group_listbox (app s)))
                (delete idx (group_listbox (app s))
                   !! (idx `min` (length (delete idx (group_listbox (app s))) - 1)))).
Proof.
  intros Hwf Hname. unfold remove_group. rewrite Hname.
  destruct (wf_active_group s name Hwf Hname) as (cv & idx & Hcv & Hidx & Hgi & Hk).
  exists idx. split; [done|]. split; [done|]. rewrite Hgi.
  destruct (wf_remove_group s true Hwf) as (s' & Hrun & _).
  unfold remove_group in Hrun. rewrite Hname, Hgi in Hrun.
  destruct (delete idx (group_listbox (app s))) as [|g0 box] eqn:Hboxeq; [done|].
  rewrite <- Hboxeq in *.
  match goal with |- context [select_group_by_index ?s0 ?i] =>
    assert (∃ g, group_listbox (app s0) !! i = Some g) as [g Hg] end.
  { simpl. apply lookup_lt_is_Some_2. rewrite Hboxeq. simpl. lia. }
  unfold select_group_by_index in *. rewrite Hg in *.
  simpl in Hg. rewrite Hg.
  apply render_same in Hrun as Heq. rewrite Heq in Hrun. rewrite Hrun. done.
Qed.

(** X13: [remove_group] with a group active (in a state satisfying the
    window invariant): answering no changes nothing; answering yes
    removes the active group, and only it, from the dictionary and
    from the list box, keeps the ticks of identifiers and of the other
    groups' columns, and makes active the group that followed the
    removed one in the list box, or else the new last one, or none when
    the list box is left empty. *)
Theorem remove_group_drops_active (s : Gui) (name : string) :
  gui_wf s → active_group s = Some name →
  remove_group s false = Some s
  ∧ ∃ s' idx, remove_group s true = Some s'
      ∧ group_index s name = Some idx
      ∧ group_listbox (app s') = delete idx (group_listbox (app s))
      ∧ (name ∉ group_listbox (app s'))
      ∧ (∀ g, g ≠ name → g ∈ group_listbox (app s) → g ∈ group_listbox (app s'))
      ∧ groups (app s') = delete name (groups (app s))
      ∧ get_group_cols (app s') name = None
      ∧ (∀ g, g ≠ name → get_group_cols (app s') g = get_group_cols (app s) g)
      ∧ id_vars (app s') = id_vars (app s)
      ∧ (∀ g, group_listbox (app s) !! S idx = Some g → active_group s' = Some g)
      ∧ (group_listbox (app s) !! S idx = None →
         active_group s' = last (group_listbox (app s')))
      ∧ (active_group s' = None ↔ group_listbox (app s) = [name]).
Proof.
  intros Hwf Hname. split.
  { unfold remove_group. by rewrite Hname. }
  destruct (remove_group_closed s name Hwf Hname) as (idx & Hgi & Hidx & ->).
  eexists _, idx. split; [done|]. split; [done|]. simpl.
  destruct (listbox_split _ _ _ Hidx) as (l1 & l2 & Hl & Hlen & Hdel & _).
  pose proof Hwf as (_ & _ & Hbox & _).
  rewrite Hl in Hbox. apply NoDup_middle in Hbox as (Ho1 & Ho2 & _).
  rewrite Hdel, Hl.
  split; [done|].
  split; [rewrite elem_of_app; tauto|].
  split.
  { intros g Hne. rewrite !elem_of_app, elem_of_cons. tauto. }
  split; [done|].
  split; [unfold get_group_cols; simpl; by rewrite lookup_delete_eq|].
  split.
  { intros g Hne. unfold get_group_cols. simpl. by rewrite lookup_delete_ne. }
  split; [done|].
  assert ((l1 ++ name :: l2) !! S idx = l2 !! 0) as Hnext.
  { rewrite lookup_app_r by lia. rewrite <- Hlen.
    replace (S (length l1) - length l1) with 1 by lia. done. }
  rewrite Hnext.
  split.
  { intros g Hg. destruct l2 as [|g' l2]; [done|]. simpl in Hg. injection Hg as ->.
    rewrite length_app. simpl.
    replace (idx `min` (length l1 + S (length l2) - 1)) with (length l1) by lia.
    by rewrite list_lookup_middle. }
  split.
  { intros Hg. destruct l2 as [|g' l2]; [|done]. rewrite app_nil_r.
    rewrite last_lookup. f_equal. lia. }
  split.
  - intros Hnone. apply lookup_ge_None in Hnone.
    destruct l1 as [|x l1]; [destruct l2 as [|y l2]|]; [done|..];
      simpl in Hnone; rewrite ?length_app in Hnone; simpl in *; lia.
  - intros Heq. destruct l1 as [|x l1]; [|destruct l1; done].
    simpl in Heq. injection Heq as ->. done.
Qed.

Lemma filter_all_true {A} (P : A → Prop) `{!∀ x, Decision (P x)} (l : list A) :
  (∀ x, x ∈ l → P x) → filter P l = l.
Proof.
  induction l as [|x l IH]; intros HP; [done|].
  rewrite filter_cons, decide_True by (apply HP; left).
  rewrite IH; [done|]. intros y Hy. apply HP. by right.
Qed.

(** X14: with no group active, [select_all_cols_in_group] and
    [clear_all_cols_in_group] do nothing.  With a group active (in a
    state satisfying the window invariant) the first leaves the group
    with every value column ticked, in the order of the table, the
    second with none; both leave the other groups, the list box, the
    active group and the ticked identifiers as they are. *)
Theorem select_and_clear_columns (s : Gui) :
  gui_wf s →
  (active_group s = None →
   select_all_cols_in_group s = Some s ∧ clear_all_cols_in_group s = Some s)
  ∧ (∀ g, active_group s = Some g →
     ∃ s1 s0,
       select_all_cols_in_group s = Some s1
       ∧ clear_all_cols_in_group s = Some s0
       ∧ get_group_cols (app s1) g = Some (nub (value_cols s))
       ∧ get_group_cols (app s0) g = Some []
       ∧ (∀ s', s' = s1 ∨ s' = s0 →
            (∀ g', g' ≠ g → get_group_cols (app s') g' = get_group_cols (app s) g')
            ∧ group_listbox (app s') = group_listbox (app s)
            ∧ active_group s' = Some g
            ∧ value_cols s' = value_cols s
            ∧ id_vars (app s') = id_vars (app s))).
Proof.
  intros Hwf. unfold select_all_cols_in_group, clear_all_cols_in_group,
    set_cols_in_group. split.
  { intros ->. done. }
  intros g Hg. rewrite Hg.
  destruct (wf_active_group s g Hwf Hg) as (cv & _ & Hcv & _).
  pose proof Hwf as (_ & _ & _ & _ & Hkeys & _).
  rewrite Hcv. eexists _, _. split; [done|]. split; [done|].
  unfold get_group_cols. simpl. rewrite !lookup_insert_eq.
  split.
  { f_equal. rewrite filter_all_true.
    - rewrite <- list_fmap_compose. rewrite <- (Hkeys g cv Hcv). done.
    - by intros x (y & -> & _)%list_elem_of_fmap. }
  split.
  { f_equal. rewrite filter_none; [done|].
    by intros x (y & -> & _)%list_elem_of_fmap. }
  intros s' [->| ->]; simpl;
    (split; [intros g' Hne; by rewrite lookup_insert_ne|done]).
Qed.


Lemma detect_id_column_is_Some cols :
  cols ≠ [] → is_Some (detect_id_column cols).
Proof.
  intros Hne. unfold detect_id_column.
  destruct (list_find _ cols) as [[i c]|]; [done|].
  destruct cols; [done|]. done.
Qed.

(** X15: [load_dataset] on a table with at least two columns, worker
    and [after_load_success] taken as one step: the identifier column
    is the one [detect_id_column] names, the value columns are the
    others, the search box is emptied, the groups are replaced by
    "Group 1" and "Group 2" with no column ticked and "Group 1" active.
    The identifiers ticked before the load stay ticked and the figure
    of the last plot stays stored, so [save_plot] still writes it; a
    [plot] right after the load only warns. *)
Theorem load_resets_groups (s : Gui) (t : Frame) :
  2 ≤ length (columns t) →
  ∃ s' c, load_dataset s t = Some s'
    ∧ detect_id_column (columns t) = Some c
    ∧ id_col s' = Some c
    ∧ df_columns s' = columns t
    ∧ value_cols s' = filter (λ c', c' ≠ c) (columns t)
    ∧ id_list_all s' = column_as_str (nrows t) (frame_cell t) c
    ∧ (df_ids <$> df (app s')) = Some (id_list_all s')
    ∧ id_search_var s' = ""
    ∧ group_listbox (app s') = ["Group 1"; "Group 2"]
    ∧ active_group s' = Some "Group 1"
    ∧ (∀ g, is_Some (groups (app s') !! g) ↔ g = "Group 1" ∨ g = "Group 2")
    ∧ (∀ g, g ∈ group_listbox (app s') → get_group_cols (app s') g = Some [])
    ∧ get_selected_ids (app s') = get_selected_ids (app s)
    ∧ (∀ path, save_plot s' path = save_plot s path)
    ∧ last_fig (app (gui_plot s').1) = last_fig (app s)
    ∧ ∃ w, (gui_plot s').2 = Warned w.
Proof.
  intros Hlen. unfold load_dataset, load_dataset_worker.
  rewrite decide_False by lia.
  destruct (detect_id_column_is_Some (columns t)) as [c Hc].
  { intros Hnil. rewrite Hnil in Hlen. simpl in Hlen. lia. }
  rewrite Hc.
  match goal with |- context [after_load_success ?x] =>
    destruct (after_load_success_closed x _ eq_refl)
      as (extra & sh & -> & Hf & _)
  end.
  eexists _, c. split; [done|]. split; [done|].
  match goal with |- context [id_col ?x] => set (s' := x) end.
  assert (∀ g, g ∈ group_listbox (app s') → get_group_cols (app s') g = Some [])
    as Hnone.
  { intros g Hg. subst s'. simpl in Hg.
    apply elem_of_cons in Hg as [->|Hg];
      [|apply elem_of_cons in Hg as [->|[]%elem_of_nil]];
      unfold get_group_cols; simpl.
    - rewrite lookup_insert_ne by done. rewrite lookup_insert_eq.
      by rewrite new_col_vars_unticked.
    - rewrite lookup_insert_eq. by rewrite new_col_vars_unticked. }
  split; [done|]. split; [done|]. split; [done|]. split; [done|].
  split; [done|]. split; [done|]. split; [done|]. split; [done|].
  split.
  { intros g. subst s'. simpl.
    destruct (decide (g = "Group 2")) as [->|Hn2].
    { rewrite lookup_insert_eq. split; [by right|done]. }
    rewrite lookup_insert_ne by done.
    destruct (decide (g = "Group 1")) as [->|Hn1].
    { rewrite lookup_insert_eq. split; [by left|done]. }
    rewrite lookup_insert_ne by done. rewrite lookup_empty.
    split; [by intros []|intros [?|?]; done]. }
  split; [done|].
  split.
  { subst s'. unfold get_selected_ids. simpl. by apply selected_app_unticked. }
  split; [done|].
  pose proof (plot_warns_without_columns (app s') _ eq_refl Hnone) as Hp.
  unfold gui_plot. rewrite Hp.
  split; [done|]. eauto.
Qed.

(** X16: the columns the preview shows, for any value of the spin box:
    the identifier column first, then the first columns of the table
    other than it, in table order, as many as [ncols - 1] but never
    fewer than one when the table has another column; the identifier
    column is not repeated among them. *)
Theorem preview_shows_id_column_first (s : Gui) (c : string) (ncols : Z) :
  id_col s = Some c →
  ∃ rest, preview_cols s ncols = c :: rest
    ∧ (c ∉ rest)
    ∧ rest `prefix_of` filter (λ c', c' ≠ c) (df_columns s)
    ∧ rest `sublist_of` df_columns s
    ∧ length rest
      = Z.to_nat (1 `max` (ncols - 1))
          `min` length (filter (λ c', c' ≠ c) (df_columns s))
    ∧ ((∃ c', c' ∈ df_columns s ∧ c' ≠ c) → 1 ≤ length rest)
    ∧ (Z.of_nat (length (preview_cols s ncols)) ≤ 2 `max` ncols)%Z.
Proof.
  intros Hc. unfold preview_cols. rewrite Hc.
  set (others := filter (λ c', c' ≠ c) (df_columns s)).
  set (n := Z.to_nat (1 `max` (ncols - 1))).
  exists (take n others). split; [done|].
  split.
  { intros Hin. apply (elem_of_sublist _ others) in Hin; [|apply sublist_take].
    by apply list_elem_of_filter in Hin as [? _]. }
  split; [apply prefix_take|].
  split.
  { etrans; [apply sublist_take|]. apply sublist_filter. }
  split; [by rewrite length_take|].
  split.
  { intros (c' & Hin & Hne). rewrite length_take.
    assert (c' ∈ others) as Hin' by (by apply list_elem_of_filter).
    destruct others; [by apply elem_of_nil in Hin'|]. simpl. lia. }
  simpl. rewrite length_take. lia.
Qed.


Lemma plot_stores_shown (a : TableVisualiserApp) :
  (∀ fig, (plot a).2 = Shown fig → last_fig (plot a).1 = Some fig)
  ∧ (∀ w, (plot a).2 = Warned w → (plot a).1 = a).
Proof.
  unfold plot. destruct (df a); [|done].
  destruct (get_selected_ids a); [done|].
  destruct (collect_group_cols a (group_listbox a) ∅); [|done].
  case_decide; [done|]. simpl. split; [by intros fig [= <-]|done].
Qed.

(** X17: [save_plot] writes nothing before the first figure or when the
    dialog is cancelled; after a [plot] that showed a figure it writes
    that figure, to the path chosen; after a [plot] that only warned it
    writes what it would have written before that [plot]. *)
Theorem save_plot_writes_latest_figure (s : Gui) (path : string) :
  path ≠ "" →
  (last_fig (app s) = None → save_plot s path = None)
  ∧ save_plot s "" = None
  ∧ (∀ fig, (gui_plot s).2 = Shown fig →
            save_plot (gui_plot s).1 path = Some (path, fig))
  ∧ (∀ w, (gui_plot s).2 = Warned w →
          save_plot (gui_plot s).1 path = save_plot s path).
Proof.
  intros Hpath. unfold save_plot, gui_plot. simpl.
  destruct (plot_stores_shown (app s)) as [Hshown Hwarned].
  split; [by intros ->|].
  split; [by destruct (last_fig (app s))|].
  split.
  - intros fig Hfig. rewrite (Hshown fig Hfig). by rewrite decide_False.
  - intros w Hw. by rewrite (Hwarned w Hw).
Qed.

Lemma rename_group_closed s old new0 cv idx :
  active_group s = Some old →
  groups (app s) !! old = Some cv →
  group_listbox (app s) !! idx = Some old →
  group_index s old = Some idx →
  (∀ c, c ∈ value_cols s → c ∈ cv.*1) →
  new0 ≠ "" → strip new0 ≠ "" →
  (groups (app s) !! strip new0 = None ∨ strip new0 = old) →
  rename_group s (Some new0)
  = Some (with_groups s (<[strip new0 := cv]> (delete old (groups (app s))))
            (<[idx := strip new0]> (group_listbox (app s)))
            (Some (strip new0))).
Proof.
  intros Hold Hcv Hidx Hgi Hkeys Hn0 Hn Hfresh.
  unfold rename_group. rewrite Hold.
  rewrite decide_False by done. rewrite decide_False by done.
  rewrite decide_False.
  2:{ intros [[x Hx] Hne]. destruct Hfresh as [Hf|Hf]; congruence. }
  rewrite Hcv, Hgi.
  destruct (listbox_split _ _ _ Hidx) as (l1 & l2 & Hl & Hlen & Hdel & Hins).
  rewrite Hdel, Hins.
  rewrite render_ok.
  2:{ simpl. intros g [= <-]. exists cv. by rewrite lookup_insert_eq. }
  do 2 f_equal. rewrite Hl. rewrite insert_app_r_alt by lia.
  by rewrite Hlen, Nat.sub_diag.
Qed.

Lemma with_groups_same s :
  with_groups s (groups (app s)) (group_listbox (app s)) (active_group s) = s.
Proof. destruct s as [[] ?]. done. Qed.

Lemma with_groups_twice s g box act g' box' act' :
  with_groups (with_groups s g box act) g' box' act' = with_groups s g' box' act'.
Proof. done. Qed.

(** X18: renaming the active group to a name no group has and then
    back to its former name restores the window state exactly: the
    group keeps its place in the list box and its ticked columns (in a
    state satisfying the window invariant; the entered texts are not
    empty, nor are they after [strip]). *)
Theorem rename_group_round_trip (s : Gui) (old new0 old0 : string) :
  gui_wf s → active_group s = Some old →
  new0 ≠ "" → strip new0 ≠ "" → groups (app s) !! strip new0 = None →
  old0 ≠ "" → strip old0 = old → old ≠ "" →
  ∃ s1, rename_group s (Some new0) = Some s1
    ∧ active_group s1 = Some (strip new0)
    ∧ rename_group s1 (Some old0) = Some s.
Proof.
  intros Hwf Hold Hn0 Hn Hfresh Ho0 Hso Ho.
  destruct (wf_active_group s old Hwf Hold) as (cv & idx & Hcv & Hidx & Hgi & Hkeys).
  pose proof (rename_group_closed s old new0 cv idx Hold Hcv Hidx Hgi Hkeys Hn0 Hn
                (or_introl Hfresh)) as Hr1.
  destruct (wf_rename_group s (Some new0) Hwf) as (s1 & Hr1' & Hwf1).
  rewrite Hr1 in Hr1'. injection Hr1' as Hs1.
  exists s1. split; [by rewrite Hr1, Hs1|].
  split; [by rewrite <- Hs1|].
  assert (strip new0 ≠ old) as Hne by congruence.
  assert (groups (app s1) !! strip new0 = Some cv) as Hcv1.
  { rewrite <- Hs1. simpl. by rewrite lookup_insert_eq. }
  assert (group_listbox (app s1) !! idx = Some (strip new0)) as Hidx1.
  { rewrite <- Hs1. simpl. rewrite list_lookup_insert_eq; [done|].
    by eapply lookup_lt_Some. }
  assert (group_index s1 (strip new0) = Some idx) as Hgi1.
  { apply first_index_NoDup; [apply Hwf1|done]. }
  assert (active_group s1 = Some (strip new0)) as Hact1 by (by rewrite <- Hs1).
  assert (∀ c, c ∈ value_cols s1 → c ∈ cv.*1) as Hkeys1 by (by rewrite <- Hs1).
  assert (strip old0 ≠ "") as Hso' by congruence.
  assert (groups (app s1) !! strip old0 = None) as Hfresh1.
  { rewrite Hso, <- Hs1. simpl. rewrite lookup_insert_ne by done.
    apply lookup_delete_eq. }
  rewrite (rename_group_closed s1 (strip new0) old0 cv idx Hact1 Hcv1 Hidx1 Hgi1
             Hkeys1 Ho0 Hso' (or_introl Hfresh1)).
  rewrite Hso. rewrite <- Hs1. rewrite with_groups_twice. simpl.
  rewrite delete_insert_id by (by rewrite lookup_delete_ne).
  rewrite insert_delete_eq, insert_id by done.
  rewrite list_insert_insert_eq, list_insert_id by done.
  rewrite <- Hold. by rewrite with_groups_same.
Qed.


Lemma add_group_closed s d :
  df (app s) = Some d →
  ∃ k, groups (app s) !! ("Group " +:+ pretty (S k)) = None
    ∧ add_group s
      = Some (with_active (create_group s ("Group " +:+ pretty (S k)))
                (Some ("Group " +:+ pretty (S k)))).
Proof.
  intros Hd. unfold add_group. rewrite Hd.
  destruct (free_group_name_found (groups (app s)) 1) as [name Hname].
  rewrite Hname.
  apply free_group_name_Some in Hname as (k & -> & Hfresh & Hused).
  change (1 + k) with (S k) in *. exists k. split; [done|].
  set (name := "Group " +:+ pretty (S k)) in *.
  set (s1 := create_group s name).
  assert (name ∈ group_listbox (app s1)) as Hin.
  { simpl. rewrite elem_of_app. right. apply list_elem_of_here. }
  destruct (group_index_is_Some s1 name Hin) as [idx Hidx].
  unfold select_group_by_name. rewrite Hidx.
  apply group_index_lookup in Hidx as [Hidx _].
  rewrite (select_group_by_index_Some s1 idx name Hidx); [done|].
  exists (new_col_vars (value_cols s)). simpl. rewrite lookup_insert_eq.
  split; [done|]. intros c Hc. by rewrite new_col_vars_keys, elem_of_nub.
Qed.

Lemma with_active_groups_same s act :
  with_groups s (groups (app s)) (group_listbox (app s)) act = with_active s act.
Proof. destruct s as [[] ?]. done. Qed.

Lemma with_groups_create s name act g box act' :
  with_groups (with_active (create_group s name) act) g box act'
  = with_groups s g box act'.
Proof. done. Qed.

(** X19: adding a group and removing it at once (with a table loaded,
    in a state satisfying the window invariant) restores the groups,
    the list box and everything else but the active group, which
    becomes the last group of the list box, whichever was active
    before. *)
Theorem add_then_remove_group (s : Gui) (d : DataFrame) :
  gui_wf s → df (app s) = Some d →
  ∃ s1, add_group s = Some s1
    ∧ remove_group s1 true
      = Some (with_active s (last (group_listbox (app s)))).
Proof.
  intros Hwf Hd.
  destruct (add_group_closed s d Hd) as (k & Hfresh & Hadd).
  set (name := "Group " +:+ pretty (S k)) in *.
  destruct (wf_add_group s Hwf) as (s1 & Hadd' & Hwf1).
  rewrite Hadd in Hadd'. injection Hadd' as Hs1.
  exists s1. split; [by rewrite Hadd, Hs1|].
  assert (active_group s1 = Some name) as Hact1 by (by rewrite <- Hs1).
  destruct (remove_group_closed s1 name Hwf1 Hact1) as (idx & _ & Hidx & ->).
  rewrite <- Hs1 in Hidx |- *. simpl in Hidx.
  change (group_listbox (app (with_active (create_group s name) (Some name))))
    with (group_listbox (app s) ++ [name]).
  change (groups (app (with_active (create_group s name) (Some name))))
    with (<[name := new_col_vars (value_cols s)]> (groups (app s))).
  assert (name ∉ group_listbox (app s)) as Hnotin.
  { destruct Hwf as (_ & _ & _ & Hdom & _). rewrite Hdom, Hfresh. by intros []. }
  assert (idx = length (group_listbox (app s))) as ->.
  { destruct (decide (idx < length (group_listbox (app s)))) as [Hlt|Hge].
    - rewrite lookup_app_l in Hidx by done.
      by apply list_elem_of_lookup_2 in Hidx.
    - apply lookup_lt_Some in Hidx. rewrite length_app in Hidx. simpl in Hidx. lia. }
  rewrite (delete_middle (group_listbox (app s)) [] name), app_nil_r.
  rewrite with_groups_create. rewrite delete_insert_id by done.
  replace (length (group_listbox (app s))
             `min` (length (group_listbox (app s)) - 1))
    with (pred (length (group_listbox (app s)))) by lia.
  rewrite <- last_lookup. by rewrite with_active_groups_same.
Qed.

Lemma nub_sublist l : nub l `sublist_of` l.
Proof.
  induction l as [|x l IH]; simpl; [done|].
  apply sublist_skip. etrans; [apply sublist_filter|done].
Qed.

Lemma wf_group_cols s g :
  gui_wf s → g ∈ group_listbox (app s) →
  ∃ cols, get_group_cols (app s) g = Some cols
    ∧ cols `sublist_of` value_cols s
    ∧ NoDup cols
    ∧ ∀ c, c ∈ cols → c ∈ df_columns s ∧ Some c ≠ id_col s.
Proof.
  intros (_ & _ & _ & Hdom & Hkeys & _ & Hvc & _) Hg.
  apply Hdom in Hg as [cv Hcv]. unfold get_group_cols. rewrite Hcv.
  eexists. split; [done|].
  assert ((filter (λ cv0 : string * bool, cv0.2 = true) cv).*1
            `sublist_of` nub (value_cols s)) as Hsub.
  { rewrite <- (Hkeys g cv Hcv). apply fmap_sublist, sublist_filter. }
  split; [etrans; [done|apply nub_sublist]|].
  split; [by eapply sublist_NoDup; [apply NoDup_nub|]|].
  intros c Hc. apply Hvc. apply elem_of_nub. by eapply elem_of_sublist.
Qed.

(** X20: in every state the window can reach by its events, a load
    being taken as one step, worker and completion together (between
    the two the groups still hold the columns of the table before), the
    columns [get_group_cols] gives for a listed group are value columns
    of the loaded table (never the identifier column), each once, in
    the order of the table's columns, whatever the order in which they
    were ticked; and the identifiers [get_selected_ids] gives are
    distinct. *)
Theorem group_columns_in_table_order (s : Gui) :
  reachable s →
  NoDup (get_selected_ids (app s))
  ∧ ∀ g, g ∈ group_listbox (app s) →
      ∃ cols, get_group_cols (app s) g = Some cols
        ∧ cols `sublist_of` value_cols s
        ∧ NoDup cols
        ∧ ∀ c, c ∈ cols → c ∈ df_columns s ∧ Some c ≠ id_col s.
Proof.
  intros Hwf%reachable_wf. split.
  - apply get_selected_ids_NoDup, Hwf.
  - intros g Hg. by apply wf_group_cols.
Qed.

(** X21: in every state the window can reach by its events, a load
    being taken as one step, worker and completion together (a plot
    asked for between the two would draw the new table with the groups
    of the table before), when [plot] shows a figure, its build having
    raised nothing, every point of it comes from the table: its
    identifier is a ticked one, its group is in the list box, its
    column is ticked in that group and is a column of the table other
    than the identifier column, and its ordinate is the numeric reading
    of the cell in that column and in the first row whose identifier
    equals the point's when both are lower-cased. *)
Theorem plotted_points_come_from_table (s : Gui) (na : nat → bool)
    (fig : Figure) :
  reachable s → (plot_run (app s) na).2 = Shown fig →
  ∃ d, df (app s) = Some d
    ∧ ∀ p, p ∈ scatters fig →
        sc_rid p ∈ get_selected_ids (app s)
        ∧ sc_group p ∈ group_listbox (app s)
        ∧ (∃ cols, get_group_cols (app s) (sc_group p) = Some cols
                   ∧ sc_sample p ∈ cols)
        ∧ sc_sample p ∈ df_columns s
        ∧ Some (sc_sample p) ≠ id_col s
        ∧ ∃ i rid, id_list_all s !! i = Some rid
            ∧ lower rid = lower (sc_rid p)
            ∧ (∀ j rid', j < i → id_list_all s !! j = Some rid' →
                         lower rid' ≠ lower (sc_rid p))
            ∧ sc_y p = to_numeric (df_cell d i (sc_sample p)).
Proof.
  intros Hwf%reachable_wf Hfig.
  apply plot_run_shown in Hfig as (d & gtc & Hd & Hgtc & Hsel & _ & -> & _).
  exists d. split; [done|]. intros p Hp.
  apply scatters_of_build in Hp as (r & Hr & Hpr).
  apply build_rows_elem in Hr as [Hrid Hrow].
  destruct Hpr as (Hprid & _ & Hg & Hc & _ & Hy & _).
  rewrite <- Hprid in Hrid, Hrow.
  apply list_elem_of_filter in Hg as [[cols Hcols] Hg].
  assert (get_group_cols (app s) (sc_group p) = Some cols) as Hget.
  { rewrite (collect_group_cols_lookup _ _ _ _ (sc_group p) Hgtc) in Hcols.
    case_decide; [done|]. by rewrite lookup_empty in Hcols. }
  rewrite (lookup_total_correct _ _ _ Hcols) in Hc.
  destruct (wf_group_cols s (sc_group p) Hwf Hg) as (cols' & Hget' & _ & _ & Hin).
  assert (cols' = cols) as -> by congruence.
  split; [by eapply list_elem_of_lookup_2|].
  split; [done|]. split; [eauto|].
  split; [by apply Hin|]. split; [by apply Hin|].
  pose proof Hwf as (_ & _ & _ & _ & _ & _ & _ & Hids & _).
  rewrite <- (Hids d Hd).
  apply idx_map_lookup in Hrow as [Hi Hfirst].
  rewrite list_lookup_fmap in Hi.
  destruct (df_ids d !! r.2) as [rid|] eqn:Hridx; [|done].
  simpl in Hi. injection Hi as Hi.
  exists r.2, rid. split; [done|]. split; [done|]. split; [|done].
  intros j rid' Hj Hrid' Heq. apply (Hfirst j Hj).
  by rewrite list_lookup_fmap, Hrid', <- Heq.
Qed.

End MoreTheorems.

(** * The theorems at work on the sample states *)

(** ** Inputs on which a reading of the specification fails *)

(** C2: with no dataset loaded nothing is selected, and [plot] warns
    "No dataset", not "No Row IDs"; with a selection and checked
    columns, [plot] does not succeed on a table with an integer cell
    beyond the range of a double, nor on a table with a missing
    identifier held as a float. *)
Lemma plot_without_dataset :
  get_selected_ids init_app = []
  ∧ plot_run init_app none_missing = (init_app, Warned NoDataset)
  ∧ (plot_run init_app none_missing).2 ≠ Warned EmptySelection
  ∧ get_selected_ids huge_app = ["A"; "b"]
  ∧ get_group_cols huge_app "Group 1" = Some ["s1"; "s2"]
  ∧ plot_run huge_app none_missing = (huge_app, BuildRaised OverflowError)
  ∧ get_selected_ids (sample_app true) = ["zzz"; "A"; "b"]
  ∧ get_group_cols (sample_app true) "Group 1" = Some ["s1"; "s2"]
  ∧ plot_run (sample_app true) second_missing
    = (sample_app true, BuildRaised AttributeError).
Proof.
  split; [reflexivity|]. split; [reflexivity|]. split; [discriminate|].
  split; [reflexivity|]. split; [vm_compute; reflexivity|].
  split; [vm_compute; reflexivity|].
  split; [reflexivity|]. split; [vm_compute; reflexivity|].
  vm_compute. reflexivity.
Qed.

(** C3: in the figure of [sample_app true] the only point is the one of
    identifier "A" in column [s1]; identifier "b", found in the table
    with no numeric cell, and column [s2], empty, are in the legends all
    the same. *)
Lemma legend_entries_without_points :
  ∃ fig, (plot (sample_app true)).2 = Shown fig
    ∧ (λ p, (sc_rid p, sc_sample p)) <$> scatters fig = [("A", "s1")]
    ∧ l2d_label <$> leg_shapes fig = ["A"; "b"]
    ∧ l2d_label <$> leg_samples fig = ["s1"; "s2"]
    ∧ ¬ (∀ h, h ∈ leg_shapes fig → ∃ p, p ∈ scatters fig ∧ sc_rid p = l2d_label h)
    ∧ ¬ (∀ h, h ∈ leg_samples fig →
              ∃ p, p ∈ scatters fig ∧ sc_sample p = l2d_label h).
Proof.
  eexists. split; [vm_compute; reflexivity|].
  split; [reflexivity|]. split; [reflexivity|]. split; [reflexivity|].
  split.
  - intros H.
    destruct (H {| l2d_marker := "^"; l2d_color := black; l2d_label := "b" |})
      as (p & Hp & Hrid).
    { apply list_elem_of_further, list_elem_of_here. }
    apply list_elem_of_singleton in Hp. subst p. discriminate Hrid.
  - intros H.
    destruct (H {| l2d_marker := "o"; l2d_color := (174, 199, 232)%N;
                   l2d_label := "s2" |}) as (p & Hp & Hc).
    { apply list_elem_of_further, list_elem_of_here. }
    apply list_elem_of_singleton in Hp. subst p. discriminate Hc.
Qed.

(** C6: with four identifiers selected the two inner offsets are
    -0.08333333333333334 and 0.08333333333333331: their sum is -2^-55,
    not 0, and the gap between the last two offsets is not the gap
    between the first two. *)
Lemma four_offsets_are_uneven :
  let o1 := S754_finite true 6004799503160662 (-56) in
  let o2 := S754_finite false 6004799503160660 (-56) in
  ∃ fig, (plot_run sample_app_four none_missing).2 = Shown fig
    ∧ compute_offsets (length (get_selected_ids sample_app_four))
      = [decimal (-25) 100; o1; o2; decimal 25 100]
    ∧ (λ b, (bp_rid b, bp_positions b)) <$> boxplots fig
      = [("A", [o1]); ("b", [o2]); ("a", [decimal 25 100])]
    ∧ fadd o1 o2 = S754_finite true 4503599627370496 (-107)
    ∧ is_zero (fadd o1 o2) = false
    ∧ fsub o1 (decimal (-25) 100) = S754_finite false 6004799503160661 (-55)
    ∧ fsub (decimal 25 100) o2 = S754_finite false 6004799503160662 (-55).
Proof.
  intros o1 o2. eexists. split; [vm_compute; reflexivity|].
  split; [vm_compute; reflexivity|]. split; [vm_compute; reflexivity|].
  split; [vm_compute; reflexivity|]. split; [vm_compute; reflexivity|].
  split; vm_compute; reflexivity.
Qed.

(** C8: an infinite cell is kept by [to_float_list]; the integer
    [10 ** 400] makes it raise; the integer [2 ** 53 + 1] is read as
    the double [2 ** 53]. *)
Lemma to_float_list_keeps_infinity :
  to_float_list_run [CInt 7; CFloat NaN; CFloat PInf; CStr "n/a"]
  = Ok [float_of_Z 7; PInf]
  ∧ ¬ Forall (λ f, is_finite f = true)
        (to_float_list [CInt 7; CFloat NaN; CFloat PInf; CStr "n/a"])
  ∧ to_float_list_run [CStr "12"; CInt (10 ^ 400)] = Raised OverflowError
  ∧ to_float_list_run [CInt (2 ^ 53 + 1)] = Ok [float_of_Z (2 ^ 53)]
  ∧ float_of_Z (2 ^ 53 + 1) = float_of_Z (2 ^ 53).
Proof.
  split; [vm_compute; reflexivity|].
  split.
  { intros H. apply Forall_cons in H as [_ H]. apply Forall_cons in H as [H _].
    discriminate H. }
  split; [vm_compute; reflexivity|]. split; vm_compute; reflexivity.
Qed.

(** C9: with the absent identifier "zzz" ticked, identifier "A" is drawn
    with the second marker at the middle offset; without it, with the
    first marker at the left offset. *)
Lemma absent_identifier_moves_the_others :
  ∃ fig fig', (plot_run (sample_app true) none_missing).2 = Shown fig
    ∧ (plot_run (sample_app false) none_missing).2 = Shown fig'
    ∧ (λ p, (sc_rid p, sc_marker p)) <$> scatters fig = [("A", "s")]
    ∧ (λ p, (sc_rid p, sc_marker p)) <$> scatters fig' = [("A", "o")]
    ∧ (λ b, (bp_rid b, bp_positions b)) <$> boxplots fig
      = [("A", [float_of_Z 0]); ("b", [decimal 25 100])]
    ∧ (λ b, (bp_rid b, bp_positions b)) <$> boxplots fig'
      = [("A", [decimal (-25) 100]); ("b", [decimal 25 100])]
    ∧ filter (λ p, sc_rid p ≠ "zzz") (scatters fig) ≠ scatters fig'.
Proof.
  eexists _, _. split; [vm_compute; reflexivity|].
  split; [vm_compute; reflexivity|].
  split; [reflexivity|]. split; [reflexivity|].
  split; [vm_compute; reflexivity|]. split; [vm_compute; reflexivity|].
  intros H. vm_compute in H. discriminate H.
Qed.

(** C10: ticking the absent identifier "zzz" in front of "A" moves the
    centre of the point of "A" from -0.25 to 0, and with it the
    jittered x-coordinate, drawn with the same variate -0.5 both
    times. *)
Lemma unresolved_identifier_moves_jitter :
  ∃ fig fig', (plot (sample_app true)).2 = Shown fig
    ∧ (plot (sample_app false)).2 = Shown fig'
    ∧ sc_x <$> scatters fig
      = [fadd (float_of_Z 0) (fmul (decimal 6 100) (decimal (-5) 10))]
    ∧ sc_x <$> scatters fig'
      = [fadd (decimal (-25) 100) (fmul (decimal 6 100) (decimal (-5) 10))]
    ∧ sc_x <$> scatters fig = [S754_finite true 8646911284551352 (-58)]
    ∧ sc_x <$> scatters fig' = [S754_finite true 5044031582654956 (-54)]
    ∧ sc_x <$> scatters fig ≠ sc_x <$> scatters fig'.
Proof.
  eexists _, _. split; [vm_compute; reflexivity|].
  split; [vm_compute; reflexivity|].
  split; [vm_compute; reflexivity|]. split; [vm_compute; reflexivity|].
  split; [vm_compute; reflexivity|]. split; [vm_compute; reflexivity|].
  intros H. vm_compute in H. discriminate H.
Qed.

(** ** The theorems applied to the sample states *)

Lemma sample_app_groups_present zzz :
  Forall (λ g, is_Some (groups (sample_app zzz) !! g))
         (group_listbox (sample_app zzz)).
Proof. repeat constructor; eexists; vm_compute; reflexivity. Defined.

Lemma sample_selection_NoDup : NoDup ["zzz"; "A"; "b"].
Proof. apply (bool_decide_unpack _). vm_compute. exact I. Defined.

Lemma zzz_not_in_sample_df : lower "zzz" ∉ lower <$> df_ids sample_df.
Proof. apply (bool_decide_unpack _). vm_compute. exact I. Defined.

Lemma plot_is_reproducible_witness :
  same_snapshot (sample_app true) (plot (sample_app true)).1
  ∧ (plot (sample_app true)).2 = (plot (plot (sample_app true)).1).2.
Proof.
  assert (same_snapshot (sample_app true) (plot (sample_app true)).1) as H
    by (vm_compute; repeat split).
  split; [exact H|].
  exact (proj1 (plot_is_reproducible (sample_app true) (plot (sample_app true)).1 H)).
Defined.

Lemma plot_reports_selection_errors_witness :
  df (sample_app true) = Some sample_df
  ∧ ((plot_run (sample_app true) second_missing).2 = Warned NoColumnsAssigned
     ↔ get_selected_ids (sample_app true) ≠ []
       ∧ Forall (λ g, has_cols (sample_app true) g = false)
           (group_listbox (sample_app true))).
Proof.
  split; [reflexivity|].
  exact (proj1 (proj2
    (plot_reports_selection_errors (sample_app true) sample_df second_missing
       eq_refl (sample_app_groups_present true)))).
Defined.

Lemma legends_list_assigned_labels_witness :
  NoDup ["zzz"; "A"; "b"]
  ∧ l2d_label <$> leg_shapes
      (make_group_plot (sample_app true) sample_df ["zzz"; "A"; "b"]
         ["Group 1"; "Group 2"] sample_group_to_cols)
    = filter (λ rid, is_Some (compute_idx_map (df_ids sample_df) !! lower rid))
             ["zzz"; "A"; "b"].
Proof.
  split; [exact sample_selection_NoDup|].
  exact (proj1 (proj2 (proj2 (proj2
    (legends_list_assigned_labels (sample_app true) sample_df ["zzz"; "A"; "b"]
       ["Group 1"; "Group 2"] sample_group_to_cols sample_selection_NoDup))))).
Defined.

Lemma id_marker_cycles_palette_witness :
  NoDup ["zzz"; "A"; "b"]
  ∧ ∀ i rid, ["zzz"; "A"; "b"] !! i = Some rid →
      compute_id_marker init_id_markers ["zzz"; "A"; "b"] !! rid
      = Some (init_id_markers !!! (i mod length init_id_markers)).
Proof.
  split; [exact sample_selection_NoDup|].
  exact (proj1 (id_marker_cycles_palette init_id_markers ["zzz"; "A"; "b"]
                  sample_selection_NoDup)).
Defined.

Lemma sample_app_shown :
  (plot_run (sample_app true) none_missing).2
  = Shown (make_group_plot (sample_app true) sample_df ["zzz"; "A"; "b"]
             ["Group 1"; "Group 2"] sample_group_to_cols).
Proof. vm_compute. reflexivity. Defined.

Lemma group_positions_and_offsets_witness :
  (plot_run (sample_app true) none_missing).2
  = Shown (make_group_plot (sample_app true) sample_df ["zzz"; "A"; "b"]
             ["Group 1"; "Group 2"] sample_group_to_cols)
  ∧ xticklabels (make_group_plot (sample_app true) sample_df ["zzz"; "A"; "b"]
                   ["Group 1"; "Group 2"] sample_group_to_cols)
    = filter (λ g, has_cols (sample_app true) g = true)
             (group_listbox (sample_app true)).
Proof.
  split; [exact sample_app_shown|].
  exact (proj1 (group_positions_and_offsets (sample_app true) none_missing _
                  sample_app_shown)).
Defined.

Lemma absent_identifier_is_skipped_witness :
(lower "zzz" ∉ lower <$> df_ids sample_df)
  ∧ ∀ p, p ∈ scatters (make_group_plot (sample_app true) sample_df
                         ([] ++ "zzz" :: ["A"; "b"]) ["Group 1"; "Group 2"]
                         sample_group_to_cols) →
         sc_rid p ≠ "zzz".
Proof.
  split; [exact zzz_not_in_sample_df|].
  exact (proj1 (proj2 (proj2
    (absent_identifier_is_skipped (sample_app true) sample_df none_missing
       [] "zzz" ["A"; "b"] ["Group 1"; "Group 2"]
       sample_group_to_cols zzz_not_in_sample_df)))).
Defined.

Lemma row_seed_is_nth_master_draw_witness :
(lower "zzz" ∉ lower <$> df_ids sample_df)
  ∧ row_seeds sample_df ([] ++ "zzz" :: ["A"; "b"])
    = row_seeds sample_df ([] ++ ["A"; "b"]).
Proof.
  split; [exact zzz_not_in_sample_df|].
  exact (proj1 (proj2 (proj2 (proj2
    (row_seed_is_nth_master_draw (sample_app true) sample_df
       [] "zzz" ["A"; "b"] ["Group 1"; "Group 2"]
       sample_group_to_cols zzz_not_in_sample_df))))).
Defined.

(** ** The further properties applied to the sample states *)

Lemma sample_groups_NoDup : NoDup ["Group 1"; "Group 2"].
Proof. apply (bool_decide_unpack _). vm_compute. exact I. Defined.

Lemma sample_loaded_reachable : reachable sample_loaded.
Proof.
  apply (reachable_step init_gui (LoadTable sample_frame));
    [apply reachable_init|exact I|vm_compute; reflexivity].
Defined.

Lemma sample_ticked_reachable : reachable sample_ticked.
Proof.
  apply (reachable_step
           (with_app sample_loaded
              (set_id_vars (app sample_loaded)
                 [("A", true); ("b", true); ("a", true)]))
           SelectAllCols);
    [|exact I|vm_compute; reflexivity].
  apply (reachable_step sample_loaded SelectAllShown);
    [exact sample_loaded_reachable|exact I|vm_compute; reflexivity].
Defined.

Lemma sample_loaded_wf : gui_wf sample_loaded.
Proof. exact (reachable_wf _ sample_loaded_reachable). Defined.

Lemma sample_ticked_wf : gui_wf sample_ticked.
Proof. exact (reachable_wf _ sample_ticked_reachable). Defined.

Lemma sample_ticked_shown : (gui_plot sample_ticked).2 = Shown sample_fig.
Proof. vm_compute. reflexivity. Defined.

Lemma sample_ticked_run_shown :
  (plot_run (app sample_ticked) none_missing).2 = Shown sample_fig.
Proof. vm_compute. reflexivity. Defined.

Lemma box_data_are_point_values_witness :
  NoDup ["zzz"; "A"; "b"] ∧ NoDup ["Group 1"; "Group 2"]
  ∧ ∀ bp, bp ∈ boxplots (make_group_plot (sample_app true) sample_df
                           ["zzz"; "A"; "b"] ["Group 1"; "Group 2"]
                           sample_group_to_cols) →
      length (bp_data bp)
      = length (build_groups ["Group 1"; "Group 2"] sample_group_to_cols).
Proof.
  split; [exact sample_selection_NoDup|]. split; [exact sample_groups_NoDup|].
  intros bp Hbp.
  exact (proj1 (box_data_are_point_values (sample_app true) sample_df
                  ["zzz"; "A"; "b"] ["Group 1"; "Group 2"] sample_group_to_cols
                  sample_selection_NoDup sample_groups_NoDup bp Hbp)).
Defined.

Lemma points_match_legends_witness :
  ∃ p, p ∈ scatters sample_fig
    ∧ ∃ h, h ∈ leg_samples sample_fig ∧ l2d_label h = sc_sample p
           ∧ l2d_color h = sc_color p.
Proof.
  assert (∃ p, p ∈ scatters sample_fig) as [p Hp].
  { destruct (scatters sample_fig) as [|p l] eqn:E; [vm_compute in E; discriminate|].
    exists p. apply list_elem_of_here. }
  exists p. split; [exact Hp|].
  exact (proj1 (points_match_legends (app sample_ticked) _ _ _ _ p Hp)).
Defined.

Lemma markers_distinct_up_to_14_witness :
  NoDup ["zzz"; "A"; "b"] ∧ length ["zzz"; "A"; "b"] ≤ 14
  ∧ ∀ r1 r2 m,
      compute_id_marker init_id_markers ["zzz"; "A"; "b"] !! r1 = Some m →
      compute_id_marker init_id_markers ["zzz"; "A"; "b"] !! r2 = Some m →
      r1 = r2.
Proof.
  assert (length ["zzz"; "A"; "b"] ≤ 14) as Hlen by (simpl; lia).
  split; [exact sample_selection_NoDup|]. split; [exact Hlen|].
  exact (markers_distinct_up_to_14 ["zzz"; "A"; "b"] sample_selection_NoDup Hlen).
Defined.

Lemma refresh_shows_first_matches_witness :
  df (app (with_search sample_loaded "a"))
  = Some {| df_ids := ["A"; "b"; "a"]; df_cell := frame_cell sample_frame |}
  ∧ (∀ l, shown_run (with_search sample_loaded "a") second_missing
          = Ok (Some <$> l) →
          ids_shown (refresh_id_checkboxes (with_search sample_loaded "a")) = l).
Proof.
  split; [reflexivity|].
  exact (proj1 (proj2 (proj2 (proj2
    (refresh_shows_first_matches (with_search sample_loaded "a") _
       second_missing eq_refl))))).
Defined.

Lemma select_and_clear_shown_witness :
  (∀ rid, rid ∈ ids_shown sample_loaded → rid ∈ (id_vars (app sample_loaded)).*1)
  ∧ ∃ s0, clear_all_shown_ids sample_loaded = Some s0
      ∧ (id_vars (app s0)).*1 = (id_vars (app sample_loaded)).*1
      ∧ get_selected_ids (app s0)
        = filter (λ rid, rid ∉ ids_shown sample_loaded)
                 (get_selected_ids (app sample_loaded)).
Proof.
  split; [exact (proj1 (proj2 sample_loaded_wf))|].
  exact (proj2 (select_and_clear_shown sample_loaded
                  (proj1 (proj2 sample_loaded_wf)))).
Defined.

Lemma rename_group_keeps_columns_witness :
  gui_wf sample_loaded ∧ active_group sample_loaded = Some "Group 1"
  ∧ rename_group sample_loaded None = Some sample_loaded.
Proof.
  split; [exact sample_loaded_wf|]. split; [reflexivity|].
  exact (proj1 (rename_group_keeps_columns sample_loaded "Group 1"
                  sample_loaded_wf eq_refl)).
Defined.

Lemma reachable_never_raises_witness :
  reachable sample_ticked ∧ gui_wf sample_ticked.
Proof.
  split; [exact sample_ticked_reachable|].
  exact (proj1 (reachable_never_raises sample_ticked sample_ticked_reachable)).
Defined.

Lemma s1_in_sample_columns : "s1" ∈ df_columns sample_ticked.
Proof. apply list_elem_of_here. Defined.

Lemma id_column_change_resets_columns_witness :
  gui_wf sample_ticked
  ∧ df (app sample_ticked)
    = Some {| df_ids := ["A"; "b"; "a"]; df_cell := frame_cell sample_frame |}
  ∧ "s1" ∈ df_columns sample_ticked
  ∧ ∃ s', on_id_column_changed sample_ticked "s1" = Some s'
      ∧ id_col s' = Some "s1"
      ∧ value_cols s' = filter (λ c', c' ≠ "s1") (df_columns sample_ticked).
Proof.
  split; [exact sample_ticked_wf|]. split; [reflexivity|].
  split; [exact s1_in_sample_columns|].
  assert (Some "s1" ≠ id_col sample_ticked) as Hne by discriminate.
  destruct (proj2 (id_column_change_resets_columns sample_ticked _ "s1"
                     sample_ticked_wf eq_refl s1_in_sample_columns) Hne)
    as (s' & H1 & H2 & H3 & _).
  exists s'. split; [exact H1|]. split; [exact H2|exact H3].
Defined.

Lemma remove_group_drops_active_witness :
  gui_wf sample_loaded ∧ active_group sample_loaded = Some "Group 1"
  ∧ remove_group sample_loaded false = Some sample_loaded
  ∧ ∃ s' idx, remove_group sample_loaded true = Some s'
      ∧ group_index sample_loaded "Group 1" = Some idx
      ∧ group_listbox (app s') = delete idx (group_listbox (app sample_loaded)).
Proof.
  split; [exact sample_loaded_wf|]. split; [reflexivity|].
  destruct (remove_group_drops_active sample_loaded "Group 1"
              sample_loaded_wf eq_refl) as (Hno & s' & idx & H1 & H2 & H3 & _).
  split; [exact Hno|].
  exists s', idx. split; [exact H1|]. split; [exact H2|exact H3].
Defined.

Lemma select_and_clear_columns_witness :
  gui_wf sample_loaded
  ∧ ∃ s1 s0, select_all_cols_in_group sample_loaded = Some s1
      ∧ clear_all_cols_in_group sample_loaded = Some s0
      ∧ get_group_cols (app s1) "Group 1" = Some (nub (value_cols sample_loaded))
      ∧ get_group_cols (app s0) "Group 1" = Some [].
Proof.
  split; [exact sample_loaded_wf|].
  destruct (proj2 (select_and_clear_columns sample_loaded sample_loaded_wf)
              "Group 1" eq_refl) as (s1 & s0 & H1 & H2 & H3 & H4 & _).
  exists s1, s0. split; [exact H1|]. split; [exact H2|].
  split; [exact H3|exact H4].
Defined.

Lemma load_resets_groups_witness :
  2 ≤ length (columns sample_frame)
  ∧ ∃ s' c, load_dataset init_gui sample_frame = Some s'
      ∧ detect_id_column (columns sample_frame) = Some c.
Proof.
  assert (2 ≤ length (columns sample_frame)) as Hlen by (simpl; lia).
  split; [exact Hlen|].
  destruct (load_resets_groups init_gui sample_frame Hlen) as (s' & c & H1 & H2 & _).
  exists s', c. split; [exact H1|exact H2].
Defined.

Lemma preview_shows_id_column_first_witness :
  id_col sample_loaded = Some " Gene "
  ∧ ∃ rest, preview_cols sample_loaded 2 = " Gene " :: rest ∧ (" Gene " ∉ rest).
Proof.
  split; [reflexivity|].
  destruct (preview_shows_id_column_first sample_loaded " Gene " 2 eq_refl)
    as (rest & H1 & H2 & _).
  exists rest. split; [exact H1|exact H2].
Defined.

Lemma save_plot_writes_latest_figure_witness :
  "out.png" ≠ ""
  ∧ save_plot (gui_plot sample_ticked).1 "out.png" = Some ("out.png", sample_fig).
Proof.
  assert ("out.png" ≠ "") as Hpath by discriminate.
  split; [exact Hpath|].
  exact (proj1 (proj2 (proj2
    (save_plot_writes_latest_figure sample_ticked "out.png" Hpath)))
    sample_fig sample_ticked_shown).
Defined.

Lemma rename_group_round_trip_witness :
  gui_wf sample_loaded ∧ active_group sample_loaded = Some "Group 1"
  ∧ " Tumour " ≠ "" ∧ strip " Tumour " ≠ ""
  ∧ groups (app sample_loaded) !! strip " Tumour " = None
  ∧ "Group 1 " ≠ "" ∧ strip "Group 1 " = "Group 1" ∧ "Group 1" ≠ ""
  ∧ ∃ s1, rename_group sample_loaded (Some " Tumour ") = Some s1
      ∧ active_group s1 = Some (strip " Tumour ")
      ∧ rename_group s1 (Some "Group 1 ") = Some sample_loaded.
Proof.
  assert (" Tumour " ≠ "") as H1 by discriminate.
  assert (strip " Tumour " ≠ "") as H2 by (vm_compute; discriminate).
  assert (groups (app sample_loaded) !! strip " Tumour " = None) as H3
    by (vm_compute; reflexivity).
  assert ("Group 1 " ≠ "") as H4 by discriminate.
  assert (strip "Group 1 " = "Group 1") as H5 by (vm_compute; reflexivity).
  assert ("Group 1" ≠ "") as H6 by discriminate.
  split; [exact sample_loaded_wf|]. split; [reflexivity|].
  split; [exact H1|]. split; [exact H2|]. split; [exact H3|].
  split; [exact H4|]. split; [exact H5|]. split; [exact H6|].
  exact (rename_group_round_trip sample_loaded "Group 1" " Tumour " "Group 1 "
           sample_loaded_wf eq_refl H1 H2 H3 H4 H5 H6).
Defined.

Lemma add_then_remove_group_witness :
  gui_wf sample_loaded
  ∧ df (app sample_loaded)
    = Some {| df_ids := ["A"; "b"; "a"]; df_cell := frame_cell sample_frame |}
  ∧ ∃ s1, add_group sample_loaded = Some s1
      ∧ remove_group s1 true
        = Some (with_active sample_loaded
                  (last (group_listbox (app sample_loaded)))).
Proof.
  split; [exact sample_loaded_wf|]. split; [reflexivity|].
  exact (add_then_remove_group sample_loaded _ sample_loaded_wf eq_refl).
Defined.

Lemma group_columns_in_table_order_witness :
  reachable sample_ticked ∧ NoDup (get_selected_ids (app sample_ticked)).
Proof.
  split; [exact sample_ticked_reachable|].
  exact (proj1 (group_columns_in_table_order sample_ticked sample_ticked_reachable)).
Defined.

Lemma plotted_points_come_from_table_witness :
  reachable sample_ticked
  ∧ (plot_run (app sample_ticked) none_missing).2 = Shown sample_fig
  ∧ ∃ d, df (app sample_ticked) = Some d
      ∧ ∀ p, p ∈ scatters sample_fig → sc_sample p ∈ df_columns sample_ticked.
Proof.
  split; [exact sample_ticked_reachable|].
  split; [exact sample_ticked_run_shown|].
  destruct (plotted_points_come_from_table sample_ticked none_missing sample_fig
              sample_ticked_reachable sample_ticked_run_shown) as (d & Hd & Hp).
  exists d. split; [exact Hd|]. intros p Hin.
  exact (proj1 (proj2 (proj2 (proj2 (Hp p Hin))))).
Defined.
